(** * BLI_ghash: a chaining hash table (GHash) and its key-only view (GSet)

    Shallow embedding of [source/blender/blenlib/intern/BLI_ghash.c] in the
    configuration the file selects ([GHASH_USE_MODULO_BUCKETS] defined), with
    the theorems that settle the claims made about it.

    Conventions of the embedding.
    - [unsigned int] is a [Z] kept in [0, 2^32) with the wrap-around of
      [++], [--] and [*] written out ([uint]).
    - A [void *] (key, value, callback address) is a [Z]; [NULL] is [0].
    - A bucket chain ([Entry *] linked through [next]) is a [list Entry]; the
      bucket array is a list of chains.  An [Entry *] into bucket [b] is the
      position of the entry in that chain.
    - The value slot of an entry is an [option]: [None] is the slot a GSet
      entry does not have (or one that was never written).  Reading [e->val]
      of such an entry reads past the entry's record; the read has no
      defined result and is shown as [None], a stored value [v] as [Some v].
    - Calls of the user's free callbacks and the [BLI_assert] conditions that
      evaluate to false are recorded, in program order, in a list of [event]s
      returned next to the result.  The data result is what the code computes
      when a failed assertion does not stop it.
    - The entry pool and the allocator are external; they are not modelled. *)

From Stdlib Require Import ZArith String Permutation.
From stdpp Require Import base list.

Local Open Scope Z_scope.

(* ===================================================================== *)
(** ** Machine integers and constants *)

Definition uint (z : Z) : Z := z mod 2 ^ 32.

(** [(int)u] for an [unsigned int] [u], on a two's complement target: values
    from [2^31] on come out negative. *)
Definition to_int (u : Z) : Z :=
  if uint u <? 2 ^ 31 then uint u else uint u - 2 ^ 32.

(** [const unsigned int hashsizes[]] *)
Definition hashsizes : list Z :=
  [5; 11; 17; 37; 67; 131; 257; 521; 1031; 2053; 4099; 8209;
   16411; 32771; 65537; 131101; 262147; 524309; 1048583; 2097169;
   4194319; 8388617; 16777259; 33554467; 67108879; 134217757;
   268435459].

Definition GHASH_MAX_SIZE : Z := 27.

(** [hashsizes[i]] *)
Definition hashsizes_at (i : Z) : Z := nth (Z.to_nat i) hashsizes 0.

(** Modelled from the spec: the two public flag bits are declared in
    BLI_ghash.h, which is not among the sources; the spec names them as the
    optional bits of [flags].  They are taken as the two lowest bits. *)
Definition GHASH_FLAG_ALLOW_DUPES : Z := Z.shiftl 1 0.
Definition GHASH_FLAG_ALLOW_SHRINK : Z := Z.shiftl 1 1.

(** [#define GHASH_FLAG_IS_SET (1 << 8)] *)
Definition GHASH_FLAG_IS_SET : Z := Z.shiftl 1 8.

(** [#define GHASH_LIMIT_GROW(_nbkt) ((_nbkt) * 3) / 4] *)
Definition GHASH_LIMIT_GROW (nbkt : Z) : Z := uint (nbkt * 3) / 4.
(** [#define GHASH_LIMIT_SHRINK(_nbkt) ((_nbkt) * 3) / 16] *)
Definition GHASH_LIMIT_SHRINK (nbkt : Z) : Z := uint (nbkt * 3) / 16.

(* ===================================================================== *)
(** ** Entries *)

(** [struct Entry]; the [next] link is the tail of the chain the entry is
    in. *)
Record Entry := mkEntry {
  hash : Z;
  key : Z;
  val : option Z
}.

(** Layout of [Entry] on an LP64 target: [next] at 0, [hash] at 8 (4 bytes,
    then 4 of padding), [key] at 16, [val] at 24. *)
Definition sizeof_ptr : Z := 8.
Definition offsetof_hash : Z := 8.
Definition offsetof_key : Z := 16.
Definition offsetof_val : Z := 24.
Definition sizeof_Entry : Z := 32.

Definition GHASH_ENTRY_SIZE : Z := sizeof_Entry.
Definition GSET_ENTRY_SIZE : Z := sizeof_Entry - sizeof_ptr.

(** Whether [memcpy(dst + start, src + start, entry_size - start)] covers the
    field at [off] of [sz] bytes. *)
Definition memcpy_covers (entry_size off sz : Z) : bool :=
  (offsetof_hash <=? off) && (off + sz <=? entry_size).

Definition entry_copy (dst src : Entry) (entry_size : Z)
    (keycopyfp valcopyfp : option (Z -> Z)) : Entry :=
  let d_hash := if memcpy_covers entry_size offsetof_hash 4 then hash src else hash dst in
  let d_key := if memcpy_covers entry_size offsetof_key sizeof_ptr then key src else key dst in
  let d_val := if memcpy_covers entry_size offsetof_val sizeof_ptr then val src else val dst in
  let d_key := match keycopyfp with Some f => f (key src) | None => d_key end in
  let d_val := match valcopyfp with Some f => f <$> val src | None => d_val end in
  mkEntry d_hash d_key d_val.

(** Storage as [BLI_mempool_alloc] hands it out: nothing written yet. *)
Definition entry_uninit : Entry := mkEntry 0 0 None.

(* ===================================================================== *)
(** ** Events *)

Inductive event :=
  | CallFree (fp : Z) (arg : option Z)
  | AssertFailed (cond : string).

(** [BLI_assert(a)] *)
Definition BLI_assert (cond : string) (a : bool) : list event :=
  if a then [] else [AssertFailed cond].

(** [if (freefp) freefp(ptr);] *)
Definition call_free (freefp : option Z) (ptr : option Z) : list event :=
  match freefp with
  | Some fp => [CallFree fp ptr]
  | None => []
  end.

Definition asserts_ok (log : list event) : bool :=
  forallb (fun ev => match ev with AssertFailed _ => false | _ => true end) log.

(* ===================================================================== *)
(** ** The table *)

(** [struct GHash].  [hashfp] and [cmpfp] are the addresses of the two
    callbacks; [buckets = None] is the NULL bucket array. *)
Record GHash := mkGHash {
  hashfp : Z;
  cmpfp : Z;
  buckets : option (list (list Entry));
  nbuckets : Z;
  limit_grow : Z;
  limit_shrink : Z;
  cursize : Z;
  size_min : Z;
  nentries : Z;
  flag : Z;
  entry_size : Z
}.

Definition set_buckets (gh : GHash) (x : option (list (list Entry))) : GHash :=
  mkGHash (hashfp gh) (cmpfp gh) x (nbuckets gh) (limit_grow gh) (limit_shrink gh)
          (cursize gh) (size_min gh) (nentries gh) (flag gh) (entry_size gh).
Definition set_nbuckets (gh : GHash) (x : Z) : GHash :=
  mkGHash (hashfp gh) (cmpfp gh) (buckets gh) x (limit_grow gh) (limit_shrink gh)
          (cursize gh) (size_min gh) (nentries gh) (flag gh) (entry_size gh).
Definition set_limit_grow (gh : GHash) (x : Z) : GHash :=
  mkGHash (hashfp gh) (cmpfp gh) (buckets gh) (nbuckets gh) x (limit_shrink gh)
          (cursize gh) (size_min gh) (nentries gh) (flag gh) (entry_size gh).
Definition set_limit_shrink (gh : GHash) (x : Z) : GHash :=
  mkGHash (hashfp gh) (cmpfp gh) (buckets gh) (nbuckets gh) (limit_grow gh) x
          (cursize gh) (size_min gh) (nentries gh) (flag gh) (entry_size gh).
Definition set_cursize (gh : GHash) (x : Z) : GHash :=
  mkGHash (hashfp gh) (cmpfp gh) (buckets gh) (nbuckets gh) (limit_grow gh) (limit_shrink gh)
          x (size_min gh) (nentries gh) (flag gh) (entry_size gh).
Definition set_size_min (gh : GHash) (x : Z) : GHash :=
  mkGHash (hashfp gh) (cmpfp gh) (buckets gh) (nbuckets gh) (limit_grow gh) (limit_shrink gh)
          (cursize gh) x (nentries gh) (flag gh) (entry_size gh).
Definition set_nentries (gh : GHash) (x : Z) : GHash :=
  mkGHash (hashfp gh) (cmpfp gh) (buckets gh) (nbuckets gh) (limit_grow gh) (limit_shrink gh)
          (cursize gh) (size_min gh) x (flag gh) (entry_size gh).
Definition set_flag (gh : GHash) (x : Z) : GHash :=
  mkGHash (hashfp gh) (cmpfp gh) (buckets gh) (nbuckets gh) (limit_grow gh) (limit_shrink gh)
          (cursize gh) (size_min gh) (nentries gh) x (entry_size gh).
Definition set_entry_size (gh : GHash) (x : Z) : GHash :=
  mkGHash (hashfp gh) (cmpfp gh) (buckets gh) (nbuckets gh) (limit_grow gh) (limit_shrink gh)
          (cursize gh) (size_min gh) (nentries gh) (flag gh) x.

(** The bucket array as a list ([[]] when it is NULL). *)
Definition bucket_array (gh : GHash) : list (list Entry) := default [] (buckets gh).

(** [gh->buckets[b]] *)
Definition bucket (gh : GHash) (b : Z) : list Entry :=
  default [] (bucket_array gh !! Z.to_nat b).

(** [gh->buckets[b] = chain] *)
Definition set_bucket (gh : GHash) (b : Z) (chain : list Entry) : GHash :=
  set_buckets gh (<[Z.to_nat b := chain]> <$> buckets gh).

(** [e->next = gh->buckets[b]; gh->buckets[b] = e;] *)
Definition bucket_link (gh : GHash) (b : Z) (e : Entry) : GHash :=
  set_bucket gh b (e :: bucket gh b).

(** Every entry, in the order the [for (i ...) for (e ...)] loops visit. *)
Definition entries (gh : GHash) : list Entry := concat (bucket_array gh).

Definition flag_test (gh : GHash) (bit : Z) : bool :=
  negb (Z.land (flag gh) bit =? 0).

(* ===================================================================== *)
(** ** Internal utility API *)

Section Internal.

(** Code memory: what calling the function at a given address computes.
    A [GHashHashFP] takes a key and returns an [unsigned int]; a [GHashCmpFP]
    takes two keys and returns true when they differ. *)
Variable call_hashfp : Z -> Z -> Z.
Variable call_cmpfp : Z -> Z -> Z -> bool.

Definition ghash_keyhash (gh : GHash) (k : Z) : Z := call_hashfp (hashfp gh) k.

Definition ghash_bucket_hash (gh : GHash) (full_hash : Z) : Z :=
  full_hash mod nbuckets gh.

(** The two nested loops [for (i = 0; i < gh->nbuckets; i++)
    for (e = gh->buckets[i]; e; e = e->next)] over a table that the loop body
    does not modify. *)
Definition ghash_foreach {S : Type} (gh : GHash) (body : S -> Entry -> S) (init : S) : S :=
  foldl (fun st i => foldl body st (bucket gh i)) init (seqZ 0 (nbuckets gh)).

(** Body of the rehashing loops of [ghash_resize_buckets]. *)
Definition rehash_chain (nbuckets' : Z) (buckets_new : list (list Entry))
    (chain : list Entry) : list (list Entry) :=
  foldl (fun bn e =>
           let bucket_hash := hash e mod nbuckets' in
           <[Z.to_nat bucket_hash := e :: default [] (bn !! Z.to_nat bucket_hash)]> bn)
        buckets_new chain.

Definition ghash_resize_buckets (gh : GHash) (nbuckets' : Z) : GHash :=
  let buckets_old := buckets gh in
  let nbuckets_old := nbuckets gh in
  let gh := set_nbuckets gh nbuckets' in
  let buckets_new := replicate (Z.to_nat nbuckets') [] in
  let buckets_new :=
    match buckets_old with
    | Some old =>
        if nbuckets' >? nbuckets_old then
          foldl (fun bn i => rehash_chain nbuckets' bn (default [] (old !! Z.to_nat i)))
                buckets_new (seqZ 0 nbuckets_old)
        else
          foldl (fun bn i => rehash_chain nbuckets' bn (default [] (old !! Z.to_nat i)))
                buckets_new (seqZ 0 nbuckets_old)
    | None => buckets_new
    end in
  set_buckets gh (Some buckets_new).

(** The growing [while] loop of [ghash_expand_buckets]; the cursor moves up
    at most [GHASH_MAX_SIZE - 1] times, which bounds the fuel. *)
Fixpoint expand_grow (fuel : nat) (nentries' : Z) (gh : GHash) (new_nbuckets : Z)
    : GHash * Z :=
  match fuel with
  | O => (gh, new_nbuckets)
  | S fuel =>
      if (nentries' >? limit_grow gh) && (cursize gh <? GHASH_MAX_SIZE - 1) then
        let gh := set_cursize gh (uint (cursize gh + 1)) in
        let new_nbuckets := hashsizes_at (cursize gh) in
        let gh := set_limit_grow gh (GHASH_LIMIT_GROW new_nbuckets) in
        expand_grow fuel nentries' gh new_nbuckets
      else (gh, new_nbuckets)
  end.

(** The shrinking [while] loop of [ghash_expand_buckets]. *)
Fixpoint expand_shrink (fuel : nat) (nentries' : Z) (gh : GHash) (new_nbuckets : Z)
    : GHash * Z :=
  match fuel with
  | O => (gh, new_nbuckets)
  | S fuel =>
      if (nentries' <? limit_shrink gh) && (cursize gh >? size_min gh) then
        let gh := set_cursize gh (uint (cursize gh - 1)) in
        let new_nbuckets := hashsizes_at (cursize gh) in
        let gh := set_limit_shrink gh (GHASH_LIMIT_SHRINK new_nbuckets) in
        expand_shrink fuel nentries' gh new_nbuckets
      else (gh, new_nbuckets)
  end.

Definition expand_fuel : nat := Z.to_nat GHASH_MAX_SIZE.

Definition ghash_expand_buckets (gh : GHash) (nentries' : Z)
    (user_defined force_shrink : bool) : GHash :=
  if bool_decide (is_Some (buckets gh))
     && (nentries' <? limit_grow gh) && (nentries' >? limit_shrink gh)
  then gh
  else
    let new_nbuckets := nbuckets gh in
    let '(gh, new_nbuckets) := expand_grow expand_fuel nentries' gh new_nbuckets in
    let '(gh, new_nbuckets) :=
      if force_shrink || flag_test gh GHASH_FLAG_ALLOW_SHRINK
      then expand_shrink expand_fuel nentries' gh new_nbuckets
      else (gh, new_nbuckets) in
    let gh := if user_defined then set_size_min gh (cursize gh) else gh in
    if (new_nbuckets =? nbuckets gh) && bool_decide (is_Some (buckets gh)) then gh
    else
      let gh := set_limit_grow gh (GHASH_LIMIT_GROW new_nbuckets) in
      let gh := set_limit_shrink gh (GHASH_LIMIT_SHRINK new_nbuckets) in
      ghash_resize_buckets gh new_nbuckets.

Definition ghash_buckets_reset (gh : GHash) (nentries' : Z) : GHash :=
  let gh := set_buckets gh None in
  let gh := set_cursize gh 0 in
  let gh := set_size_min gh 0 in
  let gh := set_nbuckets gh (hashsizes_at (cursize gh)) in
  let gh := set_limit_grow gh (GHASH_LIMIT_GROW (nbuckets gh)) in
  let gh := set_limit_shrink gh (GHASH_LIMIT_SHRINK (nbuckets gh)) in
  let gh := set_nentries gh 0 in
  let gh := set_flag gh 0 in
  ghash_expand_buckets gh nentries' (negb (nentries' =? 0)) false.

(** A chain walk [for (e = chain; e; e = e->next) if (matches e) break;]: the
    position of the first entry that matches. *)
Fixpoint chain_find (matches : Entry -> bool) (chain : list Entry) : option nat :=
  match chain with
  | [] => None
  | e :: rest => if matches e then Some O else S <$> chain_find matches rest
  end.

(** The test of [ghash_lookup_entry_ex] and [ghash_remove_ex]: same full
    hash, and [cmpfp(key, e->key)] false. *)
Definition entry_matches (cmp : Z -> Z -> bool) (k h : Z) (e : Entry) : bool :=
  (hash e =? h) && negb (cmp k (key e)).

Definition chain_lookup (cmp : Z -> Z -> bool) (k h : Z) (chain : list Entry)
    : option nat :=
  chain_find (entry_matches cmp k h) chain.

Definition ghash_lookup_entry_ex (gh : GHash) (k h bucket_hash : Z) : option nat :=
  chain_lookup (call_cmpfp (cmpfp gh)) k h (bucket gh bucket_hash).

Definition ghash_lookup_entry (gh : GHash) (k : Z) : option nat :=
  let h := ghash_keyhash gh k in
  let bucket_hash := ghash_bucket_hash gh h in
  ghash_lookup_entry_ex gh k h bucket_hash.

(** Dereference of an [Entry *] into bucket [b]. *)
Definition entry_at (gh : GHash) (b : Z) (i : nat) : option Entry :=
  bucket gh b !! i.

Definition ghash_new (hashfp' cmpfp' : Z) (nentries_reserve : Z) (entry_size' : Z)
    : GHash :=
  let gh := mkGHash hashfp' cmpfp' None 0 0 0 0 0 0 0 entry_size' in
  ghash_buckets_reset gh nentries_reserve.

(** [BLI_ghash_haskey], declared in the header and used by the assertions of
    the insert functions. *)
Definition BLI_ghash_haskey (gh : GHash) (k : Z) : bool :=
  bool_decide (is_Some (ghash_lookup_entry gh k)).

(** [IS_GHASH_ASSERT(gh)] *)
Definition IS_GHASH_ASSERT (gh : GHash) : list event :=
  BLI_assert "(gh->flag & GHASH_FLAG_IS_SET) == 0"
             (Z.land (flag gh) GHASH_FLAG_IS_SET =? 0).

Definition insert_assert (gh : GHash) (k : Z) : list event :=
  BLI_assert "(gh->flag & GHASH_FLAG_ALLOW_DUPES) || (BLI_ghash_haskey(gh, key) == 0)"
             (flag_test gh GHASH_FLAG_ALLOW_DUPES || negb (BLI_ghash_haskey gh k)).

Definition ghash_insert_ex (gh : GHash) (k : Z) (v : Z) (h bucket_hash : Z)
    : GHash * list event :=
  let log := insert_assert gh k ++ IS_GHASH_ASSERT gh in
  let e := mkEntry h k (Some v) in
  let gh := bucket_link gh bucket_hash e in
  let gh := set_nentries gh (uint (nentries gh + 1)) in
  (ghash_expand_buckets gh (nentries gh) false false, log).

Definition ghash_insert_ex_keyonly (gh : GHash) (k : Z) (h bucket_hash : Z)
    : GHash * list event :=
  let log := insert_assert gh k in
  let e := mkEntry h k (val entry_uninit) in
  let gh := bucket_link gh bucket_hash e in
  let gh := set_nentries gh (uint (nentries gh + 1)) in
  (ghash_expand_buckets gh (nentries gh) false false, log).

Definition ghash_insert (gh : GHash) (k v : Z) : GHash * list event :=
  let h := ghash_keyhash gh k in
  let bucket_hash := ghash_bucket_hash gh h in
  ghash_insert_ex gh k v h bucket_hash.

(** Write through an [Entry *]: replace the entry at position [i] of bucket
    [b]. *)
Definition entry_store (gh : GHash) (b : Z) (i : nat) (e : Entry) : GHash :=
  set_bucket gh b (<[i := e]> (bucket gh b)).

Definition ghash_insert_safe (gh : GHash) (k v : Z) (override : bool)
    (keyfreefp valfreefp : option Z) : bool * GHash * list event :=
  let h := ghash_keyhash gh k in
  let bucket_hash := ghash_bucket_hash gh h in
  match ghash_lookup_entry_ex gh k h bucket_hash with
  | Some i =>
      if override then
        match entry_at gh bucket_hash i with
        | Some e =>
            let log := call_free keyfreefp (Some (key e)) ++ call_free valfreefp (val e) in
            (false, entry_store gh bucket_hash i (mkEntry (hash e) k (Some v)), log)
        | None => (false, gh, [])
        end
      else (false, gh, [])
  | None =>
      let '(gh, log) := ghash_insert_ex gh k v h bucket_hash in
      (true, gh, log)
  end.

Definition ghash_insert_safe_keyonly (gh : GHash) (k : Z) (override : bool)
    (keyfreefp : option Z) : bool * GHash * list event :=
  let h := ghash_keyhash gh k in
  let bucket_hash := ghash_bucket_hash gh h in
  match ghash_lookup_entry_ex gh k h bucket_hash with
  | Some i =>
      if override then
        match entry_at gh bucket_hash i with
        | Some e =>
            let log := call_free keyfreefp (Some (key e)) in
            (false, entry_store gh bucket_hash i (mkEntry (hash e) k (val e)), log)
        | None => (false, gh, [])
        end
      else (false, gh, [])
  | None =>
      let '(gh, log) := ghash_insert_ex_keyonly gh k h bucket_hash in
      (true, gh, log)
  end.

(** [ghash_remove_ex]: the unlinked entry, if any, with the table after the
    unlinking and the policy check. *)
Definition ghash_remove_ex (gh : GHash) (k : Z) (keyfreefp valfreefp : option Z)
    (h bucket_hash : Z) : option Entry * GHash * list event :=
  match chain_lookup (call_cmpfp (cmpfp gh)) k h (bucket gh bucket_hash) with
  | Some i =>
      match entry_at gh bucket_hash i with
      | Some e =>
          let log := call_free keyfreefp (Some (key e)) ++ call_free valfreefp (val e) in
          let gh := set_bucket gh bucket_hash (delete i (bucket gh bucket_hash)) in
          let gh := set_nentries gh (uint (nentries gh - 1)) in
          (Some e, ghash_expand_buckets gh (nentries gh) false false, log)
      | None => (None, gh, [])
      end
  | None => (None, gh, [])
  end.

(** [ghash_free_cb] *)
Definition ghash_free_cb (gh : GHash) (keyfreefp valfreefp : option Z) : list event :=
  BLI_assert "keyfreefp || valfreefp"
             (bool_decide (is_Some keyfreefp) || bool_decide (is_Some valfreefp)) ++
  ghash_foreach gh
    (fun log e => log ++ call_free keyfreefp (Some (key e)) ++ call_free valfreefp (val e))
    [].

Definition ghash_copy (gh : GHash) (keycopyfp valcopyfp : option (Z -> Z)) : GHash :=
  let entry_size' := entry_size gh in
  let gh_new := ghash_new (hashfp gh) (cmpfp gh) 0 entry_size' in
  let gh_new := ghash_expand_buckets gh_new (nentries gh) false false in
  let gh_new :=
    ghash_foreach gh
      (fun gh_new e =>
         let gh_new_bucket_hash := ghash_bucket_hash gh_new (hash e) in
         let e_new := entry_copy entry_uninit e entry_size' keycopyfp valcopyfp in
         bucket_link gh_new gh_new_bucket_hash e_new)
      gh_new in
  set_nentries gh_new (nentries gh).

End Internal.

(* ===================================================================== *)
(** ** Set algebra

    The variadic operands [gh2, ...] up to the terminating NULL are [gh2] and
    the list [arg]; [gh1] may be NULL ([None]).  [gh2] is a table, which is
    what [BLI_assert(ghn)] asks for. *)

Section SetAlgebra.

Variable call_hashfp : Z -> Z -> Z.
Variable call_cmpfp : Z -> Z -> Z -> bool.

(** The destination and the operands still to be visited, after the
    [if (!gh1)] prologue shared by the four operations. *)
Definition setop_prologue (keycopyfp valcopyfp : option (Z -> Z))
    (gh1 : option GHash) (gh2 : GHash) (arg : list GHash) : GHash * list GHash :=
  match gh1 with
  | Some gh1 => (gh1, gh2 :: arg)
  | None => (ghash_copy gh2 keycopyfp valcopyfp, arg)
  end.

(** [e_new = BLI_mempool_alloc(...); entry_copy(e_new, e, ...); link e_new at
    the head of its bucket; ghash_expand_buckets(gh, ++gh->nentries, false,
    false);] *)
Definition copy_in (gh : GHash) (bucket_hash : Z) (e : Entry) (entry_size' : Z)
    (keycopyfp valcopyfp : option (Z -> Z)) : GHash :=
  let e_new := entry_copy entry_uninit e entry_size' keycopyfp valcopyfp in
  let gh := bucket_link gh bucket_hash e_new in
  let gh := set_nentries gh (uint (nentries gh + 1)) in
  ghash_expand_buckets gh (nentries gh) false false.

Definition union_entry (reverse : bool) (keycopyfp valcopyfp : option (Z -> Z))
    (keyfreefp valfreefp : option Z) (entry_size' : Z)
    (st : GHash * list event) (e : Entry) : GHash * list event :=
  let '(gh1, log) := st in
  let gh1_bucket_hash := ghash_bucket_hash gh1 (hash e) in
  match ghash_lookup_entry_ex call_cmpfp gh1 (key e) (hash e) gh1_bucket_hash with
  | None => (copy_in gh1 gh1_bucket_hash e entry_size' keycopyfp valcopyfp, log)
  | Some i =>
      if reverse then
        match entry_at gh1 gh1_bucket_hash i with
        | Some e_gh1 =>
            let log := log ++ call_free keyfreefp (Some (key e_gh1))
                           ++ call_free valfreefp (val e_gh1) in
            (entry_store gh1 gh1_bucket_hash i
               (entry_copy e_gh1 e entry_size' keycopyfp valcopyfp), log)
        | None => st
        end
      else st
  end.

Definition union_operand (reverse : bool) (keycopyfp valcopyfp : option (Z -> Z))
    (keyfreefp valfreefp : option Z) (entry_size' : Z)
    (st : GHash * list event) (ghn : GHash) : GHash * list event :=
  let '(gh1, log) := st in
  let log := log ++ BLI_assert "gh1->cmpfp == ghn->cmpfp" (cmpfp gh1 =? cmpfp ghn)
                 ++ BLI_assert "gh1->hashfp == ghn->hashfp" (hashfp gh1 =? hashfp ghn)
                 ++ BLI_assert "entry_size == ghn->entry_size"
                               (entry_size' =? entry_size ghn) in
  ghash_foreach ghn
    (union_entry reverse keycopyfp valcopyfp keyfreefp valfreefp entry_size')
    (gh1, log).

Definition ghash_union (reverse : bool) (keycopyfp valcopyfp : option (Z -> Z))
    (keyfreefp valfreefp : option Z)
    (gh1 : option GHash) (gh2 : GHash) (arg : list GHash) : GHash * list event :=
  let '(gh1, operands) := setop_prologue keycopyfp valcopyfp gh1 gh2 arg in
  let entry_size' := entry_size gh1 in
  foldl (union_operand reverse keycopyfp valcopyfp keyfreefp valfreefp entry_size')
        (gh1, []) operands.

(** One bucket of the sweeps of [ghash_intersection] and [ghash_difference]:
    entries for which [drop] holds are unlinked and freed, with the local
    entry counter decremented. *)
Fixpoint sweep_chain (drop : Entry -> bool) (keyfreefp valfreefp : option Z)
    (chain : list Entry) (new_gh1_nentries : Z) (log : list event)
    : list Entry * Z * list event :=
  match chain with
  | [] => ([], new_gh1_nentries, log)
  | e :: rest =>
      if drop e then
        let log := log ++ call_free keyfreefp (Some (key e))
                       ++ call_free valfreefp (val e) in
        sweep_chain drop keyfreefp valfreefp rest (uint (new_gh1_nentries - 1)) log
      else
        let '(rest', n, log) :=
          sweep_chain drop keyfreefp valfreefp rest new_gh1_nentries log in
        (e :: rest', n, log)
  end.

Definition sweep_operand (drop_if_found : bool) (keyfreefp valfreefp : option Z)
    (st : GHash * list event) (ghn : GHash) : GHash * list event :=
  let '(gh1, log) := st in
  let new_gh1_nentries := nentries gh1 in
  let log := log ++ BLI_assert "gh1->cmpfp == ghn->cmpfp" (cmpfp gh1 =? cmpfp ghn)
                 ++ BLI_assert "gh1->hashfp == ghn->hashfp" (hashfp gh1 =? hashfp ghn) in
  let drop e :=
    let ghn_bucket_hash := ghash_bucket_hash ghn (hash e) in
    let found :=
      bool_decide (is_Some (ghash_lookup_entry_ex call_cmpfp ghn (key e) (hash e)
                                                  ghn_bucket_hash)) in
    if drop_if_found then found else negb found in
  let '(gh1, new_gh1_nentries, log) :=
    foldl (fun '(gh1, n, log) i =>
             let '(chain, n, log) :=
               sweep_chain drop keyfreefp valfreefp (bucket gh1 i) n log in
             (set_bucket gh1 i chain, n, log))
          (gh1, new_gh1_nentries, log) (seqZ 0 (nbuckets gh1)) in
  let gh1 := set_nentries gh1 new_gh1_nentries in
  (ghash_expand_buckets gh1 (nentries gh1) false true, log).

Definition ghash_intersection (keycopyfp valcopyfp : option (Z -> Z))
    (keyfreefp valfreefp : option Z)
    (gh1 : option GHash) (gh2 : GHash) (arg : list GHash) : GHash * list event :=
  let '(gh1, operands) := setop_prologue keycopyfp valcopyfp gh1 gh2 arg in
  foldl (sweep_operand false keyfreefp valfreefp) (gh1, []) operands.

Definition ghash_difference (keycopyfp valcopyfp : option (Z -> Z))
    (keyfreefp valfreefp : option Z)
    (gh1 : option GHash) (gh2 : GHash) (arg : list GHash) : GHash * list event :=
  let '(gh1, operands) := setop_prologue keycopyfp valcopyfp gh1 gh2 arg in
  foldl (sweep_operand true keyfreefp valfreefp) (gh1, []) operands.

(** *** Symmetric difference *)

(** First pass, one operand entry: a key already in [keys] goes to
    [rem_keys], any other key goes to [keys]. *)
Definition symdiff_pass1_entry (entry_size' : Z) (st : GHash * GHash) (e : Entry)
    : GHash * GHash :=
  let '(keys, rem_keys) := st in
  let keys_bucket_hash := ghash_bucket_hash keys (hash e) in
  match ghash_lookup_entry_ex call_cmpfp keys (key e) (hash e) keys_bucket_hash with
  | Some _ =>
      let rem_keys_bucket_hash := ghash_bucket_hash rem_keys (hash e) in
      (keys, copy_in rem_keys rem_keys_bucket_hash e GSET_ENTRY_SIZE None None)
  | None =>
      (copy_in keys keys_bucket_hash e entry_size' None None, rem_keys)
  end.

(** First pass, one operand.  The third assertion is written with [=]: its
    condition is the value of an assignment, the operand's entry size tested
    against zero, and not a comparison.  [entry_size] is declared [const]:
    the assignment is never carried out (the build that drops assertions is
    the one that accepts the line), so the copies below are made with the
    entry size of [gh1]. *)
Definition symdiff_pass1_operand (gh1 : GHash) (entry_size' : Z)
    (st : GHash * GHash * list event) (ghn : GHash)
    : GHash * GHash * list event :=
  let '(keys, rem_keys, log) := st in
  let log := log ++ BLI_assert "gh1->cmpfp == ghn->cmpfp" (cmpfp gh1 =? cmpfp ghn)
                 ++ BLI_assert "gh1->hashfp == ghn->hashfp" (hashfp gh1 =? hashfp ghn)
                 ++ BLI_assert "entry_size = ghn->entry_size"
                               (negb (entry_size ghn =? 0)) in
  let '(keys, rem_keys) :=
    ghash_foreach ghn (symdiff_pass1_entry entry_size') (keys, rem_keys) in
  (keys, rem_keys, log).

(** The test of the two chain walks of the second pass:
    [e_curr->hash == e->hash] and [keys->cmpfp(e_curr->key, e->key)] false. *)
Definition symdiff_matches (keys : GHash) (e e_curr : Entry) : bool :=
  (hash e_curr =? hash e) && negb (call_cmpfp (cmpfp keys) (key e_curr) (key e)).

(** Second pass, one entry [e] of [rem_keys]. *)
Definition symdiff_pass2_entry (keyfreefp valfreefp : option Z)
    (st : GHash * GHash * list event) (e : Entry) : GHash * GHash * list event :=
  let '(keys, gh1, log) := st in
  let keys_bucket_hash := ghash_bucket_hash keys (hash e) in
  let gh1_bucket_hash := ghash_bucket_hash gh1 (hash e) in
  let e_curr := chain_find (symdiff_matches keys e) (bucket keys keys_bucket_hash) in
  let keys' :=
    match e_curr with
    | Some i =>
        let keys' := set_bucket keys keys_bucket_hash
                                (delete i (bucket keys keys_bucket_hash)) in
        set_nentries keys' (uint (nentries keys' - 1))
    | None => keys
    end in
  let log := log ++ BLI_assert "e_curr != NULL" (bool_decide (is_Some e_curr)) in
  match chain_find (symdiff_matches keys' e) (bucket gh1 gh1_bucket_hash) with
  | Some i =>
      let log :=
        match entry_at gh1 gh1_bucket_hash i with
        | Some e_curr => log ++ call_free keyfreefp (Some (key e_curr))
                             ++ call_free valfreefp (val e_curr)
        | None => log
        end in
      let gh1 := set_bucket gh1 gh1_bucket_hash
                            (delete i (bucket gh1 gh1_bucket_hash)) in
      (keys', set_nentries gh1 (uint (nentries gh1 - 1)), log)
  | None => (keys', gh1, log)
  end.

(** Final pass, one entry of [keys]. *)
Definition symdiff_pass3_entry (keycopyfp valcopyfp : option (Z -> Z))
    (entry_size' : Z) (gh1 : GHash) (e : Entry) : GHash :=
  let gh1_bucket_hash := ghash_bucket_hash gh1 (hash e) in
  match ghash_lookup_entry_ex call_cmpfp gh1 (key e) (hash e) gh1_bucket_hash with
  | None => copy_in gh1 gh1_bucket_hash e entry_size' keycopyfp valcopyfp
  | Some _ => gh1
  end.

(** The passes of [ghash_symmetric_difference], after its prologue. *)
Definition symdiff_passes (keycopyfp valcopyfp : option (Z -> Z))
    (keyfreefp valfreefp : option Z)
    (gh1 : GHash) (operands : list GHash) : GHash * list event :=
  let keys := ghash_copy gh1 None None in
  let rem_keys := ghash_new (hashfp gh1) (cmpfp gh1) 64 GSET_ENTRY_SIZE in
  let entry_size' := entry_size gh1 in
  let '(keys, rem_keys, log) :=
    foldl (symdiff_pass1_operand gh1 entry_size') (keys, rem_keys, []) operands in
  let '(keys, gh1, log) :=
    ghash_foreach rem_keys (symdiff_pass2_entry keyfreefp valfreefp) (keys, gh1, log) in
  let gh1 :=
    ghash_foreach keys (symdiff_pass3_entry keycopyfp valcopyfp entry_size') gh1 in
  (ghash_expand_buckets gh1 (nentries gh1) false true, log).

Definition ghash_symmetric_difference (keycopyfp valcopyfp : option (Z -> Z))
    (keyfreefp valfreefp : option Z)
    (gh1 : option GHash) (gh2 : GHash) (arg : list GHash) : GHash * list event :=
  let '(gh1, operands) := setop_prologue keycopyfp valcopyfp gh1 gh2 arg in
  symdiff_passes keycopyfp valcopyfp keyfreefp valfreefp gh1 operands.

End SetAlgebra.

(* ===================================================================== *)
(** ** Public API *)

Section Public.

Variable call_hashfp : Z -> Z -> Z.
Variable call_cmpfp : Z -> Z -> Z -> bool.

Definition BLI_ghash_new_ex (hashfp' cmpfp' : Z) (nentries_reserve : Z) : GHash :=
  ghash_new hashfp' cmpfp' nentries_reserve GHASH_ENTRY_SIZE.

Definition BLI_ghash_new (hashfp' cmpfp' : Z) : GHash :=
  BLI_ghash_new_ex hashfp' cmpfp' 0.


Definition BLI_ghash_reserve (gh : GHash) (nentries_reserve : Z) : GHash :=
  ghash_expand_buckets gh nentries_reserve true false.

(** [return (int)gh->nentries;] *)
Definition BLI_ghash_size (gh : GHash) : Z := to_int (nentries gh).

Definition BLI_ghash_insert (gh : GHash) (k v : Z) : GHash * list event :=
  ghash_insert call_hashfp call_cmpfp gh k v.

Definition BLI_ghash_add (gh : GHash) (k v : Z) : bool * GHash * list event :=
  ghash_insert_safe call_hashfp call_cmpfp gh k v false None None.

Definition BLI_ghash_reinsert (gh : GHash) (k v : Z) (keyfreefp valfreefp : option Z)
    : bool * GHash * list event :=
  ghash_insert_safe call_hashfp call_cmpfp gh k v true keyfreefp valfreefp.

(** [e ? e->val : dflt].  For an entry without a value slot the read of
    [e->val] lies past the entry's record: the result is [None]. *)
Definition entry_val_or (e : option Entry) (dflt : Z) : option Z :=
  match e with
  | Some e => val e
  | None => Some dflt
  end.

Definition lookup_entry_deref (gh : GHash) (k : Z) : option Entry :=
  i ← ghash_lookup_entry call_hashfp call_cmpfp gh k;
  entry_at gh (ghash_bucket_hash gh (ghash_keyhash call_hashfp gh k)) i.

Definition BLI_ghash_lookup (gh : GHash) (k : Z) : option Z * list event :=
  let e := lookup_entry_deref gh k in
  (entry_val_or e 0, IS_GHASH_ASSERT gh).

Definition BLI_ghash_lookup_default (gh : GHash) (k : Z) (val_default : Z)
    : option Z * list event :=
  let e := lookup_entry_deref gh k in
  (entry_val_or e val_default, IS_GHASH_ASSERT gh).

(** [BLI_ghash_lookup_p]: the address of the value slot, as the bucket and
    position of its entry, or NULL. *)
Definition BLI_ghash_lookup_p (gh : GHash) (k : Z) : option (Z * nat) * list event :=
  let b := ghash_bucket_hash gh (ghash_keyhash call_hashfp gh k) in
  ((fun i => (b, i)) <$> ghash_lookup_entry call_hashfp call_cmpfp gh k,
   IS_GHASH_ASSERT gh).

Definition BLI_ghash_remove (gh : GHash) (k : Z) (keyfreefp valfreefp : option Z)
    : bool * GHash * list event :=
  let h := ghash_keyhash call_hashfp gh k in
  let bucket_hash := ghash_bucket_hash gh h in
  let '(e, gh, log) :=
    ghash_remove_ex call_cmpfp gh k keyfreefp valfreefp h bucket_hash in
  match e with
  | Some _ => (true, gh, log)
  | None => (false, gh, log)
  end.

Definition BLI_ghash_popkey (gh : GHash) (k : Z) (keyfreefp : option Z)
    : option Z * GHash * list event :=
  let h := ghash_keyhash call_hashfp gh k in
  let bucket_hash := ghash_bucket_hash gh h in
  let '(e, gh, log) := ghash_remove_ex call_cmpfp gh k keyfreefp None h bucket_hash in
  let log := log ++ IS_GHASH_ASSERT gh in
  match e with
  | Some e => (val e, gh, log)
  | None => (Some 0, gh, log)
  end.

Definition BLI_ghash_clear_ex (gh : GHash) (keyfreefp valfreefp : option Z)
    (nentries_reserve : Z) : GHash * list event :=
  let log :=
    if bool_decide (is_Some keyfreefp) || bool_decide (is_Some valfreefp)
    then ghash_free_cb gh keyfreefp valfreefp
    else [] in
  (ghash_buckets_reset gh nentries_reserve, log).

Definition BLI_ghash_clear (gh : GHash) (keyfreefp valfreefp : option Z)
    : GHash * list event :=
  BLI_ghash_clear_ex gh keyfreefp valfreefp 0.

Definition BLI_ghash_flag_set (gh : GHash) (flag' : Z) : GHash :=
  set_flag gh (Z.lor (flag gh) flag').

Definition BLI_ghash_flag_clear (gh : GHash) (flag' : Z) : GHash :=
  set_flag gh (Z.land (flag gh) (uint (Z.lnot flag'))).

Definition BLI_ghash_union (keycopyfp valcopyfp : option (Z -> Z))
    (gh1 : option GHash) (gh2 : GHash) (arg : list GHash) : GHash * list event :=
  ghash_union call_cmpfp false keycopyfp valcopyfp None None gh1 gh2 arg.

Definition BLI_ghash_union_reversed (keycopyfp valcopyfp : option (Z -> Z))
    (keyfreefp valfreefp : option Z)
    (gh1 : option GHash) (gh2 : GHash) (arg : list GHash) : GHash * list event :=
  ghash_union call_cmpfp true keycopyfp valcopyfp keyfreefp valfreefp gh1 gh2 arg.

Definition BLI_ghash_intersection (keycopyfp valcopyfp : option (Z -> Z))
    (keyfreefp valfreefp : option Z)
    (gh1 : option GHash) (gh2 : GHash) (arg : list GHash) : GHash * list event :=
  ghash_intersection call_cmpfp keycopyfp valcopyfp keyfreefp valfreefp gh1 gh2 arg.

Definition BLI_ghash_difference (keycopyfp valcopyfp : option (Z -> Z))
    (keyfreefp valfreefp : option Z)
    (gh1 : option GHash) (gh2 : GHash) (arg : list GHash) : GHash * list event :=
  ghash_difference call_cmpfp keycopyfp valcopyfp keyfreefp valfreefp gh1 gh2 arg.

Definition BLI_ghash_symmetric_difference (keycopyfp valcopyfp : option (Z -> Z))
    (keyfreefp valfreefp : option Z)
    (gh1 : option GHash) (gh2 : GHash) (arg : list GHash) : GHash * list event :=
  ghash_symmetric_difference call_cmpfp keycopyfp valcopyfp keyfreefp valfreefp
                             gh1 gh2 arg.

(** *** GSet: the same table used without the value slot *)

(** The flag is set in builds that keep assertions ([#ifndef NDEBUG]), which
    are the builds in which the recorded assertions are evaluated. *)
Definition BLI_gset_new_ex (hashfp' cmpfp' : Z) (nentries_reserve : Z) : GHash :=
  let gs := ghash_new hashfp' cmpfp' nentries_reserve GSET_ENTRY_SIZE in
  set_flag gs (Z.lor (flag gs) GHASH_FLAG_IS_SET).

Definition BLI_gset_new (hashfp' cmpfp' : Z) : GHash :=
  BLI_gset_new_ex hashfp' cmpfp' 0.

Definition BLI_gset_insert (gs : GHash) (k : Z) : GHash * list event :=
  let h := ghash_keyhash call_hashfp gs k in
  let bucket_hash := ghash_bucket_hash gs h in
  ghash_insert_ex_keyonly call_hashfp call_cmpfp gs k h bucket_hash.

Definition BLI_gset_add (gs : GHash) (k : Z) : bool * GHash * list event :=
  ghash_insert_safe_keyonly call_hashfp call_cmpfp gs k false None.

Definition BLI_gset_reinsert (gs : GHash) (k : Z) (keyfreefp : option Z)
    : bool * GHash * list event :=
  ghash_insert_safe_keyonly call_hashfp call_cmpfp gs k true keyfreefp.

Definition BLI_gset_remove (gs : GHash) (k : Z) (keyfreefp : option Z)
    : bool * GHash * list event :=
  BLI_ghash_remove gs k keyfreefp None.

Definition BLI_gset_haskey (gs : GHash) (k : Z) : bool :=
  bool_decide (is_Some (ghash_lookup_entry call_hashfp call_cmpfp gs k)).


Definition BLI_gset_symmetric_difference (keycopyfp : option (Z -> Z))
    (keyfreefp : option Z)
    (gs1 : option GHash) (gs2 : GHash) (arg : list GHash) : GHash * list event :=
  ghash_symmetric_difference call_cmpfp keycopyfp None keyfreefp None gs1 gs2 arg.

(** *** Freeing, key-set predicates and the remaining GSet wrappers *)

(** [BLI_ghash_free]: the table is gone afterwards; what is left to observe
    is the calls of the free callbacks.  The assertion on
    [BLI_mempool_count] is about the entry pool, which is external. *)
Definition BLI_ghash_free (gh : GHash) (keyfreefp valfreefp : option Z) : list event :=
  if bool_decide (is_Some keyfreefp) || bool_decide (is_Some valfreefp)
  then ghash_free_cb gh keyfreefp valfreefp
  else [].

(** The nested loops [for (i = 0; i < gh->nbuckets; i++)
    for (e = gh->buckets[i]; e; e = e->next) if (!test(e)) return false;]
    followed by [return true]. *)
Definition ghash_forall (gh : GHash) (test : Entry -> bool) : bool :=
  forallb (fun i => forallb test (bucket gh i)) (seqZ 0 (nbuckets gh)).

(** [ghash_lookup_entry_ex(gh, e->key, e->hash, ghash_bucket_hash(gh, e->hash))]
    as a truth value. *)
Definition entry_found_in (gh : GHash) (e : Entry) : bool :=
  let gh_bucket_hash := ghash_bucket_hash gh (hash e) in
  bool_decide (is_Some (ghash_lookup_entry_ex call_cmpfp gh (key e) (hash e)
                                              gh_bucket_hash)).

Definition BLI_ghash_isdisjoint (gh1 gh2 : GHash) : bool :=
  let '(gh1, gh2) :=
    if nentries gh1 >? nentries gh2 then (gh2, gh1) else (gh1, gh2) in
  ghash_forall gh1 (fun e => negb (entry_found_in gh2 e)).

Definition BLI_ghash_isequal (gh1 gh2 : GHash) : bool :=
  if negb (nentries gh1 =? nentries gh2) then false
  else ghash_forall gh1 (fun e => entry_found_in gh2 e).

Definition BLI_ghash_issubset (gh1 gh2 : GHash) : bool :=
  if nentries gh1 <? nentries gh2 then false
  else ghash_forall gh2 (fun e => entry_found_in gh1 e).

Definition BLI_ghash_issuperset (gh1 gh2 : GHash) : bool :=
  BLI_ghash_issubset gh2 gh1.

(** [(int)hashsizes[gh->cursize]]; every scheduled size is below [2^31]. *)
Definition BLI_ghash_buckets_size (gh : GHash) : Z := hashsizes_at (cursize gh).


(** [return (int)gs->nentries;], the set taken as a [GHash]. *)
Definition BLI_gset_size (gs : GHash) : Z := to_int (nentries gs).

Definition BLI_gset_clear_ex (gs : GHash) (keyfreefp : option Z) (nentries_reserve : Z)
    : GHash * list event :=
  BLI_ghash_clear_ex gs keyfreefp None nentries_reserve.

Definition BLI_gset_clear (gs : GHash) (keyfreefp : option Z) : GHash * list event :=
  BLI_ghash_clear gs keyfreefp None.

Definition BLI_gset_free (gs : GHash) (keyfreefp : option Z) : list event :=
  BLI_ghash_free gs keyfreefp None.

Definition BLI_gset_flag_set (gs : GHash) (flag' : Z) : GHash :=
  set_flag gs (Z.lor (flag gs) flag').

Definition BLI_gset_flag_clear (gs : GHash) (flag' : Z) : GHash :=
  set_flag gs (Z.land (flag gs) (uint (Z.lnot flag'))).

Definition BLI_gset_isdisjoint (gs1 gs2 : GHash) : bool := BLI_ghash_isdisjoint gs1 gs2.
Definition BLI_gset_isequal (gs1 gs2 : GHash) : bool := BLI_ghash_isequal gs1 gs2.
Definition BLI_gset_issubset (gs1 gs2 : GHash) : bool := BLI_ghash_issubset gs1 gs2.
Definition BLI_gset_issuperset (gs1 gs2 : GHash) : bool := BLI_ghash_issubset gs2 gs1.

Definition BLI_gset_intersection (keycopyfp : option (Z -> Z)) (keyfreefp : option Z)
    (gs1 : option GHash) (gs2 : GHash) (arg : list GHash) : GHash * list event :=
  ghash_intersection call_cmpfp keycopyfp None keyfreefp None gs1 gs2 arg.

Definition BLI_gset_difference (keycopyfp : option (Z -> Z)) (keyfreefp : option Z)
    (gs1 : option GHash) (gs2 : GHash) (arg : list GHash) : GHash * list event :=
  ghash_difference call_cmpfp keycopyfp None keyfreefp None gs1 gs2 arg.

Definition BLI_gset_buckets_size (gs : GHash) : Z := BLI_ghash_buckets_size gs.

End Public.

(* ===================================================================== *)
(** ** Iterator API

    [struct GHashIterator] holds the table, the current entry and the index
    of the bucket the current entry is in.  The [Entry *] is kept as the
    position of the entry in the chain of bucket [curBucket]. *)

Record GHashIterator := mkGHashIterator {
  ghi_gh : GHash;
  curEntry : option nat;
  curBucket : Z
}.

Definition UINT_MAX : Z := 2 ^ 32 - 1.

(** [ghi->gh->buckets[ghi->curBucket]] as an [Entry *]: the head of the
    chain, NULL for an empty bucket. *)
Definition chain_head (gh : GHash) (b : Z) : option nat :=
  match bucket gh b with
  | [] => None
  | _ :: _ => Some O
  end.

(** [e->next] for the entry at position [i] of bucket [b]. *)
Definition chain_next (gh : GHash) (b : Z) (i : nat) : option nat :=
  match bucket gh b !! S i with
  | Some _ => Some (S i)
  | None => None
  end.

(** The loop [do { ghi->curBucket++; if (ghi->curBucket == ghi->gh->nbuckets)
    break; ghi->curEntry = ghi->gh->buckets[ghi->curBucket]; }
    while (!ghi->curEntry);] of [BLI_ghashIterator_init], which is also the
    [while (!ghi->curEntry) { ... }] of [BLI_ghashIterator_step] entered with
    a NULL current entry.  [None] is a loop that has not ended when the fuel
    is spent. *)
Fixpoint iter_seek (fuel : nat) (ghi : GHashIterator) : option GHashIterator :=
  match fuel with
  | O => None
  | S fuel =>
      let ghi := mkGHashIterator (ghi_gh ghi) (curEntry ghi) (uint (curBucket ghi + 1)) in
      if curBucket ghi =? nbuckets (ghi_gh ghi) then Some ghi
      else
        let ghi := mkGHashIterator (ghi_gh ghi)
                     (chain_head (ghi_gh ghi) (curBucket ghi)) (curBucket ghi) in
        match curEntry ghi with
        | Some _ => Some ghi
        | None => iter_seek fuel ghi
        end
  end.

(** One round of the loop for each bucket, and one for the exit. *)
Definition iter_fuel (gh : GHash) : nat := S (Z.to_nat (nbuckets gh)).

Definition BLI_ghashIterator_init (gh : GHash) : option GHashIterator :=
  let ghi := mkGHashIterator gh None UINT_MAX in
  if negb (nentries gh =? 0) then iter_seek (iter_fuel gh) ghi else Some ghi.

(** [BLI_ghashIterator_new] is [BLI_ghashIterator_init] on fresh storage. *)
Definition BLI_ghashIterator_new (gh : GHash) : option GHashIterator :=
  BLI_ghashIterator_init gh.

Definition BLI_ghashIterator_step (ghi : GHashIterator) : option GHashIterator :=
  match curEntry ghi with
  | Some i =>
      let ghi := mkGHashIterator (ghi_gh ghi)
                   (chain_next (ghi_gh ghi) (curBucket ghi) i) (curBucket ghi) in
      match curEntry ghi with
      | Some _ => Some ghi
      | None => iter_seek (iter_fuel (ghi_gh ghi)) ghi
      end
  | None => Some ghi
  end.

(** The accessors, as the file keeps them under [#if 0] ("inline functions
    now"): each dereferences [ghi->curEntry]; [None] is the dereference of
    NULL. *)
Definition iter_entry (ghi : GHashIterator) : option Entry :=
  i ← curEntry ghi; entry_at (ghi_gh ghi) (curBucket ghi) i.

Definition BLI_ghashIterator_getKey (ghi : GHashIterator) : option Z :=
  key <$> iter_entry ghi.

Definition BLI_ghashIterator_getValue (ghi : GHashIterator) : option Z :=
  e ← iter_entry ghi; val e.

Definition BLI_ghashIterator_done (ghi : GHashIterator) : bool :=
  negb (bool_decide (is_Some (curEntry ghi))).

(* ===================================================================== *)
(** ** Generic key hash and comparison functions *)

(** [BLI_ghashutil_ptrhash] on an LP64 target: the pointer rotated right by
    four bits, truncated to [unsigned int]. *)
Definition BLI_ghashutil_ptrhash (k : Z) : Z :=
  let y := k mod 2 ^ 64 in
  let y := Z.lor (Z.shiftr y 4) (Z.shiftl y (8 * sizeof_ptr - 4) mod 2 ^ 64) in
  uint y.

Definition BLI_ghashutil_ptrcmp (a b : Z) : bool := negb (a =? b).

(** A code memory holding the pointer hash at address 1 and the pointer
    comparison at address 2. *)
Definition ptr_hashfp : Z := 1.
Definition ptr_cmpfp : Z := 2.
Definition std_call_hashfp (fp k : Z) : Z :=
  if fp =? ptr_hashfp then BLI_ghashutil_ptrhash k else 0.
Definition std_call_cmpfp (fp a b : Z) : bool :=
  if fp =? ptr_cmpfp then BLI_ghashutil_ptrcmp a b else true.

Definition BLI_ghash_ptr_new : GHash := BLI_ghash_new ptr_hashfp ptr_cmpfp.
Definition BLI_gset_ptr_new : GHash := BLI_gset_new ptr_hashfp ptr_cmpfp.

(** [BLI_ghashutil_uinthash]; [~x] is taken in [unsigned int]. *)
Definition BLI_ghashutil_uinthash (key : Z) : Z :=
  let key := uint (key + uint (Z.lnot (uint (Z.shiftl key 16)))) in
  let key := Z.lxor key (Z.shiftr key 5) in
  let key := uint (key + uint (Z.shiftl key 3)) in
  let key := Z.lxor key (Z.shiftr key 13) in
  let key := uint (key + uint (Z.lnot (uint (Z.shiftl key 9)))) in
  let key := Z.lxor key (Z.shiftr key 17) in
  key.

(** [uintptr_t] arithmetic on an LP64 target. *)
Definition uintptr (z : Z) : Z := z mod 2 ^ 64.

(** [BLI_ghashutil_inthash_p]: the same mixing in [uintptr_t], then the low
    32 bits. *)
Definition BLI_ghashutil_inthash_p (ptr : Z) : Z :=
  let key := uintptr ptr in
  let key := uintptr (key + uintptr (Z.lnot (uintptr (Z.shiftl key 16)))) in
  let key := Z.lxor key (Z.shiftr key 5) in
  let key := uintptr (key + uintptr (Z.shiftl key 3)) in
  let key := Z.lxor key (Z.shiftr key 13) in
  let key := uintptr (key + uintptr (Z.lnot (uintptr (Z.shiftl key 9)))) in
  let key := Z.lxor key (Z.shiftr key 17) in
  Z.land key 4294967295.

Definition BLI_ghashutil_intcmp (a b : Z) : bool := negb (a =? b).

(** [BLI_ghashutil_uinthash_v4], on the four [unsigned int]s the key points
    to. *)
Definition BLI_ghashutil_uinthash_v4 (key : Z * Z * Z * Z) : Z :=
  let '(key0, key1, key2, key3) := key in
  let hash := key0 in
  let hash := uint (hash * 37) in
  let hash := uint (hash + key1) in
  let hash := uint (hash * 37) in
  let hash := uint (hash + key2) in
  let hash := uint (hash * 37) in
  let hash := uint (hash + key3) in
  hash.

(** [memcmp(a, b, sizeof(unsigned int[4])) != 0], on the two arrays. *)
Definition BLI_ghashutil_uinthash_v4_cmp (a b : Z * Z * Z * Z) : bool :=
  let '(a0, a1, a2, a3) := a in
  let '(b0, b1, b2, b3) := b in
  negb ((a0 =? b0) && (a1 =? b1) && (a2 =? b2) && (a3 =? b3)).

(** *** Strings

    A [char] buffer is the list of its [signed char]s, from the address the
    pointer holds to the end of the object; a read past the end has no
    defined result ([None]). *)

(** [h = (h << 5) + h + (unsigned int)*p] *)
Definition strhash_step (h c : Z) : Z :=
  uint (uint (uint (Z.shiftl h 5) + h) + uint c).

(** The loop of [BLI_ghashutil_strhash_p]:
    [for (p = ptr; *p != 0; p++) h = ...]. *)
Fixpoint strhash_p_loop (h : Z) (buf : list Z) : option Z :=
  match buf with
  | [] => None
  | c :: rest => if c =? 0 then Some h else strhash_p_loop (strhash_step h c) rest
  end.

Definition BLI_ghashutil_strhash_p (buf : list Z) : option Z := strhash_p_loop 5381 buf.

(** The loop of [BLI_ghashutil_strhash_n]:
    [for (p = key; n-- && *p != 0; p++) h = ...]; with [n] at zero the
    buffer is not read. *)
Fixpoint strhash_n_loop (h : Z) (buf : list Z) (n : Z) : option Z :=
  if n =? 0 then Some h
  else
    match buf with
    | [] => None
    | c :: rest =>
        if c =? 0 then Some h else strhash_n_loop (strhash_step h c) rest (n - 1)
    end.

Definition BLI_ghashutil_strhash_n (buf : list Z) (n : Z) : option Z :=
  strhash_n_loop 5381 buf n.

(** [STREQ(a, b)] is declared in BLI_utildefines.h, which is not among the
    sources; it is taken as [strcmp(a, b) == 0]: the two buffers are read
    in step up to the first difference or the terminator. *)
Fixpoint STREQ (a b : list Z) : option bool :=
  match a, b with
  | ca :: ra, cb :: rb =>
      if ca =? cb then (if ca =? 0 then Some true else STREQ ra rb) else Some false
  | _, _ => None
  end.

(** [BLI_ghashutil_strcmp]: [(a == b) ? false : !STREQ(a, b)], with [mem]
    giving the buffer at an address. *)
Definition BLI_ghashutil_strcmp (mem : Z -> list Z) (a b : Z) : option bool :=
  if a =? b then Some false else negb <$> STREQ (mem a) (mem b).

(** *** Pairs

    [pair_at p] is the [GHashPair] stored at [p]: its [first] and
    [second]. *)
Definition BLI_ghashutil_pairhash (pair_at : Z -> Z * Z) (ptr : Z) : Z :=
  let pair := pair_at ptr in
  let hash := BLI_ghashutil_ptrhash pair.1 in
  Z.lxor hash (BLI_ghashutil_ptrhash pair.2).

Definition BLI_ghashutil_paircmp (pair_at : Z -> Z * Z) (a b : Z) : bool :=
  let A := pair_at a in
  let B := pair_at b in
  BLI_ghashutil_ptrcmp A.1 B.1 || BLI_ghashutil_ptrcmp A.2 B.2.

(** *** Convenience creation functions

    The code memory extended with the string, integer and pair callbacks; a
    read with no defined result counts as a zero hash and as a difference. *)
Definition str_hashfp : Z := 3.
Definition str_cmpfp : Z := 4.
Definition int_hashfp : Z := 5.
Definition int_cmpfp : Z := 6.
Definition pair_hashfp : Z := 7.
Definition pair_cmpfp : Z := 8.

Definition util_call_hashfp (mem : Z -> list Z) (pair_at : Z -> Z * Z) (fp k : Z) : Z :=
  if fp =? ptr_hashfp then BLI_ghashutil_ptrhash k
  else if fp =? str_hashfp then default 0 (BLI_ghashutil_strhash_p (mem k))
  else if fp =? int_hashfp then BLI_ghashutil_inthash_p k
  else if fp =? pair_hashfp then BLI_ghashutil_pairhash pair_at k
  else 0.

Definition util_call_cmpfp (mem : Z -> list Z) (pair_at : Z -> Z * Z) (fp a b : Z) : bool :=
  if fp =? ptr_cmpfp then BLI_ghashutil_ptrcmp a b
  else if fp =? str_cmpfp then default true (BLI_ghashutil_strcmp mem a b)
  else if fp =? int_cmpfp then BLI_ghashutil_intcmp a b
  else if fp =? pair_cmpfp then BLI_ghashutil_paircmp pair_at a b
  else true.

Definition BLI_ghash_ptr_new_ex (nentries_reserve : Z) : GHash :=
  BLI_ghash_new_ex ptr_hashfp ptr_cmpfp nentries_reserve.
Definition BLI_ghash_str_new_ex (nentries_reserve : Z) : GHash :=
  BLI_ghash_new_ex str_hashfp str_cmpfp nentries_reserve.
Definition BLI_ghash_str_new : GHash := BLI_ghash_str_new_ex 0.
Definition BLI_ghash_int_new_ex (nentries_reserve : Z) : GHash :=
  BLI_ghash_new_ex int_hashfp int_cmpfp nentries_reserve.
Definition BLI_ghash_int_new : GHash := BLI_ghash_int_new_ex 0.
Definition BLI_ghash_pair_new_ex (nentries_reserve : Z) : GHash :=
  BLI_ghash_new_ex pair_hashfp pair_cmpfp nentries_reserve.
Definition BLI_ghash_pair_new : GHash := BLI_ghash_pair_new_ex 0.
Definition BLI_gset_ptr_new_ex (nentries_reserve : Z) : GHash :=
  BLI_gset_new_ex ptr_hashfp ptr_cmpfp nentries_reserve.
Definition BLI_gset_pair_new_ex (nentries_reserve : Z) : GHash :=
  BLI_gset_new_ex pair_hashfp pair_cmpfp nentries_reserve.
Definition BLI_gset_pair_new : GHash := BLI_gset_pair_new_ex 0.

(** Successive [BLI_ghash_insert] (resp. [BLI_gset_insert]) calls. *)
Definition ghash_of_list (kvs : list (Z * Z)) : GHash :=
  foldl (fun gh kv => (BLI_ghash_insert std_call_hashfp std_call_cmpfp gh kv.1 kv.2).1)
        BLI_ghash_ptr_new kvs.
Definition gset_of_list (ks : list Z) : GHash :=
  foldl (fun gs k => (BLI_gset_insert std_call_hashfp std_call_cmpfp gs k).1)
        BLI_gset_ptr_new ks.

(** The keys, and the key/value pairs, a table holds. *)
Definition keys_of (gh : GHash) : list Z := key <$> entries gh.
Definition items_of (gh : GHash) : list (Z * option Z) :=
  (fun e => (key e, val e)) <$> entries gh.

(* ===================================================================== *)
(** * Properties *)

(** ** What resizing leaves alone *)

Arguments ghash_expand_buckets : simpl never.
Arguments ghash_buckets_reset : simpl never.
Arguments ghash_foreach : simpl never.

(** The fields of a table that the bucket policy never writes. *)
Definition same_identity (gh gh' : GHash) : Prop :=
  hashfp gh' = hashfp gh /\ cmpfp gh' = cmpfp gh /\ nentries gh' = nentries gh /\
  flag gh' = flag gh /\ entry_size gh' = entry_size gh.

Lemma same_identity_refl gh : same_identity gh gh.
Proof. by repeat split. Qed.

Lemma same_identity_trans gh1 gh2 gh3 :
  same_identity gh1 gh2 -> same_identity gh2 gh3 -> same_identity gh1 gh3.
Proof. unfold same_identity. intuition congruence. Qed.

Lemma expand_grow_identity fuel n gh nb :
  same_identity gh (expand_grow fuel n gh nb).1 /\
  buckets (expand_grow fuel n gh nb).1 = buckets gh /\
  nbuckets (expand_grow fuel n gh nb).1 = nbuckets gh /\
  size_min (expand_grow fuel n gh nb).1 = size_min gh /\
  limit_shrink (expand_grow fuel n gh nb).1 = limit_shrink gh.
Proof.
  revert gh nb. induction fuel as [|fuel IH]; intros gh nb; simpl.
  - by repeat split.
  - destruct (_ && _); [|by repeat split].
    destruct (IH (set_limit_grow (set_cursize gh (uint (cursize gh + 1)))
                    (GHASH_LIMIT_GROW (hashsizes_at (uint (cursize gh + 1)))))
                 (hashsizes_at (uint (cursize gh + 1)))) as (Hid & Hb & Hn & Hs & Hl).
    simpl in *. unfold same_identity in *. simpl in *. intuition congruence.
Qed.

Lemma expand_shrink_identity fuel n gh nb :
  same_identity gh (expand_shrink fuel n gh nb).1 /\
  buckets (expand_shrink fuel n gh nb).1 = buckets gh /\
  nbuckets (expand_shrink fuel n gh nb).1 = nbuckets gh /\
  size_min (expand_shrink fuel n gh nb).1 = size_min gh /\
  limit_grow (expand_shrink fuel n gh nb).1 = limit_grow gh.
Proof.
  revert gh nb. induction fuel as [|fuel IH]; intros gh nb; simpl.
  - by repeat split.
  - destruct (_ && _); [|by repeat split].
    destruct (IH (set_limit_shrink (set_cursize gh (uint (cursize gh - 1)))
                    (GHASH_LIMIT_SHRINK (hashsizes_at (uint (cursize gh - 1)))))
                 (hashsizes_at (uint (cursize gh - 1)))) as (Hid & Hb & Hn & Hs & Hl).
    simpl in *. unfold same_identity in *. simpl in *. intuition congruence.
Qed.

Lemma ghash_resize_buckets_identity gh nb :
  same_identity gh (ghash_resize_buckets gh nb).
Proof. by repeat split. Qed.

Lemma ghash_expand_buckets_identity gh n ud fs :
  same_identity gh (ghash_expand_buckets gh n ud fs).
Proof.
  unfold ghash_expand_buckets.
  destruct (_ && _ && _); [apply same_identity_refl|].
  pose proof (expand_grow_identity expand_fuel n gh (nbuckets gh)) as Hg.
  destruct (expand_grow expand_fuel n gh (nbuckets gh)) as [g1 nb1]. simpl in Hg.
  destruct Hg as (Hg & _).
  assert (exists g2 nb2,
    (if fs || flag_test g1 GHASH_FLAG_ALLOW_SHRINK
     then expand_shrink expand_fuel n g1 nb1 else (g1, nb1)) = (g2, nb2) /\
    same_identity g1 g2) as (g2 & nb2 & -> & Hs).
  { destruct (_ || _).
    - pose proof (expand_shrink_identity expand_fuel n g1 nb1) as Hs.
      destruct (expand_shrink expand_fuel n g1 nb1) as [g2 nb2].
      exists g2, nb2. split; [done|]. apply Hs.
    - exists g1, nb1. split; [done|]. apply same_identity_refl. }
  assert (same_identity gh (if ud then set_size_min g2 (cursize g2) else g2)) as Hu.
  { eapply same_identity_trans; [exact Hg|]. eapply same_identity_trans; [exact Hs|].
    destruct ud; by repeat split. }
  destruct (_ && _); [exact Hu|].
  eapply same_identity_trans; [exact Hu|]. by repeat split.
Qed.

Lemma ghash_expand_buckets_flag gh n ud fs :
  flag (ghash_expand_buckets gh n ud fs) = flag gh.
Proof. apply ghash_expand_buckets_identity. Qed.

Lemma ghash_expand_buckets_nentries gh n ud fs :
  nentries (ghash_expand_buckets gh n ud fs) = nentries gh.
Proof. apply ghash_expand_buckets_identity. Qed.

(* ===================================================================== *)
(** ** The bucket schedule *)

(** Boolean tests of the code as propositions. *)
Ltac bool_prop H :=
  repeat first
    [ rewrite andb_true_iff in H | rewrite orb_true_iff in H
    | rewrite negb_true_iff in H
    | rewrite Z.leb_le in H | rewrite Z.ltb_lt in H
    | rewrite Z.gtb_ltb in H | rewrite Z.geb_leb in H | rewrite Z.eqb_eq in H
    | rewrite Z.ltb_ge in H | rewrite Z.leb_gt in H | rewrite Z.eqb_neq in H
    | rewrite andb_false_iff in H | rewrite orb_false_iff in H
    | rewrite negb_false_iff in H ].

(** A property checked on every step of the schedule holds at each step. *)
Lemma schedule_check (P : Z -> bool) (lo hi : Z) :
  forallb P (seqZ lo (hi - lo)) = true ->
  forall c, lo <= c < hi -> P c = true.
Proof.
  intros Hall c Hc. rewrite forallb_forall in Hall. apply Hall.
  apply list_elem_of_In, elem_of_seqZ. lia.
Qed.

Lemma uint_small z : 0 <= z < 2 ^ 32 -> uint z = z.
Proof. intros. unfold uint. by apply Z.mod_small. Qed.

Lemma uint_range z : 0 <= uint z < 2 ^ 32.
Proof. unfold uint. apply Z.mod_pos_bound. lia. Qed.

Lemma to_int_eq u :
  0 <= u < 2 ^ 32 -> to_int u = if u <? 2 ^ 31 then u else u - 2 ^ 32.
Proof. intros Hu. unfold to_int. by rewrite uint_small. Qed.

Lemma to_int_small u : 0 <= u < 2 ^ 31 -> to_int u = u.
Proof.
  intros Hu. rewrite to_int_eq by lia.
  destruct (u <? 2 ^ 31) eqn:E; [done|]. apply Z.ltb_ge in E. lia.
Qed.

(** Stepping down one step from a count below the upper step's shrink limit
    leaves the count within the lower step's grow limit, and stepping up from
    a count above the lower step's grow limit leaves it at or above the upper
    step's shrink limit. *)
Lemma schedule_hysteresis c :
  0 <= c < GHASH_MAX_SIZE - 1 ->
  GHASH_LIMIT_SHRINK (hashsizes_at (c + 1)) <= GHASH_LIMIT_GROW (hashsizes_at c) + 1.
Proof.
  intros Hc.
  pose proof (schedule_check
    (fun c => GHASH_LIMIT_SHRINK (hashsizes_at (c + 1))
              <=? GHASH_LIMIT_GROW (hashsizes_at c) + 1) 0 (GHASH_MAX_SIZE - 1)) as H.
  apply Z.leb_le, H; [by vm_compute | done].
Qed.

Lemma schedule_shrink_le_grow c :
  0 <= c < GHASH_MAX_SIZE ->
  0 <= GHASH_LIMIT_SHRINK (hashsizes_at c) <= GHASH_LIMIT_GROW (hashsizes_at c).
Proof.
  intros Hc.
  pose proof (schedule_check
    (fun c => (0 <=? GHASH_LIMIT_SHRINK (hashsizes_at c)) &&
              (GHASH_LIMIT_SHRINK (hashsizes_at c) <=? GHASH_LIMIT_GROW (hashsizes_at c)))
    0 GHASH_MAX_SIZE) as H.
  specialize (H ltac:(by vm_compute) c Hc). bool_prop H. lia.
Qed.

Lemma schedule_grow_mono c :
  0 <= c < GHASH_MAX_SIZE - 1 ->
  hashsizes_at c < hashsizes_at (c + 1) /\
  GHASH_LIMIT_GROW (hashsizes_at c) <= GHASH_LIMIT_GROW (hashsizes_at (c + 1)) /\
  GHASH_LIMIT_SHRINK (hashsizes_at c) <= GHASH_LIMIT_SHRINK (hashsizes_at (c + 1)).
Proof.
  intros Hc.
  pose proof (schedule_check
    (fun c => (hashsizes_at c <? hashsizes_at (c + 1)) &&
              (GHASH_LIMIT_GROW (hashsizes_at c) <=? GHASH_LIMIT_GROW (hashsizes_at (c + 1))) &&
              (GHASH_LIMIT_SHRINK (hashsizes_at c) <=? GHASH_LIMIT_SHRINK (hashsizes_at (c + 1))))
    0 (GHASH_MAX_SIZE - 1)) as H.
  specialize (H ltac:(by vm_compute) c Hc). bool_prop H. lia.
Qed.

Lemma hashsizes_at_pos c : 0 <= c < GHASH_MAX_SIZE -> 0 < hashsizes_at c.
Proof.
  intros Hc.
  pose proof (schedule_check (fun c => 0 <? hashsizes_at c) 0 GHASH_MAX_SIZE) as H.
  specialize (H ltac:(by vm_compute) c Hc). bool_prop H. lia.
Qed.

Lemma hashsizes_at_lt c d :
  0 <= c -> c < d -> d < GHASH_MAX_SIZE -> hashsizes_at c < hashsizes_at d.
Proof.
  intros Hc Hcd Hd.
  assert (forall k : nat, c + 1 + Z.of_nat k < GHASH_MAX_SIZE ->
            hashsizes_at c < hashsizes_at (c + 1 + Z.of_nat k)) as Hk.
  { induction k as [|k IH]; intros Hlt.
    - replace (c + 1 + Z.of_nat 0) with (c + 1) by lia.
      apply schedule_grow_mono. lia.
    - etrans; [apply IH; lia|].
      replace (c + 1 + Z.of_nat (S k)) with (c + 1 + Z.of_nat k + 1) by lia.
      apply schedule_grow_mono. lia. }
  specialize (Hk (Z.to_nat (d - c - 1))).
  replace (c + 1 + Z.of_nat (Z.to_nat (d - c - 1))) with d in Hk by lia. by apply Hk.
Qed.

Lemma hashsizes_at_inj c d :
  0 <= c < GHASH_MAX_SIZE -> 0 <= d < GHASH_MAX_SIZE ->
  hashsizes_at c = hashsizes_at d -> c = d.
Proof.
  intros Hc Hd Heq.
  destruct (Z.lt_trichotomy c d) as [Hlt|[->|Hlt]]; [|done|].
  - pose proof (hashsizes_at_lt c d). lia.
  - pose proof (hashsizes_at_lt d c). lia.
Qed.

Lemma schedule_limit_grow_le c d :
  0 <= c -> c <= d -> d < GHASH_MAX_SIZE ->
  GHASH_LIMIT_GROW (hashsizes_at c) <= GHASH_LIMIT_GROW (hashsizes_at d).
Proof.
  intros Hc Hcd Hd.
  assert (forall k : nat, c + Z.of_nat k < GHASH_MAX_SIZE ->
            GHASH_LIMIT_GROW (hashsizes_at c)
            <= GHASH_LIMIT_GROW (hashsizes_at (c + Z.of_nat k))) as Hk.
  { induction k as [|k IH]; intros Hlt.
    - replace (c + Z.of_nat 0) with c by lia. lia.
    - etrans; [apply IH; lia|].
      replace (c + Z.of_nat (S k)) with (c + Z.of_nat k + 1) by lia.
      apply schedule_grow_mono. lia. }
  specialize (Hk (Z.to_nat (d - c))).
  replace (c + Z.of_nat (Z.to_nat (d - c))) with d in Hk by lia. by apply Hk.
Qed.

(* ===================================================================== *)
(** ** The growth and shrink policy *)

(** The resize state is consistent: the cursor is on the schedule, at or
    above the floor, and the bucket count and the two limits are the ones of
    the cursor's step. *)
Record policy_ok (gh : GHash) : Prop := {
  pol_cursor : 0 <= size_min gh <= cursize gh /\ cursize gh < GHASH_MAX_SIZE;
  pol_nbuckets : nbuckets gh = hashsizes_at (cursize gh);
  pol_limit_grow : limit_grow gh = GHASH_LIMIT_GROW (nbuckets gh);
  pol_limit_shrink : limit_shrink gh = GHASH_LIMIT_SHRINK (nbuckets gh)
}.

(** The load band for an entry count [n]: [n] is within the grow limit unless
    the table is at the top step, and at or above the shrink limit unless
    shrinking is neither forced nor allowed, or the table is at its floor. *)
Definition load_band (gh : GHash) (n : Z) (forced : bool) : Prop :=
  (n <= limit_grow gh \/ cursize gh = GHASH_MAX_SIZE - 1) /\
  (limit_shrink gh <= n \/
   forced || flag_test gh GHASH_FLAG_ALLOW_SHRINK = false \/
   cursize gh = size_min gh).

Lemma expand_grow_spec fuel n gh nb :
  0 <= cursize gh < GHASH_MAX_SIZE ->
  GHASH_MAX_SIZE - 1 - cursize gh <= Z.of_nat fuel ->
  nb = hashsizes_at (cursize gh) ->
  limit_grow gh = GHASH_LIMIT_GROW nb ->
  let r := expand_grow fuel n gh nb in
  cursize gh <= cursize r.1 < GHASH_MAX_SIZE /\
  r.2 = hashsizes_at (cursize r.1) /\
  limit_grow r.1 = GHASH_LIMIT_GROW r.2 /\
  (n <= limit_grow r.1 \/ cursize r.1 = GHASH_MAX_SIZE - 1) /\
  (cursize gh < cursize r.1 ->
   GHASH_LIMIT_GROW (hashsizes_at (cursize r.1 - 1)) < n /\ limit_grow gh < n) /\
  (cursize gh = cursize r.1 -> r = (gh, nb)).
Proof.
  revert gh nb. induction fuel as [|fuel IH]; intros gh nb Hc Hfuel Hnb Hlg; simpl.
  - unfold GHASH_MAX_SIZE in *. repeat split; try done; try lia.
  - destruct ((n >? limit_grow gh) && (cursize gh <? GHASH_MAX_SIZE - 1)) eqn:Hcond.
    + bool_prop Hcond. unfold GHASH_MAX_SIZE in *.
      assert (uint (cursize gh + 1) = cursize gh + 1) as Hu by (apply uint_small; lia).
      specialize (IH (set_limit_grow (set_cursize gh (uint (cursize gh + 1)))
                        (GHASH_LIMIT_GROW (hashsizes_at (uint (cursize gh + 1)))))
                     (hashsizes_at (uint (cursize gh + 1)))).
      simpl in IH. rewrite Hu in *.
      destruct IH as (H1 & H2 & H3 & H4 & H5 & H6); try done; try lia.
      split; [lia|]. do 3 (split; [done|]). split; [|intros; lia].
      intros _. destruct (decide (cursize gh + 1 =
        cursize (expand_grow fuel n
                   (set_limit_grow (set_cursize gh (cursize gh + 1))
                      (GHASH_LIMIT_GROW (hashsizes_at (cursize gh + 1))))
                   (hashsizes_at (cursize gh + 1))).1)) as [Heq|Hne].
      * rewrite <- Heq. replace (cursize gh + 1 - 1) with (cursize gh) by lia.
        rewrite <- Hnb, <- Hlg. lia.
      * split; [apply H5|]; lia.
    + simpl. bool_prop Hcond. unfold GHASH_MAX_SIZE in *.
      repeat split; try done; try lia.
Qed.

Lemma expand_shrink_spec fuel n gh nb :
  0 <= size_min gh <= cursize gh -> cursize gh < GHASH_MAX_SIZE ->
  cursize gh - size_min gh <= Z.of_nat fuel ->
  nb = hashsizes_at (cursize gh) ->
  limit_shrink gh = GHASH_LIMIT_SHRINK nb ->
  let r := expand_shrink fuel n gh nb in
  size_min gh <= cursize r.1 <= cursize gh /\
  r.2 = hashsizes_at (cursize r.1) /\
  limit_shrink r.1 = GHASH_LIMIT_SHRINK r.2 /\
  (limit_shrink r.1 <= n \/ cursize r.1 = size_min gh) /\
  (cursize r.1 < cursize gh ->
   n < GHASH_LIMIT_SHRINK (hashsizes_at (cursize r.1 + 1)) /\ n < limit_shrink gh) /\
  (cursize gh = cursize r.1 -> r = (gh, nb)).
Proof.
  revert gh nb. induction fuel as [|fuel IH]; intros gh nb Hc Hc' Hfuel Hnb Hls; simpl.
  - repeat split; try done; try lia.
  - destruct ((n <? limit_shrink gh) && (cursize gh >? size_min gh)) eqn:Hcond.
    + bool_prop Hcond. unfold GHASH_MAX_SIZE in *.
      assert (uint (cursize gh - 1) = cursize gh - 1) as Hu by (apply uint_small; lia).
      specialize (IH (set_limit_shrink (set_cursize gh (uint (cursize gh - 1)))
                        (GHASH_LIMIT_SHRINK (hashsizes_at (uint (cursize gh - 1)))))
                     (hashsizes_at (uint (cursize gh - 1)))).
      simpl in IH. rewrite Hu in *.
      destruct IH as (H1 & H2 & H3 & H4 & H5 & H6); try done; try lia.
      split; [lia|]. do 3 (split; [done|]). split; [|intros; lia].
      intros _. destruct (decide (cursize gh - 1 =
        cursize (expand_shrink fuel n
                   (set_limit_shrink (set_cursize gh (cursize gh - 1))
                      (GHASH_LIMIT_SHRINK (hashsizes_at (cursize gh - 1))))
                   (hashsizes_at (cursize gh - 1))).1)) as [Heq|Hne].
      * rewrite <- Heq. replace (cursize gh - 1 + 1) with (cursize gh) by lia.
        rewrite <- Hnb, <- Hls. lia.
      * split; [apply H5|]; lia.
    + simpl. bool_prop Hcond. repeat split; try done; try lia.
Qed.

Lemma expand_fuel_eq : Z.of_nat expand_fuel = 27.
Proof. reflexivity. Qed.

Lemma expand_shrink_noop fuel n gh nb :
  (n <? limit_shrink gh) && (cursize gh >? size_min gh) = false ->
  expand_shrink fuel n gh nb = (gh, nb).
Proof. intros H. destruct fuel; simpl; [done|]. by rewrite H. Qed.

(** The tail of [ghash_expand_buckets], from the test of [new_nbuckets]
    against the current bucket count on. *)
Lemma expand_finish_spec gh nb :
  0 <= size_min gh <= cursize gh -> cursize gh < GHASH_MAX_SIZE ->
  nb = hashsizes_at (cursize gh) ->
  (nb = nbuckets gh ->
   limit_grow gh = GHASH_LIMIT_GROW nb /\ limit_shrink gh = GHASH_LIMIT_SHRINK nb) ->
  let gh' :=
    if (nb =? nbuckets gh) && bool_decide (is_Some (buckets gh)) then gh
    else ghash_resize_buckets
           (set_limit_shrink (set_limit_grow gh (GHASH_LIMIT_GROW nb))
                             (GHASH_LIMIT_SHRINK nb)) nb in
  policy_ok gh' /\ is_Some (buckets gh') /\
  cursize gh' = cursize gh /\ size_min gh' = size_min gh /\ flag gh' = flag gh /\
  limit_grow gh' = GHASH_LIMIT_GROW nb /\ limit_shrink gh' = GHASH_LIMIT_SHRINK nb.
Proof.
  intros Hc Hc' Hnb Hlim.
  destruct ((nb =? nbuckets gh) && bool_decide (is_Some (buckets gh))) eqn:Hcond; simpl.
  - bool_prop Hcond. destruct Hcond as [Heq Hb]. apply bool_decide_eq_true in Hb.
    destruct (Hlim Heq) as [Hg Hs].
    repeat split; try done; try lia; try congruence.
  - repeat split; simpl; try done; try lia.
Qed.

(** [ghash_expand_buckets] keeps the resize state consistent, leaves a bucket
    array in place, and puts the count it is given inside the load band. *)
Lemma ghash_expand_buckets_policy gh n ud fs :
  policy_ok gh ->
  let gh' := ghash_expand_buckets gh n ud fs in
  policy_ok gh' /\ is_Some (buckets gh') /\ load_band gh' n fs /\
  flag gh' = flag gh /\
  (size_min gh' = size_min gh \/ ud = true /\ size_min gh' = cursize gh').
Proof.
  intros [Hc Hnb Hlg Hls]. unfold ghash_expand_buckets.
  destruct (bool_decide (is_Some (buckets gh)) && (n <? limit_grow gh)
            && (n >? limit_shrink gh)) eqn:Hearly.
  { bool_prop Hearly. destruct Hearly as [[Hb H1] H2]. apply bool_decide_eq_true in Hb.
    simpl. split; [by constructor|]. split; [done|]. split; [split; lia|]. by split; [|left]. }
  clear Hearly.
  (* the growing loop *)
  pose proof (expand_grow_spec expand_fuel n gh (nbuckets gh)) as Hgrow.
  pose proof (expand_grow_identity expand_fuel n gh (nbuckets gh)) as Hgid.
  destruct (expand_grow expand_fuel n gh (nbuckets gh)) as [g1 nb1].
  simpl in Hgrow, Hgid. unfold GHASH_MAX_SIZE in Hgrow, Hc.
  destruct Hgrow as (G1 & G2 & G3 & G4 & G5 & G6);
    [lia | rewrite expand_fuel_eq; lia | done | done |].
  destruct Hgid as ((_ & _ & _ & Gflag & _) & Gb & Gnb & Gsm & Gls).
  (* the shrinking loop *)
  assert (exists g2 nb2,
    (if fs || flag_test g1 GHASH_FLAG_ALLOW_SHRINK
     then expand_shrink expand_fuel n g1 nb1 else (g1, nb1)) = (g2, nb2) /\
    size_min g2 = size_min gh /\ flag g2 = flag gh /\ buckets g2 = buckets gh /\
    nbuckets g2 = nbuckets gh /\
    size_min gh <= cursize g2 < 27 /\ nb2 = hashsizes_at (cursize g2) /\
    (nb2 = nbuckets gh -> limit_grow g2 = GHASH_LIMIT_GROW nb2 /\
                          limit_shrink g2 = GHASH_LIMIT_SHRINK nb2) /\
    (n <= GHASH_LIMIT_GROW nb2 \/ cursize g2 = 26) /\
    (GHASH_LIMIT_SHRINK nb2 <= n \/
     fs || flag_test gh GHASH_FLAG_ALLOW_SHRINK = false \/ cursize g2 = size_min gh))
    as (g2 & nb2 & -> & S1 & S2 & S3 & S4 & S5 & S6 & S7 & S8 & S9).
  { assert (flag_test g1 GHASH_FLAG_ALLOW_SHRINK = flag_test gh GHASH_FLAG_ALLOW_SHRINK)
      as -> by (unfold flag_test; by rewrite Gflag).
    destruct (decide (cursize gh = cursize g1)) as [Hsame|Hgrown].
    - (* no growth *)
      specialize (G6 Hsame). injection G6 as -> ->.
      destruct (fs || flag_test gh GHASH_FLAG_ALLOW_SHRINK) eqn:Hallow.
      + pose proof (expand_shrink_spec expand_fuel n gh (nbuckets gh)) as Hsh.
        pose proof (expand_shrink_identity expand_fuel n gh (nbuckets gh)) as Hsid.
        destruct (expand_shrink expand_fuel n gh (nbuckets gh)) as [g2 nb2].
        simpl in Hsh, Hsid. unfold GHASH_MAX_SIZE in Hsh.
        destruct Hsh as (T1 & T2 & T3 & T4 & T5 & T6);
          [lia | lia | rewrite expand_fuel_eq; lia | done | done |].
        destruct Hsid as ((_ & _ & _ & Tflag & _) & Tb & Tnb & Tsm & Tlg).
        exists g2, nb2. split; [done|]. split_and!; try done; try lia.
        * subst nb2. intros Heq. rewrite Hnb in Heq.
          assert (cursize gh = cursize g2) as Heq'
            by (apply hashsizes_at_inj; unfold GHASH_MAX_SIZE; lia).
          specialize (T6 Heq'). injection T6 as Hg2 _. subst g2.
          split; congruence.
        * destruct (decide (cursize g2 = cursize gh)) as [Heq|Hne].
          -- symmetry in Heq. specialize (T6 Heq). injection T6 as -> ->. lia.
          -- left. destruct T5 as [T5 _]; [lia|].
             pose proof (schedule_hysteresis (cursize g2)). unfold GHASH_MAX_SIZE in *.
             subst nb2. lia.
      + exists gh, (nbuckets gh). split; [done|]. split_and!; try done; try lia.
    - (* the cursor moved up: the shrinking loop does not run *)
      destruct G5 as [G5 G5']; [lia|].
      pose proof (schedule_shrink_le_grow (cursize gh)) as Hsg.
      unfold GHASH_MAX_SIZE in Hsg. rewrite <- Hnb, <- Hlg, <- Hls in Hsg.
      assert ((if fs || flag_test gh GHASH_FLAG_ALLOW_SHRINK
               then expand_shrink expand_fuel n g1 nb1 else (g1, nb1)) = (g1, nb1)) as ->.
      { destruct (_ || _); [|done]. apply expand_shrink_noop.
        apply andb_false_iff. left. apply Z.ltb_ge. lia. }
      exists g1, nb1. split; [done|]. split_and!; try done; try lia.
      + intros Heq. subst nb1. rewrite Hnb in Heq.
        assert (cursize gh = cursize g1) as Heq'
          by (apply hashsizes_at_inj; unfold GHASH_MAX_SIZE; lia).
        lia.
      + left. pose proof (schedule_hysteresis (cursize g1 - 1)) as Hh.
        unfold GHASH_MAX_SIZE in Hh. replace (cursize g1 - 1 + 1) with (cursize g1) in Hh by lia.
        subst nb1. lia. }
  (* the floor, and the tail *)
  set (g3 := if ud then set_size_min g2 (cursize g2) else g2).
  assert (cursize g3 = cursize g2 /\ flag g3 = flag g2 /\ buckets g3 = buckets g2 /\
          nbuckets g3 = nbuckets g2 /\ limit_grow g3 = limit_grow g2 /\
          limit_shrink g3 = limit_shrink g2 /\
          (size_min g3 = size_min g2 \/ ud = true /\ size_min g3 = cursize g3))
    as (U1 & U2 & U3 & U4 & U5 & U6 & U7).
  { subst g3. destruct ud; simpl; repeat split; try done; [right|left]; done. }
  pose proof (expand_finish_spec g3 nb2) as Hfin. simpl in Hfin.
  unfold GHASH_MAX_SIZE in Hfin.
  destruct Hfin as (F1 & F2 & F3 & F4 & F5 & F6 & F7).
  { destruct U7 as [U7|[_ U7]]; lia. }
  { lia. }
  { by rewrite U1. }
  { rewrite U4, S4, U5, U6. done. }
  split; [done|]. split; [done|]. split.
  - unfold load_band, flag_test. rewrite F3, F4, F5, F6, F7, U1, U2, S2.
    unfold GHASH_MAX_SIZE. split; [lia|].
    destruct S9 as [S9|[S9|S9]]; [by left | right; by left |].
    destruct U7 as [U7|[_ U7]]; [right; right; lia|]. right; right. lia.
  - split; [congruence|]. rewrite F3, F4. destruct U7 as [U7|[? U7]]; [left|right]; [congruence|done].
Qed.

(** Where shrinking is neither allowed nor forced the cursor does not move
    down, stays when the count is within the grow limit, and when it moves
    up passes only steps whose grow limit is below the count. *)
Lemma expand_without_shrink_cursor gh n ud :
  policy_ok gh -> flag_test gh GHASH_FLAG_ALLOW_SHRINK = false ->
  let gh' := ghash_expand_buckets gh n ud false in
  cursize gh <= cursize gh' /\
  (n <= limit_grow gh -> cursize gh' = cursize gh) /\
  (forall i, cursize gh <= i < cursize gh' -> GHASH_LIMIT_GROW (hashsizes_at i) < n).
Proof.
  intros Hpol Hflag gh'. subst gh'. unfold ghash_expand_buckets.
  destruct (bool_decide (is_Some (buckets gh)) && (n <? limit_grow gh)
            && (n >? limit_shrink gh)); [split_and!; [lia|done|intros; lia]|].
  destruct Hpol as [[Hc0 Hc1] Hnb Hlg Hls].
  pose proof (expand_grow_spec expand_fuel n gh (nbuckets gh)) as G.
  destruct G as (G1 & G2 & G3 & G4 & G5 & G6).
  { lia. }
  { rewrite expand_fuel_eq. unfold GHASH_MAX_SIZE in *. lia. }
  { done. }
  { done. }
  destruct (expand_grow expand_fuel n gh (nbuckets gh)) as [g1 nb1] eqn:Hg1.
  cbn [fst snd] in *.
  pose proof (expand_grow_identity expand_fuel n gh (nbuckets gh)) as I.
  rewrite Hg1 in I. cbn [fst] in I. destruct I as ((_ & _ & _ & If & _) & _).
  assert (flag_test g1 GHASH_FLAG_ALLOW_SHRINK = false) as Hflag1.
  { unfold flag_test in *. by rewrite If. }
  rewrite Hflag1. cbn [orb].
  assert (forall g : GHash, cursize (if ud then set_size_min g (cursize g) else g)
                            = cursize g) as Hud by (intros; by destruct ud).
  assert (forall g nb,
            cursize (if (nb =? nbuckets g) && bool_decide (is_Some (buckets g)) then g
                     else ghash_resize_buckets
                            (set_limit_shrink (set_limit_grow g (GHASH_LIMIT_GROW nb))
                                              (GHASH_LIMIT_SHRINK nb)) nb)
            = cursize g) as Hfin.
  { intros g nb. by destruct ((nb =? nbuckets g) && bool_decide (is_Some (buckets g))). }
  rewrite Hfin, Hud. split_and!.
  - lia.
  - intros Hn. destruct (Z.eq_dec (cursize gh) (cursize g1)) as [He|Hne]; [done|].
    assert (cursize gh < cursize g1) as Hlt by lia.
    destruct (G5 Hlt) as [_ Hgt]. lia.
  - intros i Hi. assert (cursize gh < cursize g1) as Hlt by lia.
    destruct (G5 Hlt) as [Hgt _].
    pose proof (schedule_limit_grow_le i (cursize g1 - 1)). lia.
Qed.

(* ===================================================================== *)
(** ** Loops over the bucket array *)

Lemma foldl_index_lookup {S A : Type} (f : S -> A -> S) (d : A) (l pre : list A) (init : S) :
  foldl (fun st i => f st (default d ((pre ++ l) !! Z.to_nat i))) init
        (seqZ (Z.of_nat (length pre)) (Z.of_nat (length l)))
  = foldl f init l.
Proof.
  revert pre init. induction l as [|x l IH]; intros pre init; [done|].
  rewrite seqZ_cons by (simpl; lia). simpl.
  rewrite Nat2Z.id, list_lookup_middle by done. simpl.
  replace (Z.pred (Z.of_nat (Datatypes.S (length l)))) with (Z.of_nat (length l)) by lia.
  specialize (IH (pre ++ [x]) (f init x)).
  rewrite length_app, <- app_assoc in IH. simpl in IH.
  replace (Z.of_nat (length pre + 1)) with (Z.succ (Z.of_nat (length pre))) in IH by lia.
  exact IH.
Qed.

Lemma foldl_index {S A : Type} (f : S -> A -> S) (d : A) (l : list A) (init : S) (n : Z) :
  n = Z.of_nat (length l) ->
  foldl (fun st i => f st (default d (l !! Z.to_nat i))) init (seqZ 0 n) = foldl f init l.
Proof. intros ->. exact (foldl_index_lookup f d l [] init). Qed.

Lemma foldl_concat {S A : Type} (f : S -> A -> S) (ls : list (list A)) (init : S) :
  foldl (fun st l => foldl f st l) init ls = foldl f init (concat ls).
Proof.
  revert init. induction ls as [|l ls IH]; intros init; [done|].
  simpl. by rewrite foldl_app, IH.
Qed.

(** The bucket array is allocated with as many chains as [nbuckets] says. *)
Definition array_ok (gh : GHash) : Prop :=
  0 < nbuckets gh /\
  exists bs, buckets gh = Some bs /\ Z.of_nat (length bs) = nbuckets gh.

Lemma ghash_foreach_entries {S : Type} gh (body : S -> Entry -> S) init :
  array_ok gh -> ghash_foreach gh body init = foldl body init (entries gh).
Proof.
  intros (Hpos & bs & Hbs & Hlen). unfold ghash_foreach, entries, bucket, bucket_array.
  rewrite Hbs. simpl. rewrite <- foldl_concat.
  by apply (foldl_index (fun st chain => foldl body st chain) []).
Qed.

(* ===================================================================== *)
(** ** Structure of a table *)

(** Every entry sits in the bucket its cached full hash reduces to. *)
Definition placed_array (nb : Z) (bs : list (list Entry)) : Prop :=
  forall (i : nat) (chain : list Entry) (e : Entry),
    bs !! i = Some chain -> e ∈ chain -> hash e mod nb = Z.of_nat i.

Definition placed (gh : GHash) : Prop := placed_array (nbuckets gh) (bucket_array gh).

Lemma elem_of_entries gh e :
  e ∈ entries gh <-> exists (i : nat) chain, bucket_array gh !! i = Some chain /\ e ∈ chain.
Proof.
  unfold entries. rewrite list_elem_of_In, in_concat. split.
  - intros (chain & Hin & He). apply list_elem_of_In, list_elem_of_lookup in Hin as [i Hi].
    exists i, chain. split; [done|]. by apply list_elem_of_In.
  - intros (i & chain & Hi & He). exists chain. split.
    + apply list_elem_of_In, list_elem_of_lookup. by exists i.
    + by apply list_elem_of_In.
Qed.

Lemma bucket_lookup gh b :
  array_ok gh -> 0 <= b < nbuckets gh ->
  bucket_array gh !! Z.to_nat b = Some (bucket gh b).
Proof.
  intros (_ & bs & Hbs & Hlen) Hb. unfold bucket, bucket_array. rewrite Hbs. simpl.
  destruct (bs !! Z.to_nat b) eqn:Hl; [done|].
  apply lookup_ge_None in Hl. lia.
Qed.

Lemma elem_of_bucket_entries gh b e :
  array_ok gh -> 0 <= b < nbuckets gh -> e ∈ bucket gh b -> e ∈ entries gh.
Proof.
  intros Ha Hb He. apply elem_of_entries. exists (Z.to_nat b), (bucket gh b).
  split; [by apply bucket_lookup | done].
Qed.

Lemma placed_bucket gh e :
  array_ok gh -> placed gh -> e ∈ entries gh -> e ∈ bucket gh (hash e mod nbuckets gh).
Proof.
  intros Ha Hp (i & chain & Hi & He)%elem_of_entries.
  rewrite (Hp i chain e Hi He). unfold bucket. rewrite Nat2Z.id, Hi. done.
Qed.

(** Writing one bucket head: the entries before and after that bucket stay. *)
Lemma set_bucket_entries gh b :
  array_ok gh -> 0 <= b < nbuckets gh ->
  exists pre post,
    entries gh = pre ++ bucket gh b ++ post /\
    forall chain, entries (set_bucket gh b chain) = pre ++ chain ++ post.
Proof.
  intros Ha Hb. pose proof (bucket_lookup gh b Ha Hb) as Hl.
  destruct Ha as (_ & bs & Hbs & Hlen).
  unfold bucket_array in Hl. rewrite Hbs in Hl. simpl in Hl.
  exists (concat (take (Z.to_nat b) bs)), (concat (drop (S (Z.to_nat b)) bs)). split.
  - unfold entries, bucket_array. rewrite Hbs. simpl.
    rewrite <- (take_drop_middle bs (Z.to_nat b) (bucket gh b) Hl) at 1.
    by rewrite concat_app.
  - intros chain. unfold entries, bucket_array, set_bucket. simpl. rewrite Hbs. simpl.
    rewrite insert_take_drop by lia. by rewrite concat_app.
Qed.

Lemma set_bucket_array_ok gh b chain : array_ok gh -> array_ok (set_bucket gh b chain).
Proof.
  intros (Hpos & bs & Hbs & Hlen). split; [done|].
  exists (<[Z.to_nat b := chain]> bs). unfold set_bucket. simpl. rewrite Hbs. simpl.
  split; [done|]. by rewrite length_insert.
Qed.

Lemma set_bucket_policy_ok gh b chain : policy_ok gh -> policy_ok (set_bucket gh b chain).
Proof. intros [? ? ? ?]. by constructor. Qed.

Lemma set_bucket_placed gh b chain :
  array_ok gh -> placed gh -> 0 <= b < nbuckets gh ->
  (forall e, e ∈ chain -> hash e mod nbuckets gh = b) ->
  placed (set_bucket gh b chain).
Proof.
  intros (_ & bs & Hbs & Hlen) Hp Hb Hchain i c e Hi He.
  unfold placed, placed_array, bucket_array in Hp. rewrite Hbs in Hp. simpl in Hp.
  unfold bucket_array, set_bucket in Hi. simpl in Hi. rewrite Hbs in Hi. simpl in Hi.
  destruct (decide (i = Z.to_nat b)) as [->|Hne].
  - rewrite list_lookup_insert_eq in Hi by lia. injection Hi as <-.
    simpl. rewrite Hchain by done. lia.
  - rewrite list_lookup_insert_ne in Hi by done. simpl. by eapply Hp.
Qed.

Lemma set_bucket_bucket gh b chain :
  array_ok gh -> 0 <= b < nbuckets gh -> bucket (set_bucket gh b chain) b = chain.
Proof.
  intros (_ & bs & Hbs & Hlen) Hb. unfold bucket, bucket_array, set_bucket. simpl.
  rewrite Hbs. simpl. by rewrite list_lookup_insert_eq by lia.
Qed.

Lemma set_bucket_bucket_ne gh b b' chain :
  0 <= b -> 0 <= b' -> b <> b' -> bucket (set_bucket gh b chain) b' = bucket gh b'.
Proof.
  intros Hb Hb' Hne. unfold bucket, bucket_array, set_bucket. simpl.
  destruct (buckets gh) as [bs|]; simpl; [|done].
  rewrite list_lookup_insert_ne; [done|lia].
Qed.

(* ===================================================================== *)
(** ** Rehashing *)

Lemma concat_insert_cons (bs : list (list Entry)) (i : nat) (c : list Entry) (e : Entry) :
  bs !! i = Some c -> concat (<[i := e :: c]> bs) ≡ₚ e :: concat bs.
Proof.
  intros Hi. pose proof (lookup_lt_Some _ _ _ Hi) as Hlt.
  rewrite insert_take_drop by done.
  rewrite <- (take_drop_middle bs i c Hi) at 3.
  rewrite !concat_app. simpl. symmetry. apply Permutation_middle.
Qed.

Lemma rehash_chain_spec nb' bn chain :
  0 < nb' -> Z.of_nat (length bn) = nb' -> placed_array nb' bn ->
  length (rehash_chain nb' bn chain) = length bn /\
  placed_array nb' (rehash_chain nb' bn chain) /\
  concat (rehash_chain nb' bn chain) ≡ₚ chain ++ concat bn.
Proof.
  intros Hpos. revert bn. induction chain as [|e chain IH]; intros bn Hlen Hp; [done|].
  unfold rehash_chain in *. simpl.
  pose proof (Z.mod_pos_bound (hash e) nb' Hpos) as Hb.
  set (b := Z.to_nat (hash e mod nb')) in *.
  assert (exists c, bn !! b = Some c) as [c Hc].
  { apply lookup_lt_is_Some. lia. }
  rewrite Hc. simpl.
  destruct (IH (<[b := e :: c]> bn)) as (I1 & I2 & I3).
  - by rewrite length_insert.
  - intros i c' e' Hi He'. destruct (decide (i = b)) as [->|Hne].
    + rewrite list_lookup_insert_eq in Hi by lia. injection Hi as <-.
      apply elem_of_cons in He' as [->|He']; [lia|]. by eapply Hp.
    + rewrite list_lookup_insert_ne in Hi by done. by eapply Hp.
  - split; [by rewrite I1, length_insert|]. split; [done|].
    rewrite I3, concat_insert_cons by done. symmetry. apply Permutation_middle.
Qed.

Lemma rehash_all_spec nb' bn (old : list (list Entry)) :
  0 < nb' -> Z.of_nat (length bn) = nb' -> placed_array nb' bn ->
  let bn' := foldl (rehash_chain nb') bn old in
  length bn' = length bn /\ placed_array nb' bn' /\
  concat bn' ≡ₚ concat old ++ concat bn.
Proof.
  intros Hpos. revert bn. induction old as [|chain old IH]; intros bn Hlen Hp; [done|].
  simpl. destruct (rehash_chain_spec nb' bn chain Hpos Hlen Hp) as (R1 & R2 & R3).
  destruct (IH (rehash_chain nb' bn chain)) as (I1 & I2 & I3); [lia | done |].
  split; [lia|]. split; [done|].
  rewrite I3, R3. rewrite <- app_assoc. rewrite !app_assoc.
  apply Permutation_app_tail, Permutation_app_comm.
Qed.

Lemma concat_replicate_nil (n : nat) : concat (replicate n ([] : list Entry)) = [].
Proof. induction n as [|n IH]; [done|]. exact IH. Qed.

Lemma ghash_resize_buckets_spec gh nb' :
  0 < nb' ->
  buckets gh = None \/ Z.of_nat (length (bucket_array gh)) = nbuckets gh ->
  let gh' := ghash_resize_buckets gh nb' in
  array_ok gh' /\ placed gh' /\ nbuckets gh' = nb' /\ entries gh' ≡ₚ entries gh.
Proof.
  intros Hpos Hold. unfold ghash_resize_buckets.
  assert (placed_array nb' (replicate (Z.to_nat nb') [])) as Hp0.
  { intros i c e Hi He. apply lookup_replicate in Hi as [-> _]. by apply elem_of_nil in He. }
  pose proof (concat_replicate_nil (Z.to_nat nb')) as Hc0.
  destruct (buckets gh) as [old|] eqn:Hbs.
  - destruct Hold as [?|Hlen]; [done|].
    unfold bucket_array in Hlen. rewrite Hbs in Hlen. simpl in Hlen.
    assert ((if nb' >? nbuckets gh
             then foldl (fun bn i => rehash_chain nb' bn (default [] (old !! Z.to_nat i)))
                        (replicate (Z.to_nat nb') []) (seqZ 0 (nbuckets gh))
             else foldl (fun bn i => rehash_chain nb' bn (default [] (old !! Z.to_nat i)))
                        (replicate (Z.to_nat nb') []) (seqZ 0 (nbuckets gh)))
            = foldl (rehash_chain nb') (replicate (Z.to_nat nb') []) old) as ->.
    { rewrite (foldl_index (rehash_chain nb') [] old) by done. by destruct (_ >? _). }
    destruct (rehash_all_spec nb' (replicate (Z.to_nat nb') []) old) as (R1 & R2 & R3);
      [done | rewrite length_replicate; lia | done |].
    rewrite length_replicate in R1.
    split; [|split; [|split]].
    + split; [done|]. eexists. split; [done|]. simpl. rewrite R1. lia.
    + exact R2.
    + done.
    + unfold entries, bucket_array. simpl. rewrite Hbs. simpl.
      by rewrite R3, Hc0, app_nil_r.
  - split; [|split; [|split]].
    + split; [done|]. eexists. split; [done|]. simpl. rewrite length_replicate. lia.
    + exact Hp0.
    + done.
    + unfold entries, bucket_array. simpl. rewrite Hbs. simpl. by rewrite Hc0.
Qed.

Lemma expand_shrink_cursor fuel n gh nb :
  0 <= size_min gh <= cursize gh -> cursize gh < GHASH_MAX_SIZE ->
  nb = hashsizes_at (cursize gh) ->
  let r := expand_shrink fuel n gh nb in
  size_min gh <= cursize r.1 <= cursize gh /\ r.2 = hashsizes_at (cursize r.1).
Proof.
  revert gh nb. induction fuel as [|fuel IH]; intros gh nb Hc Hc' Hnb; simpl; [lia|].
  destruct ((n <? limit_shrink gh) && (cursize gh >? size_min gh)) eqn:Hcond; [|simpl; lia].
  bool_prop Hcond. unfold GHASH_MAX_SIZE in *.
  assert (uint (cursize gh - 1) = cursize gh - 1) as Hu by (apply uint_small; lia).
  specialize (IH (set_limit_shrink (set_cursize gh (uint (cursize gh - 1)))
                    (GHASH_LIMIT_SHRINK (hashsizes_at (uint (cursize gh - 1)))))
                 (hashsizes_at (uint (cursize gh - 1)))).
  simpl in IH. rewrite Hu in *. destruct IH as [I1 I2]; try done; lia.
Qed.

(** [ghash_expand_buckets] either keeps the bucket array or rehashes it into
    a new array with a positive number of buckets. *)
Lemma ghash_expand_buckets_shape gh n ud fs :
  policy_ok gh ->
  exists g nb,
    buckets g = buckets gh /\ nbuckets g = nbuckets gh /\ 0 < nb /\
    (ghash_expand_buckets gh n ud fs = g /\ is_Some (buckets gh) \/
     ghash_expand_buckets gh n ud fs = ghash_resize_buckets g nb).
Proof.
  intros [Hc Hnb Hlg Hls]. unfold ghash_expand_buckets.
  destruct (bool_decide (is_Some (buckets gh)) && (n <? limit_grow gh)
            && (n >? limit_shrink gh)) eqn:Hearly.
  { bool_prop Hearly. destruct Hearly as [[Hb _] _]. apply bool_decide_eq_true in Hb.
    exists gh, 1. split_and!; try done. by left. }
  clear Hearly.
  pose proof (expand_grow_spec expand_fuel n gh (nbuckets gh)) as Hgrow.
  pose proof (expand_grow_identity expand_fuel n gh (nbuckets gh)) as Hgid.
  destruct (expand_grow expand_fuel n gh (nbuckets gh)) as [g1 nb1].
  simpl in Hgrow, Hgid. unfold GHASH_MAX_SIZE in Hgrow, Hc.
  destruct Hgrow as (G1 & G2 & _);
    [lia | rewrite expand_fuel_eq; lia | done | done |].
  destruct Hgid as (_ & Gb & Gnb & Gsm & _).
  assert (exists g2 nb2,
    (if fs || flag_test g1 GHASH_FLAG_ALLOW_SHRINK
     then expand_shrink expand_fuel n g1 nb1 else (g1, nb1)) = (g2, nb2) /\
    buckets g2 = buckets gh /\ nbuckets g2 = nbuckets gh /\
    0 <= cursize g2 < 27 /\ nb2 = hashsizes_at (cursize g2))
    as (g2 & nb2 & -> & S1 & S2 & S3 & S4).
  { destruct (_ || _).
    - pose proof (expand_shrink_cursor expand_fuel n g1 nb1) as Hsh.
      pose proof (expand_shrink_identity expand_fuel n g1 nb1) as Hsid.
      destruct (expand_shrink expand_fuel n g1 nb1) as [g2 nb2].
      simpl in Hsh, Hsid. unfold GHASH_MAX_SIZE in Hsh.
      destruct Hsh as [T1 T2]; [lia | lia | done |].
      destruct Hsid as (_ & Tb & Tnb & _).
      exists g2, nb2. split_and!; try done; try lia; congruence.
    - exists g1, nb1. split_and!; try done; lia. }
  assert (0 < nb2) as Hpos by (subst nb2; apply hashsizes_at_pos; unfold GHASH_MAX_SIZE; lia).
  set (g3 := if ud then set_size_min g2 (cursize g2) else g2).
  assert (buckets g3 = buckets gh /\ nbuckets g3 = nbuckets gh) as [U1 U2]
    by (subst g3; by destruct ud).
  destruct ((nb2 =? nbuckets g3) && bool_decide (is_Some (buckets g3))) eqn:Hfin.
  - bool_prop Hfin. destruct Hfin as [_ Hb]. apply bool_decide_eq_true in Hb.
    exists g3, nb2. split_and!; try done. left. split; [done|]. by rewrite <- U1.
  - exists (set_limit_shrink (set_limit_grow g3 (GHASH_LIMIT_GROW nb2))
                             (GHASH_LIMIT_SHRINK nb2)), nb2.
    split_and!; try done. by right.
Qed.

(** The structure [ghash_expand_buckets] establishes, and the entries it
    keeps. *)
Lemma ghash_expand_buckets_contents gh n ud fs :
  policy_ok gh -> buckets gh = None \/ (array_ok gh /\ placed gh) ->
  let gh' := ghash_expand_buckets gh n ud fs in
  array_ok gh' /\ placed gh' /\ entries gh' ≡ₚ entries gh.
Proof.
  intros Hpol Hold. simpl.
  destruct (ghash_expand_buckets_shape gh n ud fs Hpol)
    as (g & nb & Hb & Hnb & Hpos & [[-> Hsome] | ->]).
  - destruct Hold as [Hnone|[Ha Hp]]; [rewrite Hnone in Hsome; by destruct Hsome|].
    unfold array_ok, placed, entries, bucket_array in *. rewrite Hb, Hnb. done.
  - destruct (ghash_resize_buckets_spec g nb Hpos) as (R1 & R2 & R3 & R4).
    + destruct Hold as [Hnone|[(_ & bs & Hbs & Hlen) _]]; [left; congruence|].
      right. unfold bucket_array. rewrite Hb, Hbs, Hnb. done.
    + split; [done|]. split; [done|]. rewrite R4.
      unfold entries, bucket_array. by rewrite Hb.
Qed.

(* ===================================================================== *)
(** ** Chain walks *)

Lemma chain_find_None (m : Entry -> bool) chain :
  chain_find m chain = None <-> forall e, e ∈ chain -> m e = false.
Proof.
  induction chain as [|x chain IH]; simpl.
  - split; [|done]. intros _ e He. by apply elem_of_nil in He.
  - destruct (m x) eqn:Hx.
    + split; [done|]. intros H. specialize (H x (list_elem_of_here _ _)). congruence.
    + destruct (chain_find m chain) as [i|] eqn:Hf; simpl.
      * split; [done|]. intros H. destruct IH as [_ IH].
        discriminate IH. intros e He. apply H. by apply list_elem_of_further.
      * split; [|done]. intros _ e [->|He]%elem_of_cons; [done|]. by apply IH.
Qed.

Lemma chain_find_Some (m : Entry -> bool) chain i :
  chain_find m chain = Some i ->
  exists e, chain !! i = Some e /\ m e = true /\
            forall j e', (j < i)%nat -> chain !! j = Some e' -> m e' = false.
Proof.
  revert i. induction chain as [|x chain IH]; intros i; simpl; [done|].
  destruct (m x) eqn:Hx.
  - intros [= <-]. exists x. split_and!; try done. intros j e' Hj. lia.
  - destruct (chain_find m chain) as [i'|] eqn:Hf; simpl; [|done].
    intros [= <-]. destruct (IH i' eq_refl) as (e & He & Hm & Hfirst).
    exists e. split_and!; try done. intros [|j] e' Hj Hl.
    + simpl in Hl. congruence.
    + simpl in Hl. apply (Hfirst j); [lia | done].
Qed.

Lemma chain_find_is_Some (m : Entry -> bool) chain e :
  e ∈ chain -> m e = true -> is_Some (chain_find m chain).
Proof.
  intros He Hm. destruct (chain_find m chain) eqn:Hf; [done|].
  rewrite chain_find_None in Hf. specialize (Hf e He). congruence.
Qed.

(** The first match is unchanged by a write to it that keeps it matching. *)
Lemma chain_find_insert (m : Entry -> bool) chain i e' :
  chain_find m chain = Some i -> m e' = true ->
  chain_find m (<[i := e']> chain) = Some i.
Proof.
  revert i. induction chain as [|x chain IH]; intros i; simpl; [done|].
  destruct (m x) eqn:Hx.
  - intros [= <-] Hm. simpl. by rewrite Hm.
  - destruct (chain_find m chain) as [i'|] eqn:Hf; simpl; [|done].
    intros [= <-] Hm. simpl. rewrite Hx. by rewrite (IH i' eq_refl Hm).
Qed.

(** Same test, same walk. *)
Lemma chain_find_ext (m m' : Entry -> bool) chain :
  (forall e, e ∈ chain -> m e = m' e) -> chain_find m chain = chain_find m' chain.
Proof.
  induction chain as [|x chain IH]; intros Hext; [done|]. simpl.
  rewrite <- (Hext x) by apply list_elem_of_here.
  rewrite IH; [done|]. intros e He. apply Hext. by apply list_elem_of_further.
Qed.

(** What a chain walk finds in terms of [List.find]. *)
Lemma chain_find_find (m : Entry -> bool) chain :
  (i ← chain_find m chain; chain !! i) = find m chain.
Proof.
  induction chain as [|x chain IH]; simpl; [done|].
  destruct (m x); [done|]. rewrite <- IH.
  by destruct (chain_find m chain).
Qed.

(* ===================================================================== *)
(** * Lookup, insertion and removal *)

Section Table.

Variable call_hashfp : Z -> Z -> Z.
Variable call_cmpfp : Z -> Z -> Z -> bool.

(** A table between two public operations: consistent resize state, an
    allocated bucket array, every entry in its bucket, and an entry count
    that is the number of entries and fits [unsigned int]. *)
Record ghash_ok (gh : GHash) : Prop := {
  ok_policy : policy_ok gh;
  ok_array : array_ok gh;
  ok_placed : placed gh;
  ok_count : nentries gh = Z.of_nat (length (entries gh));
  ok_count_max : nentries gh < 2 ^ 32
}.

(** Lookup as the specification words it: hash the key, reduce the hash to a
    bucket, walk that chain in order, and take the value of the first entry
    with the same full hash that the comparison reports as not different;
    nothing (NULL) when the walk finds none.  The value of an entry is what
    its value slot holds. *)
Definition lookup_as_specified (gh : GHash) (k : Z) : option Z :=
  let h := call_hashfp (hashfp gh) k in
  let b := h mod nbuckets gh in
  match find (fun e => (hash e =? h) && negb (call_cmpfp (cmpfp gh) k (key e)))
             (bucket gh b) with
  | Some e => val e
  | None => Some 0
  end.

Lemma lookup_entry_deref_find gh k :
  lookup_entry_deref call_hashfp call_cmpfp gh k =
  find (entry_matches (call_cmpfp (cmpfp gh)) k (ghash_keyhash call_hashfp gh k))
       (bucket gh (ghash_bucket_hash gh (ghash_keyhash call_hashfp gh k))).
Proof.
  unfold lookup_entry_deref, ghash_lookup_entry, ghash_lookup_entry_ex, chain_lookup,
    entry_at. apply chain_find_find.
Qed.

(** C6: [BLI_ghash_lookup] computes the full hash of the key, walks the chain
    of the bucket that hash reduces to, in order, and returns the value of
    the first entry with that full hash for which the comparison callback
    returns false; it returns NULL when there is no such entry.  Its
    assertion that the table is not a GSet fails exactly when the table
    carries [GHASH_FLAG_IS_SET], and on a chain whose entries all have a
    value slot the value returned is a stored value or NULL, never a read
    past an entry. *)
Theorem lookup_first_match gh k :
  let r := BLI_ghash_lookup call_hashfp call_cmpfp gh k in
  r.1 = lookup_as_specified gh k /\
  r.2 = (if Z.land (flag gh) GHASH_FLAG_IS_SET =? 0 then []
         else [AssertFailed "(gh->flag & GHASH_FLAG_IS_SET) == 0"]) /\
  (Forall (fun e => is_Some (val e))
          (bucket gh (ghash_bucket_hash gh (ghash_keyhash call_hashfp gh k))) ->
   is_Some r.1).
Proof.
  intros r.
  assert (r.1 = lookup_as_specified gh k) as Hval.
  { subst r. unfold BLI_ghash_lookup, lookup_as_specified. simpl.
    rewrite lookup_entry_deref_find. reflexivity. }
  split; [exact Hval|]. split.
  - subst r. unfold BLI_ghash_lookup, IS_GHASH_ASSERT, BLI_assert. simpl.
    by destruct (Z.land (flag gh) GHASH_FLAG_IS_SET =? 0).
  - intros Hslots. rewrite Hval. unfold lookup_as_specified.
    match goal with |- context [find ?f ?l] => destruct (find f l) as [e|] eqn:Hf end;
      [|by eexists].
    apply find_some in Hf as [Hin _]. apply list_elem_of_In in Hin.
    rewrite Forall_forall in Hslots. by apply Hslots.
Qed.

(** *** [BLI_ghash_add] *)

(** C4, as amended: [BLI_ghash_add] returns true exactly when the key has no
    entry in the table ([BLI_ghash_haskey] false, equivalently
    [BLI_ghash_lookup_p] NULL) just before the call. *)
Theorem add_true_iff_absent gh k v :
  ((BLI_ghash_add call_hashfp call_cmpfp gh k v).1.1 = true <->
   BLI_ghash_haskey call_hashfp call_cmpfp gh k = false) /\
  (BLI_ghash_haskey call_hashfp call_cmpfp gh k = false <->
   (BLI_ghash_lookup_p call_hashfp call_cmpfp gh k).1 = None).
Proof.
  unfold BLI_ghash_add, ghash_insert_safe, BLI_ghash_haskey, BLI_ghash_lookup_p,
    ghash_lookup_entry. simpl.
  destruct (ghash_lookup_entry_ex call_cmpfp gh k _ _) as [i|] eqn:Hl; simpl.
  - by repeat split.
  - by repeat split.
Qed.

(** *** Linking and unlinking one entry *)

Lemma bucket_hash_range gh h : array_ok gh -> 0 <= ghash_bucket_hash gh h < nbuckets gh.
Proof. intros [Hpos _]. unfold ghash_bucket_hash. by apply Z.mod_pos_bound. Qed.

(** An entry linked at the head of its bucket, the count incremented, the
    policy consulted: the table holds the new entry and the old ones. *)
Lemma link_entry_spec gh b e :
  ghash_ok gh -> hash e mod nbuckets gh = b -> nentries gh + 1 < 2 ^ 32 ->
  let gh' := ghash_expand_buckets
               (set_nentries (bucket_link gh b e) (uint (nentries gh + 1)))
               (uint (nentries gh + 1)) false false in
  ghash_ok gh' /\ entries gh' ≡ₚ e :: entries gh /\ nentries gh' = nentries gh + 1 /\
  same_identity (set_nentries gh (nentries gh + 1)) gh'.
Proof.
  intros [Hpol Harr Hpl Hcnt Hmax] Hb Hroom. simpl.
  assert (0 <= b < nbuckets gh) as Hrange.
  { subst b. apply Z.mod_pos_bound, Harr. }
  assert (uint (nentries gh + 1) = nentries gh + 1) as Hu by (apply uint_small; lia).
  rewrite Hu.
  set (gh1 := set_nentries (bucket_link gh b e) (nentries gh + 1)).
  destruct (set_bucket_entries gh b Harr Hrange) as (pre & post & Hent & Hset).
  assert (entries gh1 ≡ₚ e :: entries gh) as Hent1.
  { change (entries gh1) with (entries (set_bucket gh b (e :: bucket gh b))).
    rewrite Hset, Hent. simpl. symmetry. apply Permutation_middle. }
  assert (policy_ok gh1) as Hpol1 by (destruct Hpol; by constructor).
  assert (array_ok gh1) as Harr1
    by exact (set_bucket_array_ok gh b (e :: bucket gh b) Harr).
  assert (placed gh1) as Hpl1.
  { apply (set_bucket_placed gh b (e :: bucket gh b) Harr Hpl Hrange).
    intros e' [->|He']%elem_of_cons; [done|].
    pose proof (Hpl _ _ _ (bucket_lookup gh b Harr Hrange) He'). lia. }
  destruct (ghash_expand_buckets_contents gh1 (nentries gh + 1) false false Hpol1)
    as (C1 & C2 & C3); [by right|].
  destruct (ghash_expand_buckets_policy gh1 (nentries gh + 1) false false Hpol1)
    as (P1 & _).
  pose proof (ghash_expand_buckets_identity gh1 (nentries gh + 1) false false) as Hid.
  destruct Hid as (I1 & I2 & I3 & I4 & I5).
  split; [constructor|]; try done.
  - rewrite I3. simpl. rewrite (Permutation_length C3), (Permutation_length Hent1).
    simpl. lia.
  - rewrite I3. simpl. lia.
  - split; [by rewrite C3|]. split; [by rewrite I3|]. by repeat split.
Qed.

(** The entry at position [i] of bucket [b] unlinked, the count decremented,
    the policy consulted: the table holds the other entries. *)
Lemma unlink_entry_spec gh b i e :
  ghash_ok gh -> 0 <= b < nbuckets gh -> bucket gh b !! i = Some e ->
  let gh' := ghash_expand_buckets
               (set_nentries (set_bucket gh b (delete i (bucket gh b)))
                             (uint (nentries gh - 1)))
               (uint (nentries gh - 1)) false false in
  ghash_ok gh' /\ entries gh ≡ₚ e :: entries gh' /\ nentries gh' = nentries gh - 1 /\
  same_identity (set_nentries gh (nentries gh - 1)) gh'.
Proof.
  intros [Hpol Harr Hpl Hcnt Hmax] Hrange Hi. simpl.
  destruct (set_bucket_entries gh b Harr Hrange) as (pre & post & Hent & Hset).
  set (gh1 := set_nentries (set_bucket gh b (delete i (bucket gh b))) (nentries gh - 1)).
  assert (entries gh ≡ₚ e :: entries gh1) as Hent1.
  { change (entries gh1) with (entries (set_bucket gh b (delete i (bucket gh b)))).
    rewrite Hset, Hent. rewrite (delete_Permutation _ _ _ Hi) at 1.
    simpl. symmetry. apply Permutation_middle. }
  assert (0 < nentries gh) as Hnonempty.
  { rewrite Hcnt, (Permutation_length Hent1). simpl. lia. }
  assert (uint (nentries gh - 1) = nentries gh - 1) as Hu by (apply uint_small; lia).
  rewrite Hu. fold gh1.
  assert (policy_ok gh1) as Hpol1 by (destruct Hpol; by constructor).
  assert (array_ok gh1) as Harr1
    by exact (set_bucket_array_ok gh b (delete i (bucket gh b)) Harr).
  assert (placed gh1) as Hpl1.
  { apply (set_bucket_placed gh b (delete i (bucket gh b)) Harr Hpl Hrange).
    intros e' He'%list_elem_of_delete_inv.
    pose proof (Hpl _ _ _ (bucket_lookup gh b Harr Hrange) He'). lia. }
  destruct (ghash_expand_buckets_contents gh1 (nentries gh - 1) false false Hpol1)
    as (C1 & C2 & C3); [by right|].
  destruct (ghash_expand_buckets_policy gh1 (nentries gh - 1) false false Hpol1)
    as (P1 & _).
  pose proof (ghash_expand_buckets_identity gh1 (nentries gh - 1) false false) as Hid.
  destruct Hid as (I1 & I2 & I3 & I4 & I5).
  split; [constructor|]; try done.
  - rewrite I3. simpl. rewrite (Permutation_length C3).
    rewrite Hcnt, (Permutation_length Hent1). simpl. lia.
  - rewrite I3. simpl. lia.
  - split; [by rewrite C3|]. split; [by rewrite I3|]. by repeat split.
Qed.

(** *** Lookup over the whole table *)

(** On a placed table the walk of one chain misses only if no entry of the
    table matches. *)
Lemma lookup_ex_None gh k h :
  array_ok gh -> placed gh ->
  ghash_lookup_entry_ex call_cmpfp gh k h (ghash_bucket_hash gh h) = None <->
  forall e, e ∈ entries gh -> entry_matches (call_cmpfp (cmpfp gh)) k h e = false.
Proof.
  intros Harr Hpl. unfold ghash_lookup_entry_ex, chain_lookup. rewrite chain_find_None.
  split.
  - intros Hnone e He. destruct (entry_matches _ k h e) eqn:Hm; [|done].
    rewrite <- Hm. apply Hnone.
    unfold entry_matches in Hm. bool_prop Hm. destruct Hm as [Hh _].
    unfold ghash_bucket_hash. rewrite <- Hh. by apply placed_bucket.
  - intros Hnone e He. apply Hnone.
    eapply elem_of_bucket_entries; [done | by apply bucket_hash_range | done].
Qed.

Lemma lookup_ex_Some gh k h i :
  array_ok gh ->
  ghash_lookup_entry_ex call_cmpfp gh k h (ghash_bucket_hash gh h) = Some i ->
  exists e, entry_at gh (ghash_bucket_hash gh h) i = Some e /\ e ∈ entries gh /\
            entry_matches (call_cmpfp (cmpfp gh)) k h e = true.
Proof.
  intros Harr Hl. unfold ghash_lookup_entry_ex, chain_lookup in Hl.
  destruct (chain_find_Some _ _ _ Hl) as (e & He & Hm & _).
  exists e. split; [done|]. split; [|done].
  eapply elem_of_bucket_entries; [done | by apply bucket_hash_range |].
  by eapply list_elem_of_lookup_2.
Qed.

(** *** [BLI_ghash_remove] and [BLI_ghash_popkey] *)

Lemma haskey_true gh k :
  BLI_ghash_haskey call_hashfp call_cmpfp gh k = true ->
  exists i e,
    ghash_lookup_entry call_hashfp call_cmpfp gh k = Some i /\
    bucket gh (ghash_bucket_hash gh (ghash_keyhash call_hashfp gh k)) !! i = Some e /\
    entry_matches (call_cmpfp (cmpfp gh)) k (ghash_keyhash call_hashfp gh k) e = true.
Proof.
  unfold BLI_ghash_haskey. intros [i Hi]%bool_decide_eq_true.
  unfold ghash_lookup_entry, ghash_lookup_entry_ex, chain_lookup in *.
  destruct (chain_find_Some _ _ _ Hi) as (e & He & Hm & _). by exists i, e.
Qed.

Lemma haskey_false gh k :
  BLI_ghash_haskey call_hashfp call_cmpfp gh k = false ->
  ghash_lookup_entry call_hashfp call_cmpfp gh k = None.
Proof.
  unfold BLI_ghash_haskey. intros H%bool_decide_eq_false.
  destruct (ghash_lookup_entry _ _ gh k); [|done]. destruct H. by eexists.
Qed.

(** C8: on a well-formed table, [BLI_ghash_remove] of a present key returns
    true and leaves exactly one entry fewer ([nentries] decremented by one,
    the other entries kept); of an absent key it returns false and leaves the
    table as it was.  [BLI_ghash_popkey] does the same, returning the value
    stored for the key (the one [BLI_ghash_lookup] returns) when the key is
    present, and NULL when it is absent. *)
Theorem remove_pop_spec gh k keyfreefp valfreefp :
  ghash_ok gh ->
  (BLI_ghash_haskey call_hashfp call_cmpfp gh k = true ->
   (exists gh' log,
      BLI_ghash_remove call_hashfp call_cmpfp gh k keyfreefp valfreefp = (true, gh', log) /\
      nentries gh' = nentries gh - 1 /\ ghash_ok gh' /\
      length (entries gh') = (length (entries gh) - 1)%nat) /\
   (exists gh' log,
      BLI_ghash_popkey call_hashfp call_cmpfp gh k keyfreefp =
        ((BLI_ghash_lookup call_hashfp call_cmpfp gh k).1, gh', log) /\
      nentries gh' = nentries gh - 1 /\ ghash_ok gh' /\
      length (entries gh') = (length (entries gh) - 1)%nat)) /\
  (BLI_ghash_haskey call_hashfp call_cmpfp gh k = false ->
   BLI_ghash_remove call_hashfp call_cmpfp gh k keyfreefp valfreefp = (false, gh, []) /\
   (BLI_ghash_popkey call_hashfp call_cmpfp gh k keyfreefp).1 = (Some 0, gh)).
Proof.
  intros Hok. split.
  - intros (i & e & Hl & He & Hm)%haskey_true.
    pose proof (bucket_hash_range gh (ghash_keyhash call_hashfp gh k) (ok_array _ Hok))
      as Hrange.
    destruct (unlink_entry_spec gh _ i e Hok Hrange He) as (U1 & U2 & U3 & _).
    assert (length (entries
              (ghash_expand_buckets
                 (set_nentries
                    (set_bucket gh (ghash_bucket_hash gh (ghash_keyhash call_hashfp gh k))
                       (delete i (bucket gh (ghash_bucket_hash gh
                                               (ghash_keyhash call_hashfp gh k)))))
                    (uint (nentries gh - 1)))
                 (uint (nentries gh - 1)) false false))
            = (length (entries gh) - 1)%nat) as U4.
    { rewrite (Permutation_length U2). simpl. lia. }
    unfold ghash_lookup_entry, ghash_lookup_entry_ex in Hl.
    split.
    + unfold BLI_ghash_remove, ghash_remove_ex, entry_at. rewrite Hl, He.
      eexists _, _. split; [reflexivity|]. split; [exact U3|]. split; [exact U1|exact U4].
    + unfold BLI_ghash_popkey, ghash_remove_ex, entry_at. rewrite Hl, He.
      unfold BLI_ghash_lookup, lookup_entry_deref, ghash_lookup_entry,
        ghash_lookup_entry_ex, entry_at.
      rewrite Hl. simpl. rewrite He. simpl.
      eexists _, _. split; [reflexivity|]. split; [exact U3|]. split; [exact U1|exact U4].
  - intros Hl%haskey_false. unfold ghash_lookup_entry, ghash_lookup_entry_ex in Hl.
    unfold BLI_ghash_remove, BLI_ghash_popkey, ghash_remove_ex. by rewrite Hl.
Qed.

(** *** [BLI_ghash_reinsert] *)

Lemma entry_store_ok gh b i e e' :
  ghash_ok gh -> 0 <= b < nbuckets gh -> bucket gh b !! i = Some e -> hash e' = hash e ->
  ghash_ok (entry_store gh b i e') /\
  length (entries (entry_store gh b i e')) = length (entries gh).
Proof.
  intros [Hpol Harr Hpl Hcnt Hmax] Hrange Hi Hh. unfold entry_store.
  destruct (set_bucket_entries gh b Harr Hrange) as (pre & post & Hent & Hset).
  assert (length (entries (set_bucket gh b (<[i:=e']> (bucket gh b))))
          = length (entries gh)) as Hlen.
  { rewrite Hset, Hent. rewrite !length_app, length_insert. done. }
  split; [constructor|]; try done.
  - by apply set_bucket_policy_ok.
  - by apply set_bucket_array_ok.
  - apply set_bucket_placed; try done. intros x Hx.
    apply list_elem_of_lookup in Hx as [j Hj].
    destruct (decide (j = i)) as [->|Hne].
    + rewrite list_lookup_insert_eq in Hj by (by eapply lookup_lt_Some).
      injection Hj as <-. rewrite Hh.
      pose proof (Hpl _ _ _ (bucket_lookup gh b Harr Hrange)
                    (list_elem_of_lookup_2 _ _ _ Hi)). lia.
    + rewrite list_lookup_insert_ne in Hj by done.
      pose proof (Hpl _ _ _ (bucket_lookup gh b Harr Hrange)
                    (list_elem_of_lookup_2 _ _ _ Hj)). lia.
  - simpl. rewrite Hlen. exact Hcnt.
Qed.

(** C7: on a well-formed table with room for one more entry, and a key the
    comparison callback reports equal to itself: [BLI_ghash_reinsert] of a
    present key calls the key free callback on the old key and then the
    value free callback on the old value (each one when it is given, and
    nothing else), overwrites that entry in place with the new key and
    value, returns false and leaves [nentries] as it was; of an absent key
    it links a new entry, returns true and calls no free callback.  In both
    cases [BLI_ghash_lookup] of the key then returns the new value. *)
Theorem reinsert_spec gh k v keyfreefp valfreefp :
  ghash_ok gh -> nentries gh + 1 < 2 ^ 32 -> call_cmpfp (cmpfp gh) k k = false ->
  let h := ghash_keyhash call_hashfp gh k in
  let b := ghash_bucket_hash gh h in
  let r := BLI_ghash_reinsert call_hashfp call_cmpfp gh k v keyfreefp valfreefp in
  (BLI_ghash_haskey call_hashfp call_cmpfp gh k = true ->
   exists i e,
     ghash_lookup_entry call_hashfp call_cmpfp gh k = Some i /\
     entry_at gh b i = Some e /\
     r = (false, entry_store gh b i (mkEntry (hash e) k (Some v)),
          match keyfreefp with Some fk => [CallFree fk (Some (key e))] | None => [] end ++
          match valfreefp with Some fv => [CallFree fv (val e)] | None => [] end) /\
     nentries r.1.2 = nentries gh /\
     length (entries r.1.2) = length (entries gh)) /\
  (BLI_ghash_haskey call_hashfp call_cmpfp gh k = false ->
   r.1.1 = true /\ nentries r.1.2 = nentries gh + 1 /\
   entries r.1.2 ≡ₚ mkEntry h k (Some v) :: entries gh /\
   forall fp x, CallFree fp x ∉ r.2) /\
  ghash_ok r.1.2 /\
  (BLI_ghash_lookup call_hashfp call_cmpfp r.1.2 k).1 = Some v.
Proof.
  intros Hok Hroom Hrefl h b r.
  pose proof (bucket_hash_range gh h (ok_array _ Hok)) as Hrange. fold b in Hrange.
  destruct (BLI_ghash_haskey call_hashfp call_cmpfp gh k) eqn:Hhas.
  - (* present *)
    destruct (haskey_true gh k Hhas) as (i & e & Hl & He & Hm). fold h b in He, Hm.
    assert (r = (false, entry_store gh b i (mkEntry (hash e) k (Some v)),
                 call_free keyfreefp (Some (key e)) ++ call_free valfreefp (val e))) as Hr.
    { subst r. unfold BLI_ghash_reinsert, ghash_insert_safe.
      unfold ghash_lookup_entry in Hl. fold h b. fold h b in Hl. rewrite Hl.
      unfold entry_at. by rewrite He. }
    destruct (entry_store_ok gh b i e (mkEntry (hash e) k (Some v)) Hok Hrange He eq_refl)
      as [Hok' Hlen'].
    split; [|split; [done|]].
    + intros _. exists i, e. rewrite Hr. by split_and!.
    + rewrite Hr. simpl. split; [done|].
      unfold BLI_ghash_lookup, lookup_entry_deref, ghash_lookup_entry,
        ghash_lookup_entry_ex, chain_lookup, entry_at. simpl.
      change (ghash_keyhash call_hashfp
                (entry_store gh b i (mkEntry (hash e) k (Some v))) k) with h.
      change (ghash_bucket_hash
                (entry_store gh b i (mkEntry (hash e) k (Some v))) h) with b.
      unfold entry_store. rewrite set_bucket_bucket by (done || apply Hok).
      unfold ghash_lookup_entry, ghash_lookup_entry_ex, chain_lookup in Hl.
      fold h b in Hl.
      rewrite (chain_find_insert _ _ i (mkEntry (hash e) k (Some v)) Hl).
      * simpl. rewrite list_lookup_insert_eq by (by eapply lookup_lt_Some). done.
      * unfold entry_matches in *. simpl. bool_prop Hm. destruct Hm as [Hh _].
        rewrite Hh, Z.eqb_refl, Hrefl. done.
  - (* absent *)
    pose proof (haskey_false gh k Hhas) as Hl. unfold ghash_lookup_entry in Hl.
    fold h b in Hl.
    destruct (link_entry_spec gh b (mkEntry h k (Some v)) Hok eq_refl Hroom)
      as (L1 & L2 & L3 & (I1 & I2 & _)).
    simpl in I1, I2.
    set (gh' := ghash_expand_buckets
                  (set_nentries (bucket_link gh b (mkEntry h k (Some v)))
                                (uint (nentries gh + 1)))
                  (uint (nentries gh + 1)) false false) in *.
    assert (r = (true, gh', insert_assert call_hashfp call_cmpfp gh k ++ IS_GHASH_ASSERT gh))
      as Hr.
    { subst r. unfold BLI_ghash_reinsert, ghash_insert_safe. fold h b. rewrite Hl.
      reflexivity. }
    rewrite Hr. simpl. split; [done|]. split.
    { intros _. split_and!; try done. intros fp x.
      unfold insert_assert, IS_GHASH_ASSERT, BLI_assert.
      destruct (_ || _), (_ =? 0); simpl; intros Hin;
        repeat (apply elem_of_cons in Hin as [Hin|Hin]; [discriminate Hin|]);
        by apply elem_of_nil in Hin. }
    split; [done|].
    unfold BLI_ghash_lookup, lookup_entry_deref, ghash_lookup_entry. simpl.
    assert (ghash_keyhash call_hashfp gh' k = h) as -> by (unfold ghash_keyhash; by rewrite I1).
    destruct (ghash_lookup_entry_ex call_cmpfp gh' k h (ghash_bucket_hash gh' h))
      as [i|] eqn:Hl'.
    + destruct (lookup_ex_Some gh' k h i (ok_array _ L1) Hl') as (e & He & Hin & Hm).
      simpl. rewrite He. simpl.
      rewrite L2 in Hin. apply elem_of_cons in Hin as [->|Hin]; [done|].
      rewrite I2 in Hm.
      pose proof (proj1 (lookup_ex_None gh k h (ok_array _ Hok) (ok_placed _ Hok)) Hl
                    e Hin). congruence.
    + pose proof (proj1 (lookup_ex_None gh' k h (ok_array _ L1) (ok_placed _ L1)) Hl'
                    (mkEntry h k (Some v))) as Hmiss.
      rewrite L2 in Hmiss. specialize (Hmiss (list_elem_of_here _ _)).
      unfold entry_matches in Hmiss. simpl in Hmiss.
      rewrite I2, Z.eqb_refl, Hrefl in Hmiss. done.
Qed.

End Table.

(** *** A checker for well-formedness *)

Definition policy_ok_b (gh : GHash) : bool :=
  (0 <=? size_min gh) && (size_min gh <=? cursize gh) && (cursize gh <? GHASH_MAX_SIZE)
  && (nbuckets gh =? hashsizes_at (cursize gh))
  && (limit_grow gh =? GHASH_LIMIT_GROW (nbuckets gh))
  && (limit_shrink gh =? GHASH_LIMIT_SHRINK (nbuckets gh)).

Fixpoint placed_from (nb : Z) (i : nat) (bs : list (list Entry)) : bool :=
  match bs with
  | [] => true
  | chain :: bs =>
      forallb (fun e => hash e mod nb =? Z.of_nat i) chain && placed_from nb (S i) bs
  end.

Definition ghash_ok_b (gh : GHash) : bool :=
  policy_ok_b gh && (0 <? nbuckets gh)
  && match buckets gh with
     | Some bs => (Z.of_nat (length bs) =? nbuckets gh) && placed_from (nbuckets gh) 0 bs
     | None => false
     end
  && (nentries gh =? Z.of_nat (length (entries gh))) && (nentries gh <? 2 ^ 32).

Lemma policy_ok_b_sound gh : policy_ok_b gh = true -> policy_ok gh.
Proof. unfold policy_ok_b. intros H. bool_prop H. constructor; lia. Qed.

Lemma placed_from_sound nb i bs :
  placed_from nb i bs = true ->
  forall (j : nat) chain e,
    bs !! j = Some chain -> e ∈ chain -> hash e mod nb = Z.of_nat (i + j).
Proof.
  revert i. induction bs as [|c bs IH]; intros i H j chain e Hj He; [done|].
  simpl in H. apply andb_true_iff in H as [Hc Hbs].
  destruct j as [|j]; simpl in Hj.
  - injection Hj as ->. rewrite forallb_forall in Hc.
    apply list_elem_of_In, Hc, Z.eqb_eq in He. rewrite He. f_equal. lia.
  - rewrite (IH (S i) Hbs j chain e Hj He). f_equal. lia.
Qed.

Lemma ghash_ok_b_sound gh : ghash_ok_b gh = true -> ghash_ok gh.
Proof.
  unfold ghash_ok_b. intros H.
  apply andb_true_iff in H as [H Hmax]. apply andb_true_iff in H as [H Hcnt].
  apply andb_true_iff in H as [H Harr]. apply andb_true_iff in H as [Hpol Hpos].
  destruct (buckets gh) as [bs|] eqn:Hbs; [|done].
  apply andb_true_iff in Harr as [Hlen Hpl].
  constructor.
  - by apply policy_ok_b_sound.
  - split; [lia|]. exists bs. split; [done|]. lia.
  - unfold placed, placed_array, bucket_array. rewrite Hbs. simpl.
    intros j chain e Hj He. by rewrite (placed_from_sound _ _ _ Hpl j chain e Hj He).
  - lia.
  - lia.
Qed.

(** C4, counterexample: key [0x100] is stored with the value NULL.
    [BLI_ghash_lookup] returns NULL for it, as it does for a key that is
    absent, and yet [BLI_ghash_add] returns false. *)
Lemma add_false_though_lookup_null :
  let gh := ghash_of_list [(256, 0)] in
  (BLI_ghash_lookup std_call_hashfp std_call_cmpfp gh 256).1 = Some 0 /\
  (BLI_ghash_add std_call_hashfp std_call_cmpfp gh 256 7).1.1 = false.
Proof. by vm_compute. Qed.

(** The table of scenario S1, at which the theorems above apply. *)
Definition table_s1 : GHash := ghash_of_list [(256, 512); (768, 1024)].

Lemma lookup_first_match_witness :
  BLI_ghash_lookup std_call_hashfp std_call_cmpfp table_s1 256 = (Some 512, []) /\
  BLI_ghash_lookup std_call_hashfp std_call_cmpfp table_s1 2457 = (Some 0, []) /\
  BLI_ghash_lookup std_call_hashfp std_call_cmpfp (gset_of_list [3]) 3
    = (None, [AssertFailed "(gh->flag & GHASH_FLAG_IS_SET) == 0"]) /\
  is_Some (BLI_ghash_lookup std_call_hashfp std_call_cmpfp table_s1 256).1.
Proof.
  pose proof (lookup_first_match std_call_hashfp std_call_cmpfp table_s1 256) as H1.
  pose proof (lookup_first_match std_call_hashfp std_call_cmpfp table_s1 2457) as H2.
  pose proof (lookup_first_match std_call_hashfp std_call_cmpfp (gset_of_list [3]) 3) as H3.
  cbv zeta in H1, H2, H3.
  destruct H1 as (Hv1 & Hl1 & Hs1). destruct H2 as (Hv2 & Hl2 & _).
  destruct H3 as (Hv3 & Hl3 & _).
  split; [apply injective_projections; [rewrite Hv1|rewrite Hl1]; vm_compute; reflexivity|].
  split; [apply injective_projections; [rewrite Hv2|rewrite Hl2]; vm_compute; reflexivity|].
  split; [apply injective_projections; [rewrite Hv3|rewrite Hl3]; vm_compute; reflexivity|].
  apply Hs1. vm_compute. constructor; [eexists; reflexivity | constructor].
Defined.

Lemma remove_pop_spec_witness :
  ghash_ok table_s1 /\
  (exists gh' log,
     BLI_ghash_remove std_call_hashfp std_call_cmpfp table_s1 256 None None
       = (true, gh', log) /\ nentries gh' = 1) /\
  BLI_ghash_remove std_call_hashfp std_call_cmpfp table_s1 2457 None None
    = (false, table_s1, []).
Proof.
  assert (ghash_ok table_s1) as Hok by (apply ghash_ok_b_sound; vm_compute; reflexivity).
  split; [exact Hok|].
  destruct (remove_pop_spec std_call_hashfp std_call_cmpfp table_s1 256 None None Hok)
    as [Hpresent _].
  destruct (remove_pop_spec std_call_hashfp std_call_cmpfp table_s1 2457 None None Hok)
    as [_ Habsent].
  split.
  - destruct Hpresent as [(gh' & log & Hr & Hn & _) _]; [vm_compute; reflexivity|].
    exists gh', log. split; [exact Hr|]. rewrite Hn. vm_compute. reflexivity.
  - apply Habsent. vm_compute. reflexivity.
Defined.

Lemma reinsert_spec_witness :
  ghash_ok table_s1 /\
  (BLI_ghash_reinsert std_call_hashfp std_call_cmpfp table_s1 256 7 (Some 11) (Some 12)).1.1
    = false /\
  (BLI_ghash_reinsert std_call_hashfp std_call_cmpfp table_s1 256 7 (Some 11) (Some 12)).2
    = [CallFree 11 (Some 256); CallFree 12 (Some 512)] /\
  nentries
    (BLI_ghash_reinsert std_call_hashfp std_call_cmpfp table_s1 256 7 (Some 11) (Some 12)).1.2
    = 2 /\
  (BLI_ghash_lookup std_call_hashfp std_call_cmpfp
     (BLI_ghash_reinsert std_call_hashfp std_call_cmpfp table_s1 256 7 (Some 11) (Some 12)).1.2
     256).1 = Some 7.
Proof.
  assert (ghash_ok table_s1) as Hok by (apply ghash_ok_b_sound; vm_compute; reflexivity).
  split; [exact Hok|].
  pose proof (reinsert_spec std_call_hashfp std_call_cmpfp table_s1 256 7 (Some 11) (Some 12)
                Hok) as H.
  cbv zeta in H.
  destruct H as (Hpresent & _ & _ & Hlookup).
  - vm_compute. reflexivity.
  - vm_compute. reflexivity.
  - destruct Hpresent as (i & e & Hl & He & Hr & Hn & _); [vm_compute; reflexivity|].
    vm_compute in Hl. injection Hl as <-.
    vm_compute in He. injection He as <-.
    split; [by rewrite Hr|]. split; [by rewrite Hr|].
    split; [rewrite Hn; vm_compute; reflexivity | exact Hlookup].
Defined.

(* ===================================================================== *)
(** * Clearing *)

Lemma expand_user_defined_floor gh n fs :
  buckets gh = None ->
  size_min (ghash_expand_buckets gh n true fs) = cursize (ghash_expand_buckets gh n true fs).
Proof.
  intros Hnone. unfold ghash_expand_buckets. rewrite Hnone.
  destruct (expand_grow expand_fuel n gh (nbuckets gh)) as [g1 nb1].
  destruct (if fs || flag_test g1 GHASH_FLAG_ALLOW_SHRINK
            then expand_shrink expand_fuel n g1 nb1 else (g1, nb1)) as [g2 nb2].
  simpl. by destruct (_ && _).
Qed.

(** C10: [BLI_ghash_clear_ex] leaves the table in the state of a new table
    made with the same callbacks, entry size and reservation: the flag word
    is zero, so neither [GHASH_FLAG_ALLOW_DUPES] nor [GHASH_FLAG_ALLOW_SHRINK]
    holds; with no reservation the cursor and the floor are at the first
    step; with a reservation the cursor is the first step of the schedule
    whose grow limit holds the reservation (the last step when none does)
    and the floor is that step.  Nothing of the earlier cursor, floor or
    flags remains. *)
Theorem clear_ex_resets gh keyfreefp valfreefp nentries_reserve :
  let gh' := (BLI_ghash_clear_ex gh keyfreefp valfreefp nentries_reserve).1 in
  gh' = ghash_new (hashfp gh) (cmpfp gh) nentries_reserve (entry_size gh) /\
  flag gh' = 0 /\
  flag_test gh' GHASH_FLAG_ALLOW_DUPES = false /\
  flag_test gh' GHASH_FLAG_ALLOW_SHRINK = false /\
  (nentries_reserve = 0 ->
   cursize gh' = 0 /\ size_min gh' = 0 /\ nbuckets gh' = hashsizes_at 0) /\
  (nentries_reserve <> 0 -> size_min gh' = cursize gh') /\
  (0 <= cursize gh' < GHASH_MAX_SIZE /\ nbuckets gh' = hashsizes_at (cursize gh') /\
   limit_grow gh' = GHASH_LIMIT_GROW (nbuckets gh') /\
   limit_shrink gh' = GHASH_LIMIT_SHRINK (nbuckets gh') /\ nentries gh' = 0) /\
  (nentries_reserve <= limit_grow gh' \/ cursize gh' = GHASH_MAX_SIZE - 1) /\
  (forall i, 0 <= i < cursize gh' ->
             GHASH_LIMIT_GROW (hashsizes_at i) < nentries_reserve).
Proof.
  intros gh'.
  assert (gh' = ghash_buckets_reset gh nentries_reserve) as -> by reflexivity.
  split.
  { unfold ghash_new, ghash_buckets_reset. f_equal. }
  assert (flag (ghash_buckets_reset gh nentries_reserve) = 0) as Hflag.
  { unfold ghash_buckets_reset. by rewrite ghash_expand_buckets_flag. }
  split; [done|]. unfold flag_test. rewrite Hflag. split; [done|]. split; [done|].
  split.
  { intros ->. by vm_compute. }
  split.
  { intros Hne. unfold ghash_buckets_reset.
    apply Z.eqb_neq in Hne. rewrite Hne. by apply expand_user_defined_floor. }
  unfold ghash_buckets_reset.
  set (g0 := set_flag _ 0).
  assert (policy_ok g0) as Hpol by (constructor; by vm_compute).
  assert (flag_test g0 GHASH_FLAG_ALLOW_SHRINK = false) as Hoff by reflexivity.
  destruct (ghash_expand_buckets_policy g0 nentries_reserve
              (negb (nentries_reserve =? 0)) false Hpol)
    as ([Q1 Q2 Q3 Q4] & _ & [P3 _] & _).
  destruct (expand_without_shrink_cursor g0 nentries_reserve
              (negb (nentries_reserve =? 0)) Hpol Hoff) as (C1 & _ & C3).
  change (cursize g0) with 0 in C1, C3.
  split; [split_and!; [lia|lia|done|done|done|]|].
  { by rewrite ghash_expand_buckets_nentries. }
  split; [exact P3|exact C3].
Qed.

Lemma clear_ex_resets_witness :
  let gh := BLI_ghash_reserve (BLI_ghash_flag_set table_s1 GHASH_FLAG_ALLOW_SHRINK) 1000 in
  let gh' := (BLI_ghash_clear_ex gh None None 100).1 in
  (cursize gh, size_min gh, flag gh) = (9, 9, 2) /\
  (cursize gh', size_min gh', nbuckets gh', flag gh') = (6, 6, 257, 0) /\
  100 <= limit_grow gh' /\
  GHASH_LIMIT_GROW (hashsizes_at 5) < 100.
Proof.
  intros gh gh'.
  pose proof (clear_ex_resets gh None None 100) as H. cbv zeta in H. fold gh' in H.
  destruct H as (_ & _ & _ & _ & _ & _ & _ & Hgrow & Hmin).
  assert (cursize gh' = 6) as Hc by (vm_compute; reflexivity).
  split; [vm_compute; reflexivity|]. split; [vm_compute; reflexivity|]. split.
  - destruct Hgrow as [Hgrow|Hgrow]; [exact Hgrow|].
    rewrite Hc in Hgrow. discriminate Hgrow.
  - apply Hmin. rewrite Hc. split; [discriminate | reflexivity].
Defined.

(** A floor raised by [BLI_ghash_reserve] is gone after [BLI_ghash_clear]. *)
Example clear_drops_reserved_floor :
  let gh := BLI_ghash_reserve (BLI_ghash_flag_set BLI_ghash_ptr_new GHASH_FLAG_ALLOW_SHRINK)
                              100 in
  (size_min gh, cursize gh, flag gh) = (6, 6, 2) /\
  let gh' := (BLI_ghash_clear gh None None).1 in
  (size_min gh', cursize gh', flag gh') = (0, 0, 0).
Proof. by vm_compute. Qed.

(* ===================================================================== *)
(** * Assertions of the symmetric difference *)

(** C2: a map destination with a set operand.  [ghash_union] records the
    failed entry-size assertion; [ghash_symmetric_difference], whose
    assertion assigns instead of comparing, records nothing. *)
Theorem symdiff_entry_size_mismatch_unnoticed :
  let gh1 := ghash_of_list [(256, 512)] in
  let gs2 := gset_of_list [768] in
  entry_size gh1 = GHASH_ENTRY_SIZE /\ entry_size gs2 = GSET_ENTRY_SIZE /\
  (BLI_ghash_union std_call_cmpfp None None (Some gh1) gs2 []).2
    = [AssertFailed "entry_size == ghn->entry_size"] /\
  (BLI_ghash_symmetric_difference std_call_cmpfp None None None None (Some gh1) gs2 []).2
    = [].
Proof. by vm_compute. Qed.

(** C1: three sets that all hold key 3.  The first pass puts key 3 into
    [rem_keys] twice; the second pass unlinks it from [keys] at the first of
    the two and finds nothing at the second, where [e_curr != NULL] fails. *)
Theorem symdiff_assert_fails_on_triple :
  let gs := gset_of_list [3] in
  (BLI_gset_symmetric_difference std_call_cmpfp None None (Some gs) gs [gs]).2
    = [AssertFailed "e_curr != NULL"] /\
  (BLI_gset_symmetric_difference std_call_cmpfp None None
     (Some (gset_of_list [1; 2; 3])) (gset_of_list [2; 3; 4]) [gset_of_list [3; 4; 5]]).2
    = [AssertFailed "e_curr != NULL"].
Proof. by vm_compute. Qed.

(* ===================================================================== *)
(** * The load band across the public mutations *)

(** The state the policy leaves a table in: consistent resize state, a
    bucket array, and the entry count inside the load band. *)
Definition band_ok (gh : GHash) : Prop :=
  policy_ok gh /\ is_Some (buckets gh) /\ load_band gh (nentries gh) false.

(** The same where the shrink was forced: the count is at or above the shrink
    limit unless the table is at its floor, whether or not
    [GHASH_FLAG_ALLOW_SHRINK] is set. *)
Definition band_forced_ok (gh : GHash) : Prop :=
  policy_ok gh /\ is_Some (buckets gh) /\
  (nentries gh <= limit_grow gh \/ cursize gh = GHASH_MAX_SIZE - 1) /\
  (limit_shrink gh <= nentries gh \/ cursize gh = size_min gh).




Lemma policy_ok_fields gh gh' :
  cursize gh' = cursize gh -> size_min gh' = size_min gh -> nbuckets gh' = nbuckets gh ->
  limit_grow gh' = limit_grow gh -> limit_shrink gh' = limit_shrink gh ->
  policy_ok gh -> policy_ok gh'.
Proof. intros E1 E2 E3 E4 E5 [? ? ? ?]. constructor; congruence. Qed.


Lemma band_forced_band_ok gh : band_forced_ok gh -> band_ok gh.
Proof.
  intros (H1 & H2 & H3 & H4). split; [done|]. split; [done|]. split; [done|].
  destruct H4; [by left | right; by right].
Qed.







Section Band.

Variable call_hashfp : Z -> Z -> Z.
Variable call_cmpfp : Z -> Z -> Z -> bool.






















End Band.



(* ===================================================================== *)
(** * Keys of a table, counted up to the comparison callback *)

Section Keys.

(** The comparison callback of the tables at hand: false on keys it takes to
    be the same key.  It is an equivalence. *)
Variable cmp : Z -> Z -> bool.
Hypothesis cmp_refl : forall a, cmp a a = false.
Hypothesis cmp_sym : forall a b, cmp a b = false -> cmp b a = false.
Hypothesis cmp_trans : forall a b c, cmp a b = false -> cmp b c = false -> cmp a c = false.

(** How many entries of [l] hold key [k]. *)
Fixpoint kcount (l : list Entry) (k : Z) : nat :=
  match l with
  | [] => O
  | e :: l => ((if cmp k (key e) then 0 else 1) + kcount l k)%nat
  end.

Lemma kcount_app l1 l2 k : kcount (l1 ++ l2) k = (kcount l1 k + kcount l2 k)%nat.
Proof. induction l1 as [|e l1 IH]; simpl; [done|]. rewrite IH. lia. Qed.

Lemma kcount_perm l l' k : l ≡ₚ l' -> kcount l k = kcount l' k.
Proof. induction 1; simpl; lia. Qed.

Lemma cmp_keq_l a b c : cmp a b = false -> cmp a c = cmp b c.
Proof.
  intros Hab. destruct (cmp b c) eqn:Hbc.
  - destruct (cmp a c) eqn:Hac; [done|].
    rewrite (cmp_trans b a c (cmp_sym _ _ Hab) Hac) in Hbc. done.
  - by apply (cmp_trans a b c).
Qed.

Lemma kcount_keq l a b : cmp a b = false -> kcount l a = kcount l b.
Proof.
  intros Hab. induction l as [|e l IH]; simpl; [done|].
  by rewrite IH, (cmp_keq_l a b (key e) Hab).
Qed.

Lemma kcount_pos l k : (0 < kcount l k)%nat <-> exists e, e ∈ l /\ cmp k (key e) = false.
Proof.
  induction l as [|x l IH]; simpl.
  - split; [lia|]. intros (e & He & _). by apply elem_of_nil in He.
  - split.
    + intros Hpos. destruct (cmp k (key x)) eqn:Hx.
      * destruct IH as [IH _]. destruct IH as (e & He & Hk); [lia|].
        exists e. split; [by apply list_elem_of_further | done].
      * exists x. split; [apply list_elem_of_here | done].
    + intros (e & [->|He]%elem_of_cons & Hk).
      * rewrite Hk. lia.
      * destruct IH as [_ IH]. specialize (IH (ex_intro _ e (conj He Hk))). lia.
Qed.

Lemma kcount_zero l k : kcount l k = O <-> forall e, e ∈ l -> cmp k (key e) = true.
Proof.
  split.
  - intros Hz e He. destruct (cmp k (key e)) eqn:Hk; [done|].
    assert (0 < kcount l k)%nat by (apply kcount_pos; by exists e). lia.
  - intros Hall. destruct (kcount l k) eqn:Hc; [done|].
    assert (0 < kcount l k)%nat as Hpos by lia.
    apply kcount_pos in Hpos as (e & He & Hk). rewrite (Hall e He) in Hk. done.
Qed.

(** No two entries hold the same key. *)
Definition uniq (l : list Entry) : Prop := forall k, (kcount l k <= 1)%nat.

Lemma uniq_perm l l' : l ≡ₚ l' -> uniq l -> uniq l'.
Proof. intros Hp Hu k. rewrite <- (kcount_perm l l' k Hp). apply Hu. Qed.

Lemma uniq_cons_inv e l : uniq (e :: l) -> uniq l /\ kcount l (key e) = O.
Proof.
  intros Hu. split.
  - intros k. specialize (Hu k). simpl in Hu. lia.
  - specialize (Hu (key e)). simpl in Hu. rewrite cmp_refl in Hu. lia.
Qed.

(** In a table without duplicate keys, a key picks its entry. *)
Lemma uniq_elem l e e' :
  uniq l -> e ∈ l -> e' ∈ l -> cmp (key e) (key e') = false -> e = e'.
Proof.
  induction l as [|x l IH]; intros Hu He He' Hk; [by apply elem_of_nil in He|].
  destruct (uniq_cons_inv x l Hu) as [Hu' Hx]. rewrite kcount_zero in Hx.
  apply elem_of_cons in He as [->|He]; apply elem_of_cons in He' as [->|He'].
  - done.
  - rewrite (Hx e' He') in Hk. done.
  - apply cmp_sym in Hk. rewrite (Hx e He) in Hk. done.
  - by apply IH.
Qed.

(** One step of a union: an entry whose key the accumulator lacks is copied
    in, one whose key it has is skipped. *)
Definition union_step (cp : Entry -> Entry) (acc : list Entry) (e : Entry) : list Entry :=
  if (0 <? Z.of_nat (kcount acc (key e))) then acc else cp e :: acc.

Lemma union_step_perm cp acc acc' e :
  acc ≡ₚ acc' -> union_step cp acc e ≡ₚ union_step cp acc' e.
Proof.
  intros Hp. unfold union_step. rewrite (kcount_perm acc acc' _ Hp).
  destruct (0 <? _); [done|]. by constructor.
Qed.

Lemma foldl_union_step_perm cp acc acc' l :
  acc ≡ₚ acc' -> foldl (union_step cp) acc l ≡ₚ foldl (union_step cp) acc' l.
Proof.
  revert acc acc'. induction l as [|e l IH]; intros acc acc' Hp; [done|].
  simpl. by apply IH, union_step_perm.
Qed.

Section UnionFold.

(** The copy keeps the key, up to the comparison. *)
Variable cp : Entry -> Entry.
Hypothesis cp_key : forall e, cmp (key (cp e)) (key e) = false.

Lemma kcount_union_step acc e k :
  kcount (union_step cp acc e) k =
  if (0 <? Z.of_nat (kcount acc (key e))) then kcount acc k
  else ((if cmp k (key e) then 0 else 1) + kcount acc k)%nat.
Proof.
  unfold union_step. destruct (0 <? _); [done|]. simpl.
  assert (cmp k (key (cp e)) = cmp k (key e)) as ->; [|done].
  destruct (cmp k (key e)) eqn:Hk.
  - destruct (cmp k (key (cp e))) eqn:Hk'; [done|].
    rewrite (cmp_trans _ _ _ Hk' (cp_key e)) in Hk. done.
  - apply (cmp_trans _ _ _ Hk), cmp_sym, cp_key.
Qed.

(** After a union every key the accumulator had is counted as before, and
    every other key is counted once if the added entries hold it at all. *)
Lemma kcount_foldl_union_step l acc k :
  kcount (foldl (union_step cp) acc l) k =
  if (0 <? Z.of_nat (kcount acc k)) then kcount acc k
  else if (0 <? Z.of_nat (kcount l k)) then 1%nat else O.
Proof.
  revert acc. induction l as [|e l IH]; intros acc; simpl.
  - destruct (0 <? Z.of_nat (kcount acc k)) eqn:H; [done|]. bool_prop H. lia.
  - rewrite IH, kcount_union_step.
    destruct (0 <? Z.of_nat (kcount acc (key e))) eqn:He;
      destruct (cmp k (key e)) eqn:Hk; simpl; try done.
    + rewrite (kcount_keq acc k (key e) Hk). rewrite He.
      bool_prop He. by destruct (kcount acc (key e)); [lia|].
    + rewrite (kcount_keq acc k (key e) Hk).
      bool_prop He. replace (kcount acc (key e)) with O by lia. simpl.
      by destruct (kcount l k).
Qed.

Lemma uniq_foldl_union_step l acc : uniq acc -> uniq (foldl (union_step cp) acc l).
Proof.
  intros Hu k. rewrite kcount_foldl_union_step. specialize (Hu k).
  destruct (0 <? Z.of_nat (kcount acc k)); [done|]. destruct (0 <? _); lia.
Qed.

Lemma elem_of_foldl_union_step l acc e :
  e ∈ acc -> e ∈ foldl (union_step cp) acc l.
Proof.
  revert acc. induction l as [|x l IH]; intros acc He; [done|]. simpl. apply IH.
  unfold union_step. destruct (0 <? _); [done|]. by apply list_elem_of_further.
Qed.

(** The first entry, in the order of the union, that holds a key the
    accumulator lacks is the one copied in. *)
Lemma first_added_foldl_union_step l1 e l2 acc :
  kcount acc (key e) = O -> kcount l1 (key e) = O ->
  cp e ∈ foldl (union_step cp) acc (l1 ++ e :: l2).
Proof.
  intros Hacc Hl1. rewrite foldl_app. simpl. apply elem_of_foldl_union_step.
  unfold union_step.
  rewrite kcount_foldl_union_step, Hacc, Hl1. simpl. apply list_elem_of_here.
Qed.

Lemma length_foldl_union_step l acc :
  (length (foldl (union_step cp) acc l) <= length acc + length l)%nat.
Proof.
  revert acc. induction l as [|x l IH]; intros acc; simpl; [lia|].
  etrans; [apply IH|]. unfold union_step. destruct (0 <? _); simpl; lia.
Qed.

End UnionFold.

(** A checker for the absence of duplicate keys. *)
Fixpoint uniq_b (l : list Entry) : bool :=
  match l with
  | [] => true
  | e :: l => forallb (fun x => cmp (key e) (key x)) l && uniq_b l
  end.

Lemma uniq_b_sound l : uniq_b l = true -> uniq l.
Proof.
  induction l as [|e l IH]; intros H k; simpl; [lia|].
  simpl in H. apply andb_true_iff in H as [He Hl]. specialize (IH Hl k).
  destruct (cmp k (key e)) eqn:Hk; [lia|].
  rewrite (kcount_keq l k (key e) Hk).
  assert (kcount l (key e) = O) as ->; [|lia].
  apply kcount_zero. intros x Hx. rewrite forallb_forall in He.
  by apply He, list_elem_of_In.
Qed.

End Keys.

(* ===================================================================== *)
(** * Set algebra over tables that share their callbacks *)

Section Algebra.

Variable call_hashfp : Z -> Z -> Z.
Variable call_cmpfp : Z -> Z -> Z -> bool.

(** The addresses of the hash and comparison callbacks the tables share. *)
Variable hf cf : Z.

Hypothesis cmp_refl : forall a, call_cmpfp cf a a = false.
Hypothesis cmp_sym : forall a b, call_cmpfp cf a b = false -> call_cmpfp cf b a = false.
Hypothesis cmp_trans :
  forall a b c, call_cmpfp cf a b = false -> call_cmpfp cf b c = false ->
                call_cmpfp cf a c = false.
(** Keys the comparison takes to be the same hash the same. *)
Hypothesis cmp_hash :
  forall a b, call_cmpfp cf a b = false -> call_hashfp hf a = call_hashfp hf b.

(** A well-formed table with the shared callbacks, whose entries cache the
    hash of their key and are large enough to hold hash and key. *)
Record table_of (gh : GHash) : Prop := {
  tab_ok : ghash_ok gh;
  tab_hashfp : hashfp gh = hf;
  tab_cmpfp : cmpfp gh = cf;
  tab_hashed : forall e, e ∈ entries gh -> hash e = call_hashfp hf (key e);
  tab_esize : GSET_ENTRY_SIZE <= entry_size gh
}.

(** A key-copy callback returns a key that compares equal to its argument. *)
Definition key_copy_ok (keycopyfp : option (Z -> Z)) : Prop :=
  forall f k, keycopyfp = Some f -> call_cmpfp cf (f k) k = false.

(** The entry [entry_copy] builds in fresh pool storage. *)
Definition copied (es : Z) (kcp vcp : option (Z -> Z)) (e : Entry) : Entry :=
  entry_copy entry_uninit e es kcp vcp.

Lemma copied_hash es kcp vcp e : GSET_ENTRY_SIZE <= es -> hash (copied es kcp vcp e) = hash e.
Proof.
  intros Hes. unfold copied, entry_copy, memcpy_covers. simpl.
  unfold GSET_ENTRY_SIZE, sizeof_Entry, sizeof_ptr, offsetof_hash in *.
  destruct (8 <=? 8) eqn:E1; [|done]. destruct (8 + 4 <=? es) eqn:E2; [done|].
  bool_prop E2. lia.
Qed.

Lemma copied_key es kcp vcp e :
  GSET_ENTRY_SIZE <= es ->
  key (copied es kcp vcp e) = match kcp with Some f => f (key e) | None => key e end.
Proof.
  intros Hes. unfold copied, entry_copy, memcpy_covers. simpl.
  destruct kcp; [done|].
  unfold GSET_ENTRY_SIZE, sizeof_Entry, sizeof_ptr, offsetof_hash, offsetof_key in *.
  destruct (8 <=? 16) eqn:E1; [|done]. destruct (16 + 8 <=? es) eqn:E2; [done|].
  bool_prop E2. lia.
Qed.

Lemma copied_key_keq es kcp vcp e :
  GSET_ENTRY_SIZE <= es -> key_copy_ok kcp ->
  call_cmpfp cf (key (copied es kcp vcp e)) (key e) = false.
Proof.
  intros Hes Hcp. rewrite copied_key by done.
  destruct kcp as [f|]; [by apply Hcp | apply cmp_refl].
Qed.

Lemma copied_hashed es kcp vcp e :
  GSET_ENTRY_SIZE <= es -> key_copy_ok kcp -> hash e = call_hashfp hf (key e) ->
  hash (copied es kcp vcp e) = call_hashfp hf (key (copied es kcp vcp e)).
Proof.
  intros Hes Hcp He. rewrite copied_hash, He by done.
  symmetry. by apply cmp_hash, copied_key_keq.
Qed.

Lemma kcount_copied es kcp vcp l k :
  GSET_ENTRY_SIZE <= es -> key_copy_ok kcp ->
  kcount (call_cmpfp cf) (copied es kcp vcp <$> l) k = kcount (call_cmpfp cf) l k.
Proof.
  intros Hes Hcp. induction l as [|e l IH]; [done|].
  rewrite fmap_cons. cbn [kcount]. rewrite IH.
  assert (call_cmpfp cf k (key (copied es kcp vcp e)) = call_cmpfp cf k (key e)) as ->;
    [|done].
  pose proof (copied_key_keq es kcp vcp e Hes Hcp) as Hk.
  destruct (call_cmpfp cf k (key e)) eqn:Hke.
  - destruct (call_cmpfp cf k (key (copied es kcp vcp e))) eqn:Hkc; [done|].
    rewrite (cmp_trans _ _ _ Hkc Hk) in Hke. done.
  - apply (cmp_trans _ _ _ Hke), cmp_sym, Hk.
Qed.

(** *** Lookups, in terms of the keys held *)

Lemma entry_matches_hashed gh k e :
  table_of gh -> e ∈ entries gh ->
  entry_matches (call_cmpfp (cmpfp gh)) k (call_hashfp hf k) e
  = negb (call_cmpfp cf k (key e)).
Proof.
  intros Htab He. unfold entry_matches. rewrite (tab_cmpfp _ Htab).
  destruct (call_cmpfp cf k (key e)) eqn:Hk; simpl; [by rewrite andb_false_r|].
  rewrite (tab_hashed _ Htab e He), (cmp_hash _ _ Hk), Z.eqb_refl. done.
Qed.

Lemma lookup_ex_count gh k :
  table_of gh ->
  ghash_lookup_entry_ex call_cmpfp gh k (call_hashfp hf k)
    (ghash_bucket_hash gh (call_hashfp hf k)) = None
  <-> kcount (call_cmpfp cf) (entries gh) k = O.
Proof.
  intros Htab.
  rewrite (lookup_ex_None call_cmpfp gh k _
             (ok_array _ (tab_ok _ Htab)) (ok_placed _ (tab_ok _ Htab))).
  rewrite kcount_zero. split; intros Hall e He; specialize (Hall e He).
  - rewrite entry_matches_hashed in Hall by done. by destruct (call_cmpfp cf k (key e)).
  - rewrite entry_matches_hashed by done. by rewrite Hall.
Qed.

Lemma lookup_deref_None gh k :
  table_of gh ->
  lookup_entry_deref call_hashfp call_cmpfp gh k = None
  <-> kcount (call_cmpfp cf) (entries gh) k = O.
Proof.
  intros Htab. rewrite <- lookup_ex_count by done.
  unfold lookup_entry_deref, ghash_lookup_entry, ghash_keyhash.
  rewrite (tab_hashfp _ Htab).
  destruct (ghash_lookup_entry_ex call_cmpfp gh k _ _) as [i|] eqn:Hl; simpl; [|done].
  destruct (lookup_ex_Some call_cmpfp gh k _ i (ok_array _ (tab_ok _ Htab)) Hl)
    as (e & He & _). rewrite He. done.
Qed.

Lemma lookup_deref_Some gh k e :
  table_of gh -> uniq (call_cmpfp cf) (entries gh) ->
  lookup_entry_deref call_hashfp call_cmpfp gh k = Some e
  <-> e ∈ entries gh /\ call_cmpfp cf k (key e) = false.
Proof.
  intros Htab Hu. split.
  - unfold lookup_entry_deref, ghash_lookup_entry, ghash_keyhash.
    rewrite (tab_hashfp _ Htab).
    destruct (ghash_lookup_entry_ex call_cmpfp gh k _ _) as [i|] eqn:Hl; simpl; [|done].
    destruct (lookup_ex_Some call_cmpfp gh k _ i (ok_array _ (tab_ok _ Htab)) Hl)
      as (e' & He' & Hin & Hm).
    rewrite He'. intros [= <-]. split; [done|].
    rewrite entry_matches_hashed in Hm by done. by destruct (call_cmpfp cf k (key e')).
  - intros [He Hk].
    destruct (lookup_entry_deref call_hashfp call_cmpfp gh k) as [e'|] eqn:Hl.
    + f_equal. symmetry. apply (uniq_elem (call_cmpfp cf) cmp_refl cmp_sym _ e e' Hu He).
      * revert Hl. unfold lookup_entry_deref, ghash_lookup_entry, ghash_keyhash.
        rewrite (tab_hashfp _ Htab).
        destruct (ghash_lookup_entry_ex call_cmpfp gh k _ _) as [i|] eqn:Hl; simpl; [|done].
        destruct (lookup_ex_Some call_cmpfp gh k _ i (ok_array _ (tab_ok _ Htab)) Hl)
          as (e'' & He'' & Hin & Hm).
        rewrite He''. by intros [= <-].
      * revert Hl. unfold lookup_entry_deref, ghash_lookup_entry, ghash_keyhash.
        rewrite (tab_hashfp _ Htab).
        destruct (ghash_lookup_entry_ex call_cmpfp gh k _ _) as [i|] eqn:Hl; simpl; [|done].
        destruct (lookup_ex_Some call_cmpfp gh k _ i (ok_array _ (tab_ok _ Htab)) Hl)
          as (e'' & He'' & Hin & Hm).
        rewrite He''. intros [= <-].
        rewrite entry_matches_hashed in Hm by done.
        apply (cmp_trans _ k); [by apply cmp_sym|].
        by destruct (call_cmpfp cf k (key e'')).
    + apply lookup_deref_None in Hl; [|done]. rewrite kcount_zero in Hl.
      rewrite (Hl e He) in Hk. done.
Qed.

Lemma haskey_count gh k :
  table_of gh ->
  BLI_ghash_haskey call_hashfp call_cmpfp gh k = true
  <-> (0 < kcount (call_cmpfp cf) (entries gh) k)%nat.
Proof.
  intros Htab. unfold BLI_ghash_haskey, ghash_lookup_entry, ghash_keyhash.
  rewrite (tab_hashfp _ Htab). rewrite bool_decide_eq_true.
  pose proof (lookup_ex_count gh k Htab) as Hc.
  destruct (ghash_lookup_entry_ex call_cmpfp gh k _ _) as [i|].
  - split; [|by eexists]. intros _.
    destruct (kcount (call_cmpfp cf) (entries gh) k); [|lia].
    destruct Hc as [_ Hc]. by discriminate Hc.
  - split; [by intros [? ?]|]. destruct Hc as [Hc _]. rewrite Hc by done. lia.
Qed.

(** *** Building blocks *)

Lemma ghash_ok_expand gh fs :
  ghash_ok gh ->
  ghash_ok (ghash_expand_buckets gh (nentries gh) false fs) /\
  entries (ghash_expand_buckets gh (nentries gh) false fs) ≡ₚ entries gh.
Proof.
  intros [Hpol Harr Hpl Hcnt Hmax].
  destruct (ghash_expand_buckets_contents gh (nentries gh) false fs Hpol)
    as (C1 & C2 & C3); [by right|].
  destruct (ghash_expand_buckets_policy gh (nentries gh) false fs Hpol) as (P1 & _).
  split; [|done]. constructor; try done.
  - rewrite ghash_expand_buckets_nentries, (Permutation_length C3). done.
  - by rewrite ghash_expand_buckets_nentries.
Qed.

Lemma table_of_expand gh fs :
  table_of gh ->
  table_of (ghash_expand_buckets gh (nentries gh) false fs) /\
  entries (ghash_expand_buckets gh (nentries gh) false fs) ≡ₚ entries gh.
Proof.
  intros [Hok Hh Hc Hhashed Hes].
  destruct (ghash_ok_expand gh fs Hok) as [E1 E2].
  destruct (ghash_expand_buckets_identity gh (nentries gh) false fs)
    as (I1 & I2 & I3 & I4 & I5).
  split; [|done]. constructor; try done; try congruence.
  intros e He. apply Hhashed. by rewrite <- E2.
Qed.

Lemma copy_in_eq gh b e es kcp vcp :
  copy_in gh b e es kcp vcp =
  ghash_expand_buckets
    (set_nentries (bucket_link gh b (copied es kcp vcp e)) (uint (nentries gh + 1)))
    (uint (nentries gh + 1)) false false.
Proof. reflexivity. Qed.

Lemma copy_in_spec gh e es kcp vcp :
  table_of gh -> GSET_ENTRY_SIZE <= es -> key_copy_ok kcp ->
  hash e = call_hashfp hf (key e) -> nentries gh + 1 < 2 ^ 32 ->
  table_of (copy_in gh (ghash_bucket_hash gh (hash e)) e es kcp vcp) /\
  entries (copy_in gh (ghash_bucket_hash gh (hash e)) e es kcp vcp)
    ≡ₚ copied es kcp vcp e :: entries gh.
Proof.
  intros [Hok Hh Hc Hhashed Hesz] Hes Hcp He Hroom.
  destruct (link_entry_spec gh (ghash_bucket_hash gh (hash e)) (copied es kcp vcp e) Hok)
    as (L1 & L2 & L3 & (I1 & I2 & I3 & I4 & I5)).
  { rewrite copied_hash by done. done. }
  { done. }
  simpl in I1, I2, I5. rewrite copy_in_eq.
  split; [|exact L2]. constructor.
  - exact L1.
  - by rewrite I1.
  - by rewrite I2.
  - intros x Hx. rewrite L2 in Hx.
    apply elem_of_cons in Hx as [->|Hx]; [|by apply Hhashed].
    by apply copied_hashed.
  - by rewrite I5.
Qed.

Lemma ghash_new_ok h c r es :
  ghash_ok (ghash_new h c r es) /\ entries (ghash_new h c r es) = [] /\
  hashfp (ghash_new h c r es) = h /\ cmpfp (ghash_new h c r es) = c /\
  entry_size (ghash_new h c r es) = es.
Proof.
  unfold ghash_new, ghash_buckets_reset.
  set (g0 := set_flag _ 0).
  assert (policy_ok g0) as Hpol by (constructor; by vm_compute).
  destruct (ghash_expand_buckets_policy g0 r (negb (r =? 0)) false Hpol) as (P1 & _).
  destruct (ghash_expand_buckets_contents g0 r (negb (r =? 0)) false Hpol)
    as (C1 & C2 & C3); [by left|].
  destruct (ghash_expand_buckets_identity g0 r (negb (r =? 0)) false)
    as (I1 & I2 & I3 & I4 & I5).
  assert (entries (ghash_expand_buckets g0 r (negb (r =? 0)) false) = []) as Hnil.
  { apply Permutation_nil_r. by rewrite C3. }
  split; [|by split_and!].
  constructor; try done.
  - by rewrite I3, Hnil.
  - by rewrite I3.
Qed.

Lemma bucket_link_spec g b e :
  policy_ok g -> array_ok g -> placed g -> hash e mod nbuckets g = b ->
  policy_ok (bucket_link g b e) /\ array_ok (bucket_link g b e) /\
  placed (bucket_link g b e) /\ entries (bucket_link g b e) ≡ₚ e :: entries g.
Proof.
  intros Hpol Harr Hpl Hb.
  assert (0 <= b < nbuckets g) as Hrange by (subst b; apply Z.mod_pos_bound, Harr).
  destruct (set_bucket_entries g b Harr Hrange) as (pre & post & Hent & Hset).
  unfold bucket_link. split_and!.
  - by apply set_bucket_policy_ok.
  - by apply set_bucket_array_ok.
  - apply set_bucket_placed; try done.
    intros e' [->|He']%elem_of_cons; [done|].
    pose proof (Hpl _ _ _ (bucket_lookup g b Harr Hrange) He'). lia.
  - rewrite Hset, Hent. simpl. symmetry. apply Permutation_middle.
Qed.

(** [ghash_copy] makes a well-formed table holding a copy of each entry. *)
Lemma ghash_copy_spec gh kcp vcp :
  table_of gh -> key_copy_ok kcp ->
  table_of (ghash_copy gh kcp vcp) /\
  entries (ghash_copy gh kcp vcp) ≡ₚ copied (entry_size gh) kcp vcp <$> entries gh /\
  nentries (ghash_copy gh kcp vcp) = nentries gh /\
  entry_size (ghash_copy gh kcp vcp) = entry_size gh.
Proof.
  intros Htab Hcp. destruct Htab as [Hok Hh Hc Hhashed Hes]. unfold ghash_copy.
  destruct (ghash_new_ok (hashfp gh) (cmpfp gh) 0 (entry_size gh))
    as (N1 & N2 & N3 & N4 & N5).
  set (g0 := ghash_new (hashfp gh) (cmpfp gh) 0 (entry_size gh)) in *.
  destruct (ghash_expand_buckets_policy g0 (nentries gh) false false (ok_policy _ N1))
    as (P1 & _).
  destruct (ghash_expand_buckets_contents g0 (nentries gh) false false (ok_policy _ N1))
    as (C1 & C2 & C3); [right; split; apply N1|].
  destruct (ghash_expand_buckets_identity g0 (nentries gh) false false)
    as (I1 & I2 & I3 & I4 & I5).
  set (g1 := ghash_expand_buckets g0 (nentries gh) false false) in *.
  rewrite N2 in C3. apply Permutation_nil_r in C3.
  rewrite (ghash_foreach_entries gh _ g1 (ok_array _ Hok)).
  set (body := fun (gh_new : GHash) (e : Entry) => _).
  assert (forall l g,
            (forall e, e ∈ l -> hash e = call_hashfp hf (key e)) ->
            policy_ok g -> array_ok g -> placed g ->
            let g' := foldl body g l in
            policy_ok g' /\ array_ok g' /\ placed g' /\
            hashfp g' = hashfp g /\ cmpfp g' = cmpfp g /\ entry_size g' = entry_size g /\
            entries g' ≡ₚ (copied (entry_size gh) kcp vcp <$> l) ++ entries g) as Hfold.
  { induction l as [|e l IH]; intros g Hl Gp Ga Gpl; simpl; [by split_and!|].
    destruct (bucket_link_spec g (ghash_bucket_hash g (hash e))
                (copied (entry_size gh) kcp vcp e) Gp Ga Gpl) as (B1 & B2 & B3 & B4).
    { rewrite copied_hash by done. done. }
    destruct (IH (body g e)) as (F1 & F2 & F3 & F4 & F5 & F6 & F7); try done.
    { intros x Hx. apply Hl. by apply list_elem_of_further. }
    split_and!; try done.
    rewrite F7.
    change (entries (body g e))
      with (entries (bucket_link g (ghash_bucket_hash g (hash e))
                       (copied (entry_size gh) kcp vcp e))).
    rewrite B4. symmetry. apply Permutation_middle. }
  destruct (Hfold (entries gh) g1 Hhashed P1 C1 C2) as (F1 & F2 & F3 & F4 & F5 & F6 & F7).
  rewrite C3, app_nil_r in F7.
  split; [|split; [exact F7|split; [done|simpl; congruence]]]. constructor.
  - constructor; try done.
    + destruct F1. by constructor.
    + change (nentries gh = Z.of_nat (length (entries (foldl body g1 (entries gh))))).
      rewrite (Permutation_length F7), length_fmap. apply Hok.
    + change (nentries gh < 2 ^ 32). apply Hok.
  - change (hashfp (foldl body g1 (entries gh)) = hf). congruence.
  - change (cmpfp (foldl body g1 (entries gh)) = cf). congruence.
  - intros x Hx.
    change (x ∈ entries (foldl body g1 (entries gh))) in Hx. rewrite F7 in Hx.
    apply list_elem_of_fmap in Hx as (e & -> & He). apply copied_hashed; auto.
  - change (GSET_ENTRY_SIZE <= entry_size (foldl body g1 (entries gh))). congruence.
Qed.

(** *** Union *)

(** All entries of the operands, in the order the operations visit them. *)
Definition all_entries (operands : list GHash) : list Entry :=
  concat (entries <$> operands).

(** The sum of the operands' entry counts. *)
Definition total_nentries (operands : list GHash) : Z :=
  foldr (fun t s => nentries t + s) 0 operands.

Lemma all_entries_cons t ts : all_entries (t :: ts) = entries t ++ all_entries ts.
Proof. reflexivity. Qed.

Lemma all_entries_length operands :
  Forall table_of operands ->
  Z.of_nat (length (all_entries operands)) = total_nentries operands.
Proof.
  induction 1 as [|t ts Ht _ IH]; [done|].
  rewrite all_entries_cons, length_app, Nat2Z.inj_add, IH.
  by rewrite <- (ok_count _ (tab_ok _ Ht)).
Qed.

Lemma all_entries_hashed operands e :
  Forall table_of operands -> e ∈ all_entries operands ->
  hash e = call_hashfp hf (key e).
Proof.
  induction 1 as [|t ts Ht _ IH].
  - intros He. by apply elem_of_nil in He.
  - rewrite all_entries_cons.
    intros [He|He]%elem_of_app; [by apply (tab_hashed _ Ht) | by apply IH].
Qed.

Lemma union_entry_spec kcp vcp kfp vfp es gh1 log e :
  table_of gh1 -> GSET_ENTRY_SIZE <= es -> key_copy_ok kcp ->
  hash e = call_hashfp hf (key e) -> nentries gh1 + 1 < 2 ^ 32 ->
  let st' := union_entry call_cmpfp false kcp vcp kfp vfp es (gh1, log) e in
  table_of st'.1 /\ st'.2 = log /\
  entries st'.1 ≡ₚ union_step (call_cmpfp cf) (copied es kcp vcp) (entries gh1) e.
Proof.
  intros Htab Hes Hcp He Hroom. unfold union_entry, union_step.
  pose proof (lookup_ex_count gh1 (key e) Htab) as Hc. rewrite <- He in Hc.
  destruct (ghash_lookup_entry_ex call_cmpfp gh1 (key e) (hash e) _) as [i|].
  - assert (kcount (call_cmpfp cf) (entries gh1) (key e) <> O) as Hne.
    { intros Hz. destruct Hc as [_ Hc]. by discriminate Hc. }
    destruct (0 <? Z.of_nat (kcount (call_cmpfp cf) (entries gh1) (key e))) eqn:Hpos;
      [done|]. bool_prop Hpos. lia.
  - destruct Hc as [Hc _]. rewrite Hc by done. simpl.
    destruct (copy_in_spec gh1 e es kcp vcp Htab Hes Hcp He Hroom) as [C1 C2].
    by split_and!.
Qed.

Lemma union_fold_spec kcp vcp kfp vfp es l :
  GSET_ENTRY_SIZE <= es -> key_copy_ok kcp ->
  forall st acc,
    (forall e, e ∈ l -> hash e = call_hashfp hf (key e)) ->
    table_of st.1 -> entries st.1 ≡ₚ acc ->
    Z.of_nat (length acc + length l) < 2 ^ 32 ->
    let st' := foldl (union_entry call_cmpfp false kcp vcp kfp vfp es) st l in
    table_of st'.1 /\ st'.2 = st.2 /\
    entries st'.1 ≡ₚ foldl (union_step (call_cmpfp cf) (copied es kcp vcp)) acc l.
Proof.
  intros Hes Hcp. induction l as [|e l IH]; intros [gh1 log] acc Hl Htab Hacc Hroom;
    simpl in *; [done|].
  destruct (union_entry_spec kcp vcp kfp vfp es gh1 log e Htab Hes Hcp) as (U1 & U2 & U3).
  { apply Hl, list_elem_of_here. }
  { rewrite (ok_count _ (tab_ok _ Htab)), (Permutation_length Hacc). lia. }
  destruct (IH (union_entry call_cmpfp false kcp vcp kfp vfp es (gh1, log) e)
               (union_step (call_cmpfp cf) (copied es kcp vcp) acc e))
    as (I1 & I2 & I3); try done.
  - intros x Hx. by apply Hl, list_elem_of_further.
  - rewrite U3. by apply union_step_perm.
  - unfold union_step. destruct (0 <? _); simpl; lia.
  - split; [exact I1|]. split; [|exact I3]. etrans; [exact I2 | exact U2].
Qed.

Lemma union_operands_spec kcp vcp kfp vfp es operands :
  GSET_ENTRY_SIZE <= es -> key_copy_ok kcp -> Forall table_of operands ->
  forall st acc,
    table_of st.1 -> entries st.1 ≡ₚ acc ->
    Z.of_nat (length acc + length (all_entries operands)) < 2 ^ 32 ->
    let st' := foldl (union_operand call_cmpfp false kcp vcp kfp vfp es) st operands in
    table_of st'.1 /\
    entries st'.1 ≡ₚ foldl (union_step (call_cmpfp cf) (copied es kcp vcp)) acc
                           (all_entries operands).
Proof.
  intros Hes Hcp Hops. induction Hops as [|ghn operands Hghn Hops IH];
    intros [gh1 log] acc Htab Hacc Hroom; [done|].
  rewrite all_entries_cons in *. rewrite length_app in Hroom.
  rewrite foldl_app. cbn [foldl].
  assert (exists log',
            union_operand call_cmpfp false kcp vcp kfp vfp es (gh1, log) ghn
            = foldl (union_entry call_cmpfp false kcp vcp kfp vfp es) (gh1, log')
                    (entries ghn)) as [log' ->].
  { eexists. unfold union_operand.
    by rewrite (ghash_foreach_entries ghn _ _ (ok_array _ (tab_ok _ Hghn))). }
  destruct (union_fold_spec kcp vcp kfp vfp es (entries ghn) Hes Hcp (gh1, log') acc)
    as (F1 & F2 & F3);
    [apply (tab_hashed _ Hghn) | exact Htab | exact Hacc | lia |].
  apply IH; [exact F1 | exact F3 |].
  pose proof (length_foldl_union_step (call_cmpfp cf) (copied es kcp vcp)
                (entries ghn) acc). lia.
Qed.

Lemma all_entries_app ops1 ops2 :
  all_entries (ops1 ++ ops2) = all_entries ops1 ++ all_entries ops2.
Proof. unfold all_entries. by rewrite fmap_app, concat_app. Qed.

Lemma kcount_all_entries_zero operands k :
  (forall o, o ∈ operands -> kcount (call_cmpfp cf) (entries o) k = O) ->
  kcount (call_cmpfp cf) (all_entries operands) k = O.
Proof.
  induction operands as [|o operands IH]; intros Hall; [done|].
  rewrite all_entries_cons, kcount_app, (Hall o) by apply list_elem_of_here.
  rewrite IH; [done|]. intros o' Ho'. by apply Hall, list_elem_of_further.
Qed.

(** C9: left-biased union in place.  The destination and the operands are
    well-formed tables without duplicate keys that share the hash and
    comparison callbacks, and the entry counts add up within [unsigned int].
    Then, with lookups read as entries: every key of the destination still
    has the entry it had; a key the destination lacked has a copy of the
    entry of the first operand, in argument order, that holds it; a key no
    table held is still absent.  So the keys of the result are the union of
    the keys of all the tables, and on a collision the destination wins. *)
Theorem union_left_biased kcp vcp gh1 gh2 arg :
  table_of gh1 -> uniq (call_cmpfp cf) (entries gh1) ->
  Forall table_of (gh2 :: arg) ->
  Forall (fun t => uniq (call_cmpfp cf) (entries t)) (gh2 :: arg) ->
  key_copy_ok kcp ->
  nentries gh1 + total_nentries (gh2 :: arg) < 2 ^ 32 ->
  let R := (BLI_ghash_union call_cmpfp kcp vcp (Some gh1) gh2 arg).1 in
  let lookup := lookup_entry_deref call_hashfp call_cmpfp in
  table_of R /\ uniq (call_cmpfp cf) (entries R) /\
  (forall k e, lookup gh1 k = Some e -> lookup R k = Some e) /\
  (forall k pre op post e,
     gh2 :: arg = pre ++ op :: post ->
     lookup gh1 k = None -> (forall o, o ∈ pre -> lookup o k = None) ->
     lookup op k = Some e ->
     lookup R k = Some (copied (entry_size gh1) kcp vcp e)) /\
  (forall k,
     lookup gh1 k = None -> (forall o, o ∈ gh2 :: arg -> lookup o k = None) ->
     lookup R k = None).
Proof.
  intros Htab Hu Hops Huops Hcp Hroom R lookup.
  set (cp := copied (entry_size gh1) kcp vcp).
  assert (forall e, call_cmpfp cf (key (cp e)) (key e) = false) as Hcpkey.
  { intros e. apply copied_key_keq; [apply Htab | done]. }
  destruct (union_operands_spec kcp vcp None None (entry_size gh1) (gh2 :: arg)
              (tab_esize _ Htab) Hcp Hops (gh1, []) (entries gh1)) as [R1 R2];
    [done | done | |].
  { rewrite Nat2Z.inj_add, (all_entries_length _ Hops),
      <- (ok_count _ (tab_ok _ Htab)). done. }
  change (foldl _ (gh1, []) (gh2 :: arg)).1 with R in R1, R2.
  fold cp in R2.
  assert (uniq (call_cmpfp cf) (entries R)) as HuR.
  { apply (uniq_perm _ _ _ (symmetry R2)).
    by apply (uniq_foldl_union_step _ cmp_sym cmp_trans cp Hcpkey). }
  split; [done|]. split; [done|]. split_and!.
  - intros k e Hl. apply (lookup_deref_Some gh1 k e Htab Hu) in Hl as [He Hk].
    apply (lookup_deref_Some R k e R1 HuR). split; [|done].
    rewrite R2. by apply elem_of_foldl_union_step.
  - intros k pre op post e Hsplit Hmiss Hpre Hl.
    assert (table_of op /\ uniq (call_cmpfp cf) (entries op)) as [Hop Huop].
    { rewrite Forall_forall in Hops, Huops. rewrite Hsplit in Hops, Huops.
      split; [apply Hops | apply Huops]; apply elem_of_app; right; apply list_elem_of_here. }
    apply (lookup_deref_Some op k e Hop Huop) in Hl as [He Hk].
    apply (lookup_deref_Some R k (cp e) R1 HuR). split.
    + rewrite R2, Hsplit, all_entries_app, all_entries_cons.
      apply list_elem_of_split in He as (l1 & l2 & Hl12). rewrite Hl12.
      rewrite <- !app_assoc. rewrite app_assoc. simpl.
      apply (first_added_foldl_union_step _ cmp_sym cmp_trans cp Hcpkey).
      * rewrite <- (kcount_keq _ cmp_sym cmp_trans _ k (key e) Hk).
        by apply (lookup_deref_None gh1 k Htab).
      * rewrite kcount_app.
        rewrite <- !(kcount_keq _ cmp_sym cmp_trans _ k (key e) Hk).
        rewrite kcount_all_entries_zero.
        -- specialize (Huop k). rewrite Hl12, kcount_app in Huop. simpl in Huop.
           rewrite Hk in Huop. lia.
        -- intros o Ho. apply (lookup_deref_None o k); [|by apply Hpre].
           rewrite Forall_forall in Hops. apply Hops. rewrite Hsplit.
           apply elem_of_app. by left.
    + apply (cmp_trans _ (key e)); [done|]. apply cmp_sym, Hcpkey.
  - intros k Hmiss Hall. apply (lookup_deref_None R k R1).
    rewrite (kcount_perm _ _ _ k R2).
    rewrite (kcount_foldl_union_step _ cmp_sym cmp_trans cp Hcpkey).
    apply (lookup_deref_None gh1 k Htab) in Hmiss. rewrite Hmiss. simpl.
    rewrite kcount_all_entries_zero; [done|].
    intros o Ho. apply (lookup_deref_None o k); [|by apply Hall].
    rewrite Forall_forall in Hops. by apply Hops.
Qed.

(** *** Symmetric difference: first pass *)

Lemma kcount_cons_copied es kcp vcp e l k :
  GSET_ENTRY_SIZE <= es -> key_copy_ok kcp ->
  kcount (call_cmpfp cf) (copied es kcp vcp e :: l) k
  = ((if call_cmpfp cf k (key e) then 0 else 1) + kcount (call_cmpfp cf) l k)%nat.
Proof.
  intros Hes Hcp.
  pose proof (kcount_copied es kcp vcp [e] k Hes Hcp) as H. simpl in *. lia.
Qed.

Lemma key_copy_ok_None : key_copy_ok None.
Proof. by intros f k. Qed.

Lemma symdiff_pass1_entry_spec es keys rem_keys e :
  table_of keys -> table_of rem_keys -> GSET_ENTRY_SIZE <= es ->
  hash e = call_hashfp hf (key e) ->
  nentries keys + 1 < 2 ^ 32 -> nentries rem_keys + 1 < 2 ^ 32 ->
  let st' := symdiff_pass1_entry call_cmpfp es (keys, rem_keys) e in
  let seen := 0 <? Z.of_nat (kcount (call_cmpfp cf) (entries keys) (key e)) in
  table_of st'.1 /\ table_of st'.2 /\
  (forall k, kcount (call_cmpfp cf) (entries st'.1) k
             = ((if seen then 0 else if call_cmpfp cf k (key e) then 0 else 1)
                + kcount (call_cmpfp cf) (entries keys) k)%nat) /\
  (forall k, kcount (call_cmpfp cf) (entries st'.2) k
             = ((if seen then if call_cmpfp cf k (key e) then 0 else 1 else 0)
                + kcount (call_cmpfp cf) (entries rem_keys) k)%nat) /\
  (length (entries st'.1) + length (entries st'.2)
   = 1 + length (entries keys) + length (entries rem_keys))%nat.
Proof.
  intros Hk Hr Hes He Hroomk Hroomr. unfold symdiff_pass1_entry.
  pose proof (lookup_ex_count keys (key e) Hk) as Hc. rewrite <- He in Hc.
  destruct (ghash_lookup_entry_ex call_cmpfp keys (key e) (hash e) _) as [i|].
  - assert ((0 <? Z.of_nat (kcount (call_cmpfp cf) (entries keys) (key e))) = true) as ->.
    { apply Z.ltb_lt. destruct (kcount (call_cmpfp cf) (entries keys) (key e)); [|lia].
      destruct Hc as [_ Hc]. by discriminate Hc. }
    destruct (copy_in_spec rem_keys e GSET_ENTRY_SIZE None None Hr)
      as [C1 C2]; [done | apply key_copy_ok_None | done | done |].
    cbn [fst snd]. split_and!; try done.
    + intros k. rewrite (kcount_perm _ _ _ k C2).
      apply kcount_cons_copied; [done | apply key_copy_ok_None].
    + rewrite (Permutation_length C2). simpl. lia.
  - destruct Hc as [Hc _]. rewrite Hc by done. simpl.
    destruct (copy_in_spec keys e es None None Hk)
      as [C1 C2]; [done | apply key_copy_ok_None | done | done |].
    split_and!; try done.
    + intros k. rewrite (kcount_perm _ _ _ k C2).
      apply kcount_cons_copied; [done | apply key_copy_ok_None].
    + rewrite (Permutation_length C2). simpl. lia.
Qed.

(** After the first pass over the entries [l]: [keys] gained one entry for
    each key it lacked and [l] holds, and every entry of [l] went either to
    [keys] or to [rem_keys]. *)
Definition pass1_counts (keys0 rem0 : list Entry) (l : list Entry)
    (keys' rem' : list Entry) : Prop :=
  (forall k, kcount (call_cmpfp cf) keys' k
             = if 0 <? Z.of_nat (kcount (call_cmpfp cf) keys0 k)
               then kcount (call_cmpfp cf) keys0 k
               else if 0 <? Z.of_nat (kcount (call_cmpfp cf) l k) then 1%nat else O) /\
  (forall k, (kcount (call_cmpfp cf) keys' k + kcount (call_cmpfp cf) rem' k
              = kcount (call_cmpfp cf) keys0 k + kcount (call_cmpfp cf) rem0 k
                + kcount (call_cmpfp cf) l k)%nat) /\
  (length keys' + length rem' = length keys0 + length rem0 + length l)%nat.

Lemma pass1_counts_nil keys0 rem0 : pass1_counts keys0 rem0 [] keys0 rem0.
Proof.
  split_and!; [|intros k; simpl; lia | simpl; lia].
  intros k. simpl. destruct (0 <? _) eqn:E; [done|]. bool_prop E. lia.
Qed.

Lemma pass1_counts_trans keys0 rem0 l1 keys1 rem1 l2 keys2 rem2 :
  pass1_counts keys0 rem0 l1 keys1 rem1 -> pass1_counts keys1 rem1 l2 keys2 rem2 ->
  pass1_counts keys0 rem0 (l1 ++ l2) keys2 rem2.
Proof.
  intros (A1 & A2 & A3) (B1 & B2 & B3). split_and!.
  - intros k. rewrite B1, A1, kcount_app.
    destruct (0 <? Z.of_nat (kcount (call_cmpfp cf) keys0 k)) eqn:E0.
    + by rewrite E0.
    + destruct (0 <? Z.of_nat (kcount (call_cmpfp cf) l1 k)) eqn:E1; simpl.
      * bool_prop E1.
        destruct (0 <? Z.of_nat (kcount (call_cmpfp cf) l1 k + kcount (call_cmpfp cf) l2 k))
          eqn:E; [done|]. bool_prop E. lia.
      * bool_prop E1. replace (kcount (call_cmpfp cf) l1 k) with O by lia. done.
  - intros k. rewrite B2, kcount_app. specialize (A2 k). lia.
  - rewrite length_app. lia.
Qed.

Lemma symdiff_pass1_fold_spec es l :
  GSET_ENTRY_SIZE <= es ->
  forall keys rem_keys,
    (forall e, e ∈ l -> hash e = call_hashfp hf (key e)) ->
    table_of keys -> table_of rem_keys ->
    Z.of_nat (length (entries keys) + length (entries rem_keys) + length l) < 2 ^ 32 ->
    let st' := foldl (symdiff_pass1_entry call_cmpfp es) (keys, rem_keys) l in
    table_of st'.1 /\ table_of st'.2 /\
    pass1_counts (entries keys) (entries rem_keys) l (entries st'.1) (entries st'.2).
Proof.
  intros Hes. induction l as [|e l IH]; intros keys rem_keys Hl Hk Hr Hroom.
  { simpl. split; [done|]. split; [done|]. apply pass1_counts_nil. }
  cbn [foldl].
  destruct (symdiff_pass1_entry_spec es keys rem_keys e Hk Hr Hes)
    as (E1 & E2 & E3 & E4 & E5).
  { apply Hl, list_elem_of_here. }
  { rewrite (ok_count _ (tab_ok _ Hk)). simpl in Hroom. lia. }
  { rewrite (ok_count _ (tab_ok _ Hr)). simpl in Hroom. lia. }
  destruct (symdiff_pass1_entry call_cmpfp es (keys, rem_keys) e) as [keys1 rem1] eqn:Hst.
  cbn [fst snd] in *.
  destruct (IH keys1 rem1) as (I1 & I2 & I3); try done.
  { intros x Hx. by apply Hl, list_elem_of_further. }
  { simpl in Hroom. lia. }
  split; [done|]. split; [done|].
  apply (pass1_counts_trans _ _ [e] (entries keys1) (entries rem1) l); [|done].
  split_and!.
  - intros k. rewrite E3. simpl.
    destruct (0 <? Z.of_nat (kcount (call_cmpfp cf) (entries keys) (key e))) eqn:Hseen;
      destruct (call_cmpfp cf k (key e)) eqn:Hke; simpl.
    + destruct (0 <? Z.of_nat (kcount (call_cmpfp cf) (entries keys) k)) eqn:E;
        [reflexivity|]. bool_prop E. lia.
    + rewrite (kcount_keq _ cmp_sym cmp_trans _ k (key e) Hke), Hseen. done.
    + destruct (0 <? Z.of_nat (kcount (call_cmpfp cf) (entries keys) k)) eqn:E;
        [reflexivity|]. bool_prop E. lia.
    + rewrite (kcount_keq _ cmp_sym cmp_trans _ k (key e) Hke), Hseen.
      bool_prop Hseen. lia.
  - intros k. rewrite E3, E4. simpl.
    destruct (0 <? _); destruct (call_cmpfp cf k (key e)); lia.
  - simpl. lia.
Qed.

Lemma symdiff_pass1_operands_spec gh1 es operands :
  GSET_ENTRY_SIZE <= es ->
  Forall table_of operands ->
  forall keys rem_keys log,
    table_of keys -> table_of rem_keys ->
    Z.of_nat (length (entries keys) + length (entries rem_keys)
              + length (all_entries operands)) < 2 ^ 32 ->
    let st' := foldl (symdiff_pass1_operand call_cmpfp gh1 es) (keys, rem_keys, log)
                     operands in
    table_of st'.1.1 /\ table_of st'.1.2 /\
    pass1_counts (entries keys) (entries rem_keys) (all_entries operands)
                 (entries st'.1.1) (entries st'.1.2).
Proof.
  intros Hes.
  induction 1 as [|ghn operands Hghn Hops IH]; intros keys rem_keys log Hk Hr Hroom.
  { simpl. split_and!; try done. apply pass1_counts_nil. }
  rewrite all_entries_cons in *. rewrite length_app in Hroom. cbn [foldl].
  assert (exists log',
            symdiff_pass1_operand call_cmpfp gh1 es (keys, rem_keys, log) ghn
            = ((foldl (symdiff_pass1_entry call_cmpfp es) (keys, rem_keys)
                      (entries ghn)), log')) as [log' ->].
  { eexists. unfold symdiff_pass1_operand.
    rewrite (ghash_foreach_entries ghn _ _ (ok_array _ (tab_ok _ Hghn))).
    by destruct (foldl _ (keys, rem_keys) (entries ghn)). }
  destruct (symdiff_pass1_fold_spec es (entries ghn) Hes
              keys rem_keys (tab_hashed _ Hghn) Hk Hr) as (F1 & F2 & F3); [lia|].
  destruct (foldl (symdiff_pass1_entry call_cmpfp es) (keys, rem_keys)
                  (entries ghn)) as [keys1 rem1].
  cbn [fst snd] in *.
  destruct (IH keys1 rem1 log' F1 F2) as (I1 & I2 & I5).
  { destruct F3 as (_ & _ & F3). lia. }
  split; [done|]. split; [done|].
  by apply (pass1_counts_trans _ _ _ (entries keys1) (entries rem1)).
Qed.

(** *** Symmetric difference: second pass *)

(** Unlinking, from a table without duplicate keys, the first entry of the
    bucket of [r] that the second pass matches against [r]: the table loses
    the key of [r] and nothing else. *)
Lemma symdiff_unlink_spec T keys r :
  table_of T -> uniq (call_cmpfp cf) (entries T) -> cmpfp keys = cf ->
  hash r = call_hashfp hf (key r) ->
  let b := ghash_bucket_hash T (hash r) in
  let T' := match chain_find (symdiff_matches call_cmpfp keys r) (bucket T b) with
            | Some i =>
                set_nentries (set_bucket T b (delete i (bucket T b)))
                  (uint (nentries (set_bucket T b (delete i (bucket T b))) - 1))
            | None => T
            end in
  table_of T' /\ uniq (call_cmpfp cf) (entries T') /\
  (forall k, kcount (call_cmpfp cf) (entries T') k
             = if call_cmpfp cf k (key r) then kcount (call_cmpfp cf) (entries T) k else O) /\
  (length (entries T') <= length (entries T))%nat.
Proof.
  intros Htab Hu Hcf Hr b T'.
  pose proof (bucket_hash_range T (hash r) (ok_array _ (tab_ok _ Htab))) as Hrange.
  fold b in Hrange.
  assert (forall x, x ∈ entries T -> call_cmpfp cf (key x) (key r) = false ->
                    x ∈ bucket T b /\ symdiff_matches call_cmpfp keys r x = true) as Hfound.
  { intros x Hx Hk.
    assert (hash x = hash r) as Hh.
    { rewrite (tab_hashed _ Htab x Hx), Hr. by apply cmp_hash. }
    split.
    - unfold b, ghash_bucket_hash. rewrite <- Hh.
      apply placed_bucket; [apply Htab | apply Htab | done].
    - unfold symdiff_matches. rewrite Hcf, Hh, Z.eqb_refl, Hk. done. }
  subst T'. destruct (chain_find _ (bucket T b)) as [i|] eqn:Hfind.
  - destruct (chain_find_Some _ _ _ Hfind) as (x & Hx & Hm & _).
    unfold symdiff_matches in Hm. rewrite Hcf in Hm. bool_prop Hm. destruct Hm as [Hh Hk].
    destruct (set_bucket_entries T b (ok_array _ (tab_ok _ Htab)) Hrange)
      as (pre & post & Hent & Hset).
    set (T1 := set_nentries (set_bucket T b (delete i (bucket T b)))
                            (uint (nentries T - 1))).
    change (set_nentries (set_bucket T b (delete i (bucket T b)))
              (uint (nentries (set_bucket T b (delete i (bucket T b))) - 1))) with T1.
    assert (entries T ≡ₚ x :: entries T1) as Hperm.
    { change (entries T1) with (entries (set_bucket T b (delete i (bucket T b)))).
      rewrite Hset, Hent. rewrite (delete_Permutation _ _ _ Hx) at 1.
      simpl. symmetry. apply Permutation_middle. }
    assert (forall k, kcount (call_cmpfp cf) (entries T) k
                      = ((if call_cmpfp cf k (key x) then 0 else 1)
                         + kcount (call_cmpfp cf) (entries T1) k)%nat) as Hcount.
    { intros k. by rewrite (kcount_perm _ _ _ k Hperm). }
    destruct Htab as [[Hpol Harr Hpl Hcnt Hmax] Hhf Hcmp Hhashed Hes].
    assert (0 < nentries T) as Hpos.
    { rewrite Hcnt, (Permutation_length Hperm). simpl. lia. }
    split_and!.
    + constructor; try done.
      * constructor.
        -- destruct Hpol. by constructor.
        -- exact (set_bucket_array_ok T b (delete i (bucket T b)) Harr).
        -- apply (set_bucket_placed T b (delete i (bucket T b)) Harr Hpl Hrange).
           intros e' He'%list_elem_of_delete_inv.
           pose proof (Hpl _ _ _ (bucket_lookup T b Harr Hrange) He'). lia.
        -- change (uint (nentries T - 1) = Z.of_nat (length (entries T1))).
           rewrite uint_small by lia.
           rewrite Hcnt, (Permutation_length Hperm). simpl. lia.
        -- change (uint (nentries T - 1) < 2 ^ 32). apply uint_range.
      * intros e' He'. apply Hhashed. rewrite Hperm. by apply list_elem_of_further.
    + intros k. specialize (Hu k). rewrite Hcount in Hu. lia.
    + intros k. specialize (Hu k). rewrite Hcount in Hu |- *.
      destruct (call_cmpfp cf k (key r)) eqn:Hkr.
      * destruct (call_cmpfp cf k (key x)) eqn:Hkx; [done|].
        rewrite (cmp_trans _ _ _ Hkx Hk) in Hkr. done.
      * assert (call_cmpfp cf k (key x) = false) as Hkx.
        { apply (cmp_trans _ _ _ Hkr). by apply cmp_sym. }
        rewrite Hkx in Hu. lia.
    + rewrite (Permutation_length Hperm). simpl. lia.
  - rewrite chain_find_None in Hfind.
    split; [done|]. split; [done|]. split; [|done].
    intros k. destruct (call_cmpfp cf k (key r)) eqn:Hkr; [done|].
    apply kcount_zero. intros x Hx.
    destruct (call_cmpfp cf k (key x)) eqn:Hkx; [done|].
    destruct (Hfound x Hx) as [Hb Hm].
    { apply (cmp_trans _ k); [by apply cmp_sym | done]. }
    rewrite (Hfind x Hb) in Hm. done.
Qed.

(** What the second pass has done to a table after the entries [rl] of
    [rem_keys]: the keys [rl] holds are gone, the others are as they were. *)
Definition pass2_counts (before rl after : list Entry) : Prop :=
  (forall k, kcount (call_cmpfp cf) after k
             = if 0 <? Z.of_nat (kcount (call_cmpfp cf) rl k) then O
               else kcount (call_cmpfp cf) before k) /\
  (length after <= length before)%nat.

Lemma symdiff_pass2_entry_spec kfp vfp keys gh1 log r :
  table_of keys -> uniq (call_cmpfp cf) (entries keys) ->
  table_of gh1 -> uniq (call_cmpfp cf) (entries gh1) ->
  hash r = call_hashfp hf (key r) ->
  let st' := symdiff_pass2_entry call_cmpfp kfp vfp (keys, gh1, log) r in
  (table_of st'.1.1 /\ uniq (call_cmpfp cf) (entries st'.1.1) /\
   pass2_counts (entries keys) [r] (entries st'.1.1)) /\
  (table_of st'.1.2 /\ uniq (call_cmpfp cf) (entries st'.1.2) /\
   pass2_counts (entries gh1) [r] (entries st'.1.2)).
Proof.
  intros Hk Huk Hg Hug Hr.
  assert (forall before after,
            (forall k, kcount (call_cmpfp cf) after k
                       = if call_cmpfp cf k (key r) then kcount (call_cmpfp cf) before k
                         else O) ->
            (length after <= length before)%nat ->
            pass2_counts before [r] after) as Hcounts.
  { intros before after Hc Hlen. split; [|done]. intros k. rewrite Hc. simpl.
    by destruct (call_cmpfp cf k (key r)). }
  pose proof (symdiff_unlink_spec keys keys r Hk Huk (tab_cmpfp _ Hk) Hr) as HK.
  cbv zeta in HK. unfold symdiff_pass2_entry. cbv zeta.
  destruct (chain_find (symdiff_matches call_cmpfp keys r)
                       (bucket keys (ghash_bucket_hash keys (hash r)))) as [i|].
  - destruct HK as (K1 & K2 & K3 & K4).
    pose proof (symdiff_unlink_spec gh1 _ r Hg Hug (tab_cmpfp _ K1) Hr) as HG.
    cbv zeta in HG.
    match goal with |- context [chain_find ?m (bucket gh1 ?b)] =>
      destruct (chain_find m (bucket gh1 b)) as [j|] end.
    + destruct HG as (G1 & G2 & G3 & G4). cbn [fst snd].
      split; split_and!; try done; by apply Hcounts.
    + destruct HG as (G1 & G2 & G3 & G4). cbn [fst snd].
      split; split_and!; try done; by apply Hcounts.
  - destruct HK as (K1 & K2 & K3 & K4).
    pose proof (symdiff_unlink_spec gh1 keys r Hg Hug (tab_cmpfp _ K1) Hr) as HG.
    cbv zeta in HG.
    match goal with |- context [chain_find ?m (bucket gh1 ?b)] =>
      destruct (chain_find m (bucket gh1 b)) as [j|] end.
    + destruct HG as (G1 & G2 & G3 & G4). cbn [fst snd].
      split; split_and!; try done; by apply Hcounts.
    + destruct HG as (G1 & G2 & G3 & G4). cbn [fst snd].
      split; split_and!; try done; by apply Hcounts.
Qed.

Lemma pass2_counts_nil l : pass2_counts l [] l.
Proof. by split. Qed.

Lemma pass2_counts_cons l0 r l1 rl l2 :
  pass2_counts l0 [r] l1 -> pass2_counts l1 rl l2 -> pass2_counts l0 (r :: rl) l2.
Proof.
  intros [A1 A2] [B1 B2]. split; [|lia]. intros k. rewrite B1, A1. simpl.
  destruct (call_cmpfp cf k (key r)); simpl.
  - done.
  - destruct (0 <? Z.of_nat (kcount (call_cmpfp cf) rl k)); [done|].
    by destruct (0 <? Z.of_nat (S (kcount (call_cmpfp cf) rl k))) eqn:E.
Qed.

Lemma symdiff_pass2_fold_spec kfp vfp rl :
  forall keys gh1 log,
    (forall r, r ∈ rl -> hash r = call_hashfp hf (key r)) ->
    table_of keys -> uniq (call_cmpfp cf) (entries keys) ->
    table_of gh1 -> uniq (call_cmpfp cf) (entries gh1) ->
    let st' := foldl (symdiff_pass2_entry call_cmpfp kfp vfp) (keys, gh1, log) rl in
    (table_of st'.1.1 /\ uniq (call_cmpfp cf) (entries st'.1.1) /\
     pass2_counts (entries keys) rl (entries st'.1.1)) /\
    (table_of st'.1.2 /\ uniq (call_cmpfp cf) (entries st'.1.2) /\
     pass2_counts (entries gh1) rl (entries st'.1.2)).
Proof.
  induction rl as [|r rl IH]; intros keys gh1 log Hrl Hk Huk Hg Hug.
  { simpl. split; split_and!; try done; apply pass2_counts_nil. }
  cbn [foldl].
  destruct (symdiff_pass2_entry_spec kfp vfp keys gh1 log r Hk Huk Hg Hug)
    as [(K1 & K2 & K3) (G1 & G2 & G3)].
  { apply Hrl, list_elem_of_here. }
  destruct (symdiff_pass2_entry call_cmpfp kfp vfp (keys, gh1, log) r)
    as [[keys1 gh1'] log1].
  cbn [fst snd] in *.
  destruct (IH keys1 gh1' log1) as [(K1' & K2' & K3') (G1' & G2' & G3')]; try done.
  { intros x Hx. by apply Hrl, list_elem_of_further. }
  split; split_and!; try done; by eapply pass2_counts_cons.
Qed.

(** *** Symmetric difference: final pass *)

Lemma symdiff_pass3_fold_spec kcp vcp es l :
  GSET_ENTRY_SIZE <= es -> key_copy_ok kcp ->
  forall gh1 acc,
    (forall e, e ∈ l -> hash e = call_hashfp hf (key e)) ->
    table_of gh1 -> entries gh1 ≡ₚ acc ->
    Z.of_nat (length acc + length l) < 2 ^ 32 ->
    let gh1' := foldl (symdiff_pass3_entry call_cmpfp kcp vcp es) gh1 l in
    table_of gh1' /\
    entries gh1' ≡ₚ foldl (union_step (call_cmpfp cf) (copied es kcp vcp)) acc l.
Proof.
  intros Hes Hcp. induction l as [|e l IH]; intros gh1 acc Hl Htab Hacc Hroom;
    [done|].
  cbn [foldl].
  assert (table_of (symdiff_pass3_entry call_cmpfp kcp vcp es gh1 e) /\
          entries (symdiff_pass3_entry call_cmpfp kcp vcp es gh1 e)
            ≡ₚ union_step (call_cmpfp cf) (copied es kcp vcp) acc e) as [S1 S2].
  { unfold symdiff_pass3_entry, union_step.
    rewrite <- (kcount_perm _ _ _ (key e) Hacc).
    pose proof (lookup_ex_count gh1 (key e) Htab) as Hc.
    rewrite <- (Hl e (list_elem_of_here _ _)) in Hc.
    destruct (ghash_lookup_entry_ex call_cmpfp gh1 (key e) (hash e) _) as [i|].
    - destruct (0 <? Z.of_nat (kcount (call_cmpfp cf) (entries gh1) (key e))) eqn:Hpos;
        [done|]. bool_prop Hpos.
      destruct Hc as [_ Hc]. discriminate Hc. lia.
    - destruct Hc as [Hc _]. rewrite Hc by done. simpl.
      destruct (copy_in_spec gh1 e es kcp vcp Htab Hes Hcp) as [C1 C2].
      + apply Hl, list_elem_of_here.
      + rewrite (ok_count _ (tab_ok _ Htab)), (Permutation_length Hacc).
        simpl in Hroom. lia.
      + split; [done|]. rewrite C2. by constructor. }
  apply IH; try done.
  - intros x Hx. by apply Hl, list_elem_of_further.
  - unfold union_step. simpl in Hroom. destruct (0 <? _); simpl; lia.
Qed.

(** *** Symmetric difference: the result *)

(** How many of the tables hold a key. *)
Definition holders (tables : list GHash) (k : Z) : nat :=
  length (filter (fun t => BLI_ghash_haskey call_hashfp call_cmpfp t k = true) tables).

Lemma holders_count tables k :
  Forall table_of tables ->
  Forall (fun t => uniq (call_cmpfp cf) (entries t)) tables ->
  kcount (call_cmpfp cf) (all_entries tables) k = holders tables k.
Proof.
  unfold holders. induction tables as [|t tables IH]; intros Htabs Hus; [done|].
  apply Forall_cons in Htabs as [Ht Htabs]. apply Forall_cons in Hus as [Hu Hus].
  rewrite all_entries_cons, kcount_app, IH by done.
  pose proof (haskey_count t k Ht) as Hhas. specialize (Hu k).
  rewrite filter_cons.
  destruct (decide (BLI_ghash_haskey call_hashfp call_cmpfp t k = true)) as [Hy|Hn].
  - apply Hhas in Hy. simpl. lia.
  - destruct (kcount (call_cmpfp cf) (entries t) k) eqn:E; [done|].
    destruct Hn. apply Hhas. lia.
Qed.

(** The counts of the result of the three passes. *)
Lemma symdiff_counts (g0 s keys1 rem1 keys2 g2 r : nat) (b1 b2 b3 b4 b5 : bool) :
  (g0 <= 1)%nat ->
  b1 = (0 <? Z.of_nat g0) -> b2 = (0 <? Z.of_nat s) -> b3 = (0 <? Z.of_nat rem1) ->
  b4 = (0 <? Z.of_nat g2) -> b5 = (0 <? Z.of_nat keys2) ->
  keys1 = (if b1 then g0 else if b2 then 1%nat else O) ->
  (keys1 + rem1 = g0 + s)%nat ->
  keys2 = (if b3 then O else keys1) ->
  g2 = (if b3 then O else g0) ->
  r = (if b4 then g2 else if b5 then 1%nat else O) ->
  r = if Nat.eqb (g0 + s) 1 then 1%nat else O.
Proof.
  intros Hg0 -> -> -> -> -> -> Hsum -> -> ->.
  destruct (Nat.eqb_spec (g0 + s) 1) as [Heq|Hne];
    repeat match goal with
           | |- context [0 <? ?x] => destruct (Z.ltb_spec 0 x)
           | H : context [0 <? ?x] |- _ => destruct (Z.ltb_spec 0 x)
           end; lia.
Qed.

(** The passes of the symmetric difference, on any list of operands. *)
Lemma symdiff_passes_spec kcp vcp kfp vfp gh1 operands :
  Forall table_of (gh1 :: operands) ->
  Forall (fun t => uniq (call_cmpfp cf) (entries t)) (gh1 :: operands) ->
  key_copy_ok kcp ->
  2 * nentries gh1 + total_nentries operands < 2 ^ 32 ->
  let R := (symdiff_passes call_cmpfp kcp vcp kfp vfp gh1 operands).1 in
  table_of R /\ uniq (call_cmpfp cf) (entries R) /\
  (forall k, BLI_ghash_haskey call_hashfp call_cmpfp R k = true
             <-> holders (gh1 :: operands) k = 1%nat).
Proof.
  intros Htabs Hus Hcp Hroom.
  apply Forall_cons in Htabs as [Htab Hops]. apply Forall_cons in Hus as [Hu Huops].
  pose proof (all_entries_length _ Hops) as Hlen.
  pose proof (ok_count _ (tab_ok _ Htab)) as Hcnt1.
  unfold symdiff_passes.
  (* the scratch tables *)
  destruct (ghash_copy_spec gh1 None None Htab key_copy_ok_None) as (K1 & K2 & K3 & K4).
  set (keys0 := ghash_copy gh1 None None) in *.
  destruct (ghash_new_ok (hashfp gh1) (cmpfp gh1) 64 GSET_ENTRY_SIZE)
    as (N1 & N2 & N3 & N4 & N5).
  set (rem0 := ghash_new (hashfp gh1) (cmpfp gh1) 64 GSET_ENTRY_SIZE) in *.
  assert (table_of rem0) as Hrem0.
  { constructor.
    - exact N1.
    - rewrite N3. apply Htab.
    - rewrite N4. apply Htab.
    - intros e He. rewrite N2 in He. by apply elem_of_nil in He.
    - by rewrite N5. }
  (* first pass *)
  pose proof (tab_esize _ Htab) as Hes1.
  set (es1 := entry_size gh1) in *.
  destruct (symdiff_pass1_operands_spec gh1 es1 operands Hes1 Hops keys0 rem0
              [] K1 Hrem0) as (P1 & P2 & P4 & P5 & P6).
  { rewrite N2, (Permutation_length K2), length_fmap. simpl length at 2. lia. }
  destruct (foldl (symdiff_pass1_operand call_cmpfp gh1 es1) _ operands)
    as [[keys1 rem1] log1].
  cbn [fst snd] in *.
  rewrite N2 in P5, P6. simpl in P5, P6.
  assert (forall k, kcount (call_cmpfp cf) (entries keys0) k
                    = kcount (call_cmpfp cf) (entries gh1) k) as Hk0.
  { intros k. rewrite (kcount_perm _ _ _ k K2).
    apply kcount_copied; [apply Htab | apply key_copy_ok_None]. }
  assert (uniq (call_cmpfp cf) (entries keys1)) as Hu1.
  { intros k. rewrite P4, Hk0. specialize (Hu k).
    destruct (0 <? _); [done|]. destruct (0 <? _); lia. }
  (* second pass *)
  rewrite (ghash_foreach_entries rem1 _ _ (ok_array _ (tab_ok _ P2))).
  destruct (symdiff_pass2_fold_spec kfp vfp (entries rem1) keys1 gh1 log1
              (tab_hashed _ P2) P1 Hu1 Htab Hu)
    as [(Q1 & Q2 & Q3 & Q4) (G1 & G2 & G3 & G4)].
  destruct (foldl (symdiff_pass2_entry call_cmpfp kfp vfp) _ (entries rem1))
    as [[keys2 gh1'] log2].
  cbn [fst snd] in *.
  (* final pass *)
  rewrite (ghash_foreach_entries keys2 _ _ (ok_array _ (tab_ok _ Q1))).
  destruct (symdiff_pass3_fold_spec kcp vcp es1 (entries keys2) Hes1 Hcp gh1'
              (entries gh1') (tab_hashed _ Q1) G1 (reflexivity _)) as [F1 F2].
  { rewrite (Permutation_length K2), length_fmap in P6. lia. }
  destruct (table_of_expand _ true F1) as [E1 E2].
  set (R := ghash_expand_buckets _ _ false true) in *.
  assert (forall k, kcount (call_cmpfp cf) (entries R) k
                    = if Nat.eqb (holders (gh1 :: operands) k) 1 then 1%nat else O)
    as Hcount.
  { intros k. rewrite <- holders_count by (by constructor).
    rewrite all_entries_cons, kcount_app.
    rewrite (kcount_perm _ _ _ k E2), (kcount_perm _ _ _ k F2).
    rewrite (kcount_foldl_union_step _ cmp_sym cmp_trans (copied es1 kcp vcp)
               (fun e => copied_key_keq es1 kcp vcp e Hes1 Hcp)).
    eapply (symdiff_counts _ _ (kcount (call_cmpfp cf) (entries keys1) k)
              (kcount (call_cmpfp cf) (entries rem1) k)
              (kcount (call_cmpfp cf) (entries keys2) k)
              (kcount (call_cmpfp cf) (entries gh1') k));
      [apply Hu | reflexivity | reflexivity | reflexivity | reflexivity | reflexivity
       | by rewrite P4, Hk0 | rewrite P5, Hk0; lia | apply Q3 | apply G3 | reflexivity]. }
  split; [done|]. split.
  - intros k. rewrite Hcount. destruct (Nat.eqb _ 1); lia.
  - intros k. rewrite (haskey_count R k E1), Hcount.
    destruct (Nat.eqb_spec (holders (gh1 :: operands) k) 1); lia.
Qed.

Lemma total_nentries_nonneg tables : Forall table_of tables -> 0 <= total_nentries tables.
Proof. intros H. rewrite <- (all_entries_length _ H). lia. Qed.

Lemma holders_copy kcp vcp gh tables k :
  table_of gh -> key_copy_ok kcp ->
  holders (ghash_copy gh kcp vcp :: tables) k = holders (gh :: tables) k.
Proof.
  intros Htab Hcp. destruct (ghash_copy_spec gh kcp vcp Htab Hcp) as (C1 & C2 & _).
  unfold holders. rewrite !filter_cons.
  pose proof (haskey_count _ k C1) as H1. pose proof (haskey_count gh k Htab) as H2.
  rewrite (kcount_perm _ _ _ k C2), kcount_copied in H1 by (apply Htab || done).
  destruct (decide (BLI_ghash_haskey call_hashfp call_cmpfp (ghash_copy gh kcp vcp) k = true))
    as [Hy|Hn];
    destruct (decide (BLI_ghash_haskey call_hashfp call_cmpfp gh k = true)) as [Hy'|Hn'];
    try done.
  - destruct Hn'. by apply H2, H1.
  - destruct Hn. by apply H1, H2.
Qed.

(** C3: symmetric difference, in place ([gh1] given) or into a copy of the
    first operand ([gh1] NULL).  The tables are well-formed, without
    duplicate keys, share the hash and comparison callbacks, and leave room
    in [unsigned int] for the scratch tables.  Then the result is a
    well-formed table without duplicate keys, and it holds a key exactly when
    exactly one of the tables holds it. *)
Theorem symmetric_difference_exactly_one kcp vcp kfp vfp gh1 gh2 arg :
  let tables := match gh1 with Some g => g :: gh2 :: arg | None => gh2 :: arg end in
  Forall table_of tables ->
  Forall (fun t => uniq (call_cmpfp cf) (entries t)) tables ->
  key_copy_ok kcp ->
  2 * total_nentries tables < 2 ^ 32 ->
  let R := (BLI_ghash_symmetric_difference call_cmpfp kcp vcp kfp vfp gh1 gh2 arg).1 in
  table_of R /\ uniq (call_cmpfp cf) (entries R) /\
  (forall k, BLI_ghash_haskey call_hashfp call_cmpfp R k = true
             <-> holders tables k = 1%nat).
Proof.
  intros tables Htabs Hus Hcp Hroom.
  unfold BLI_ghash_symmetric_difference, ghash_symmetric_difference.
  destruct gh1 as [g|]; cbn [setop_prologue]; subst tables.
  - apply symdiff_passes_spec; try done.
    pose proof (Forall_inv_tail Htabs) as Hops.
    pose proof (total_nentries_nonneg _ Hops).
    pose proof (ok_count _ (tab_ok _ (Forall_inv Htabs))).
    unfold total_nentries in *. cbn [foldr] in *. lia.
  - pose proof (Forall_inv Htabs) as Htab2. pose proof (Forall_inv_tail Htabs) as Hops.
    destruct (ghash_copy_spec gh2 kcp vcp Htab2 Hcp) as (C1 & C2 & C3 & C4).
    destruct (symdiff_passes_spec kcp vcp kfp vfp (ghash_copy gh2 kcp vcp) arg)
      as (R1 & R2 & R3); try done.
    + by constructor.
    + constructor; [|by apply (Forall_inv_tail Hus)].
      intros k. rewrite (kcount_perm _ _ _ k C2), kcount_copied by (apply Htab2 || done).
      apply (Forall_inv Hus).
    + rewrite C3. pose proof (total_nentries_nonneg _ Hops).
      pose proof (ok_count _ (tab_ok _ Htab2)).
      unfold total_nentries in *. cbn [foldr] in *. lia.
    + split; [done|]. split; [done|]. intros k. rewrite R3.
      by rewrite holders_copy.
Qed.

(* ===================================================================== *)
(** ** Single-key operations on a table without duplicate keys *)

(** The entry a lookup returns depends on the entries only, not on how they
    are spread over the buckets. *)
Lemma lookup_deref_perm gh gh' k :
  table_of gh -> table_of gh' -> uniq (call_cmpfp cf) (entries gh) ->
  entries gh' ≡ₚ entries gh ->
  lookup_entry_deref call_hashfp call_cmpfp gh' k
  = lookup_entry_deref call_hashfp call_cmpfp gh k.
Proof.
  intros Htab Htab' Hu Hp.
  assert (uniq (call_cmpfp cf) (entries gh')) as Hu'
    by (by apply (uniq_perm _ _ _ (symmetry Hp))).
  destruct (lookup_entry_deref call_hashfp call_cmpfp gh k) as [e|] eqn:Hl.
  - apply lookup_deref_Some in Hl as [He Hk]; try done.
    apply lookup_deref_Some; try done. split; [by rewrite Hp|done].
  - apply lookup_deref_None in Hl; [|done]. apply lookup_deref_None; [done|].
    by rewrite (kcount_perm _ _ _ k Hp).
Qed.

(** A table that holds one entry more, under a key it did not hold. *)
Lemma lookup_deref_cons gh gh' e :
  table_of gh -> table_of gh' -> uniq (call_cmpfp cf) (entries gh) ->
  entries gh' ≡ₚ e :: entries gh -> kcount (call_cmpfp cf) (entries gh) (key e) = O ->
  uniq (call_cmpfp cf) (entries gh') /\
  forall k, lookup_entry_deref call_hashfp call_cmpfp gh' k
            = if call_cmpfp cf k (key e)
              then lookup_entry_deref call_hashfp call_cmpfp gh k
              else Some e.
Proof.
  intros Htab Htab' Hu Hp Hnew.
  assert (uniq (call_cmpfp cf) (entries gh')) as Hu'.
  { intros k. rewrite (kcount_perm _ _ _ k Hp). simpl.
    destruct (call_cmpfp cf k (key e)) eqn:Hk; [apply Hu|].
    rewrite (kcount_keq _ cmp_sym cmp_trans _ k (key e) Hk), Hnew. lia. }
  split; [done|]. intros k.
  destruct (call_cmpfp cf k (key e)) eqn:Hk.
  - destruct (lookup_entry_deref call_hashfp call_cmpfp gh k) as [x|] eqn:Hl.
    + apply lookup_deref_Some in Hl as [Hx Hkx]; try done.
      apply lookup_deref_Some; try done. split; [|done].
      rewrite Hp. by apply list_elem_of_further.
    + apply lookup_deref_None in Hl; [|done]. apply lookup_deref_None; [done|].
      rewrite (kcount_perm _ _ _ k Hp). simpl. by rewrite Hk, Hl.
  - apply lookup_deref_Some; try done. split; [|done].
    rewrite Hp. apply list_elem_of_here.
Qed.

(** A table that holds one entry less. *)
Lemma lookup_deref_uncons gh gh' e :
  table_of gh -> table_of gh' -> uniq (call_cmpfp cf) (entries gh) ->
  entries gh ≡ₚ e :: entries gh' ->
  uniq (call_cmpfp cf) (entries gh') /\
  forall k, lookup_entry_deref call_hashfp call_cmpfp gh' k
            = if call_cmpfp cf k (key e)
              then lookup_entry_deref call_hashfp call_cmpfp gh k
              else None.
Proof.
  intros Htab Htab' Hu Hp.
  destruct (uniq_cons_inv (call_cmpfp cf) cmp_refl e (entries gh')) as [Hu' Hgone].
  { by apply (uniq_perm _ _ _ Hp). }
  split; [done|]. intros k.
  destruct (lookup_deref_cons gh' gh e Htab' Htab Hu' Hp Hgone) as [_ Hl].
  rewrite Hl. destruct (call_cmpfp cf k (key e)) eqn:Hk; [done|].
  apply lookup_deref_None; [done|].
  by rewrite (kcount_keq _ cmp_sym cmp_trans _ k (key e) Hk).
Qed.

Lemma haskey_deref gh k :
  BLI_ghash_haskey call_hashfp call_cmpfp gh k
  = bool_decide (is_Some (lookup_entry_deref call_hashfp call_cmpfp gh k)).
Proof.
  unfold BLI_ghash_haskey, lookup_entry_deref, ghash_lookup_entry, ghash_lookup_entry_ex,
    chain_lookup, entry_at.
  destruct (chain_find _ _) as [i|] eqn:Hf; simpl; [|done].
  apply chain_find_Some in Hf as (e & He & _). by rewrite He.
Qed.

Lemma ghash_insert_ex_eq gh k v h b :
  (ghash_insert_ex call_hashfp call_cmpfp gh k v h b).1 =
  ghash_expand_buckets
    (set_nentries (bucket_link gh b (mkEntry h k (Some v))) (uint (nentries gh + 1)))
    (uint (nentries gh + 1)) false false.
Proof. reflexivity. Qed.

Lemma ghash_insert_ex_keyonly_eq gh k h b :
  (ghash_insert_ex_keyonly call_hashfp call_cmpfp gh k h b).1 =
  ghash_expand_buckets
    (set_nentries (bucket_link gh b (mkEntry h k None)) (uint (nentries gh + 1)))
    (uint (nentries gh + 1)) false false.
Proof. reflexivity. Qed.

(** [BLI_ghash_insert] and [BLI_gset_insert] link one new entry. *)
Lemma insert_spec gh k v :
  table_of gh -> nentries gh + 1 < 2 ^ 32 ->
  let gh' := (BLI_ghash_insert call_hashfp call_cmpfp gh k v).1 in
  table_of gh' /\ entries gh' ≡ₚ mkEntry (call_hashfp hf k) k (Some v) :: entries gh /\
  nentries gh' = nentries gh + 1 /\ flag gh' = flag gh /\ entry_size gh' = entry_size gh.
Proof.
  intros [Hok Hh Hc Hhashed Hesz] Hroom.
  unfold BLI_ghash_insert, ghash_insert, ghash_keyhash.
  rewrite ghash_insert_ex_eq, Hh.
  destruct (link_entry_spec gh (ghash_bucket_hash gh (call_hashfp hf k))
              (mkEntry (call_hashfp hf k) k (Some v)) Hok eq_refl Hroom)
    as (L1 & L2 & L3 & (I1 & I2 & I3 & I4 & I5)).
  simpl in I1, I2, I4, I5.
  split_and!; try done. constructor; try done; try congruence.
  intros x Hx. rewrite L2 in Hx.
  apply elem_of_cons in Hx as [->|Hx]; [done|by apply Hhashed].
Qed.

Lemma insert_keyonly_spec gs k :
  table_of gs -> nentries gs + 1 < 2 ^ 32 ->
  let gs' := (BLI_gset_insert call_hashfp call_cmpfp gs k).1 in
  table_of gs' /\ entries gs' ≡ₚ mkEntry (call_hashfp hf k) k None :: entries gs /\
  nentries gs' = nentries gs + 1 /\ flag gs' = flag gs /\ entry_size gs' = entry_size gs.
Proof.
  intros [Hok Hh Hc Hhashed Hesz] Hroom.
  unfold BLI_gset_insert, ghash_keyhash.
  rewrite ghash_insert_ex_keyonly_eq, Hh.
  destruct (link_entry_spec gs (ghash_bucket_hash gs (call_hashfp hf k))
              (mkEntry (call_hashfp hf k) k None) Hok eq_refl Hroom)
    as (L1 & L2 & L3 & (I1 & I2 & I3 & I4 & I5)).
  simpl in I1, I2, I4, I5.
  split_and!; try done. constructor; try done; try congruence.
  intros x Hx. rewrite L2 in Hx.
  apply elem_of_cons in Hx as [->|Hx]; [done|by apply Hhashed].
Qed.

Lemma insert_lookup_spec gh k v :
  table_of gh -> uniq (call_cmpfp cf) (entries gh) ->
  BLI_ghash_haskey call_hashfp call_cmpfp gh k = false ->
  nentries gh + 1 < 2 ^ 32 ->
  let gh' := (BLI_ghash_insert call_hashfp call_cmpfp gh k v).1 in
  table_of gh' /\ uniq (call_cmpfp cf) (entries gh') /\
  nentries gh' = nentries gh + 1 /\
  forall k', lookup_entry_deref call_hashfp call_cmpfp gh' k'
             = if call_cmpfp cf k' k
               then lookup_entry_deref call_hashfp call_cmpfp gh k'
               else Some (mkEntry (call_hashfp hf k) k (Some v)).
Proof.
  intros Htab Hu Habs Hroom gh'.
  destruct (insert_spec gh k v Htab Hroom) as (T & P & N & _). fold gh' in T, P, N.
  assert (kcount (call_cmpfp cf) (entries gh) k = O) as Hnew.
  { destruct (kcount (call_cmpfp cf) (entries gh) k) eqn:Hc; [done|].
    assert (BLI_ghash_haskey call_hashfp call_cmpfp gh k = true)
      by (apply haskey_count; [done|lia]).
    congruence. }
  destruct (lookup_deref_cons gh gh' _ Htab T Hu P Hnew) as [Hu' Hl]. simpl in Hl.
  by split_and!.
Qed.

(** X1: [BLI_ghash_insert] of a key the table does not hold, into a
    well-formed table without duplicate keys.  The table stays well-formed
    and free of duplicates and holds one entry more; [BLI_ghash_size], which
    returns the count as an [int], is one more as long as the new count is
    below [2^31] and negative from there on.  A lookup of the key, or of any
    key the comparison takes as equal to it, finds the new entry and returns
    the value; the lookup of every other key is what it was. *)
Theorem insert_then_lookup gh k v :
  table_of gh -> uniq (call_cmpfp cf) (entries gh) ->
  BLI_ghash_haskey call_hashfp call_cmpfp gh k = false ->
  nentries gh + 1 < 2 ^ 32 ->
  let gh' := (BLI_ghash_insert call_hashfp call_cmpfp gh k v).1 in
  table_of gh' /\ uniq (call_cmpfp cf) (entries gh') /\
  nentries gh' = nentries gh + 1 /\
  BLI_ghash_size gh'
    = (if nentries gh + 1 <? 2 ^ 31 then nentries gh + 1 else nentries gh + 1 - 2 ^ 32) /\
  (nentries gh + 1 < 2 ^ 31 -> BLI_ghash_size gh' = BLI_ghash_size gh + 1) /\
  (forall k', call_cmpfp cf k' k = false ->
     lookup_entry_deref call_hashfp call_cmpfp gh' k'
       = Some (mkEntry (call_hashfp hf k) k (Some v)) /\
     (BLI_ghash_lookup call_hashfp call_cmpfp gh' k').1 = Some v) /\
  (forall k', call_cmpfp cf k' k = true ->
     lookup_entry_deref call_hashfp call_cmpfp gh' k'
     = lookup_entry_deref call_hashfp call_cmpfp gh k').
Proof.
  intros Htab Hu Habs Hroom gh'.
  destruct (insert_lookup_spec gh k v Htab Hu Habs Hroom) as (T & U & N & L).
  fold gh' in T, U, N, L.
  pose proof (ok_count _ (tab_ok _ Htab)) as Hcnt.
  split_and!; try done.
  - unfold BLI_ghash_size. rewrite N. apply to_int_eq. lia.
  - intros Hsmall. unfold BLI_ghash_size. rewrite N, !to_int_small; lia.
  - intros k' Hk'. unfold BLI_ghash_lookup. cbn [fst]. by rewrite L, Hk'.
  - intros k' Hk'. by rewrite L, Hk'.
Qed.

(** What [ghash_remove_ex] does with a key the table holds. *)
Lemma remove_ex_spec gh k kfp vfp e :
  table_of gh -> uniq (call_cmpfp cf) (entries gh) ->
  lookup_entry_deref call_hashfp call_cmpfp gh k = Some e ->
  exists gh',
    ghash_remove_ex call_cmpfp gh k kfp vfp (call_hashfp hf k)
                    (ghash_bucket_hash gh (call_hashfp hf k))
    = (Some e, gh', call_free kfp (Some (key e)) ++ call_free vfp (val e)) /\
    table_of gh' /\ entries gh ≡ₚ e :: entries gh' /\ nentries gh' = nentries gh - 1 /\
    flag gh' = flag gh.
Proof.
  intros Htab Hu Hl. pose proof Htab as [Hok Hh Hc Hhashed Hesz].
  revert Hl. unfold lookup_entry_deref, ghash_lookup_entry, ghash_keyhash,
    ghash_lookup_entry_ex, entry_at. rewrite Hh.
  destruct (chain_lookup _ k _ _) as [i|] eqn:Hi; simpl; [|done]. intros He.
  pose proof (bucket_hash_range gh (call_hashfp hf k) (ok_array _ Hok)) as Hrange.
  destruct (unlink_entry_spec gh _ i e Hok Hrange He)
    as (U1 & U2 & U3 & (I1 & I2 & I3 & I4 & I5)).
  simpl in I1, I2, I4, I5.
  set (b := ghash_bucket_hash gh (call_hashfp hf k)) in *.
  set (gh' := ghash_expand_buckets
                (set_nentries (set_bucket gh b (delete i (bucket gh b)))
                              (uint (nentries gh - 1)))
                (uint (nentries gh - 1)) false false) in *.
  exists gh'. split.
  { unfold ghash_remove_ex, entry_at. fold b. rewrite Hi, He. reflexivity. }
  split_and!; try done. constructor; try done; try congruence.
  intros x Hx. apply Hhashed. rewrite U2. by apply list_elem_of_further.
Qed.

(** X2: [BLI_ghash_remove] and [BLI_ghash_popkey] on a well-formed table
    without duplicate keys.  Afterwards the key is absent and the lookup of
    every other key is what it was; when the key was held, the key free
    callback and then the value free callback are called, once, on the key
    and value of the entry that is removed ([BLI_ghash_popkey] frees the key
    only and returns the value). *)
Theorem remove_then_absent gh k kfp vfp :
  table_of gh -> uniq (call_cmpfp cf) (entries gh) ->
  let lookup := lookup_entry_deref call_hashfp call_cmpfp in
  let r := BLI_ghash_remove call_hashfp call_cmpfp gh k kfp vfp in
  let p := BLI_ghash_popkey call_hashfp call_cmpfp gh k kfp in
  (table_of r.1.2 /\ uniq (call_cmpfp cf) (entries r.1.2) /\
   BLI_ghash_haskey call_hashfp call_cmpfp r.1.2 k = false /\
   (forall k', call_cmpfp cf k' k = true -> lookup r.1.2 k' = lookup gh k')) /\
  p.1.2 = r.1.2 /\
  (forall e, lookup gh k = Some e ->
     r.2 = call_free kfp (Some (key e)) ++ call_free vfp (val e) /\
     p.1.1 = val e /\
     p.2 = call_free kfp (Some (key e)) ++ IS_GHASH_ASSERT r.1.2) /\
  (lookup gh k = None -> r = (false, gh, []) /\ p.1 = (Some 0, gh)).
Proof.
  intros Htab Hu lookup r p. pose proof Htab as [Hok Hh Hc Hhashed Hesz].
  destruct (lookup gh k) as [e|] eqn:Hl; subst lookup.
  - destruct (remove_ex_spec gh k kfp vfp e Htab Hu Hl) as (gh' & R & T & P & N & F).
    destruct (remove_ex_spec gh k kfp None e Htab Hu Hl) as (gh'' & R' & _).
    assert (gh'' = gh') as ->.
    { revert R R'. unfold ghash_remove_ex.
      destruct (chain_lookup _ _ _ _); [|done]. destruct (entry_at _ _ _); [|done].
      intros [= _ <- _] [= _ <- _]. done. }
    assert (r = (true, gh', call_free kfp (Some (key e)) ++ call_free vfp (val e))) as Hr.
    { subst r. unfold BLI_ghash_remove, ghash_keyhash. rewrite Hh, R. done. }
    assert (p = (val e, gh',
                 (call_free kfp (Some (key e)) ++ call_free None (val e))
                 ++ IS_GHASH_ASSERT gh')) as Hp.
    { subst p. unfold BLI_ghash_popkey, ghash_keyhash. rewrite Hh, R'. done. }
    rewrite Hr, Hp. cbn [fst snd].
    destruct (lookup_deref_uncons gh gh' e Htab T Hu P) as [Hu' Hl'].
    assert (call_cmpfp cf k (key e) = false) as Hke.
    { by apply (lookup_deref_Some gh k e Htab Hu). }
    split_and!; try done.
    + rewrite haskey_deref, Hl', Hke. done.
    + intros k' Hk'. rewrite Hl'.
      assert (call_cmpfp cf k' (key e) = true) as ->; [|done].
      destruct (call_cmpfp cf k' (key e)) eqn:Hk'e; [done|].
      rewrite (cmp_trans k' (key e) k Hk'e (cmp_sym _ _ Hke)) in Hk'. done.
    + intros e' [= <-]. split_and!; try done. simpl. by rewrite app_nil_r.
  - assert (ghash_remove_ex call_cmpfp gh k kfp vfp (call_hashfp hf k)
              (ghash_bucket_hash gh (call_hashfp hf k)) = (None, gh, [])
            /\ ghash_remove_ex call_cmpfp gh k kfp None (call_hashfp hf k)
              (ghash_bucket_hash gh (call_hashfp hf k)) = (None, gh, [])) as [R R'].
    { revert Hl. unfold lookup_entry_deref, ghash_lookup_entry, ghash_keyhash,
        ghash_lookup_entry_ex, entry_at, ghash_remove_ex. rewrite Hh.
      destruct (chain_lookup _ k _ _) as [i|] eqn:Hi; simpl; [|done].
      unfold entry_at. by intros ->. }
    assert (r = (false, gh, [])) as Hr.
    { subst r. unfold BLI_ghash_remove, ghash_keyhash. rewrite Hh, R. done. }
    assert (p.1 = (Some 0, gh)) as Hp.
    { subst p. unfold BLI_ghash_popkey, ghash_keyhash. rewrite Hh, R'. done. }
    rewrite Hr. cbn [fst snd]. split_and!; try done.
    + by rewrite haskey_deref, Hl.
    + by rewrite Hp.
Qed.


(** Writing through an [Entry *]: the entry is replaced where it is. *)
Lemma entry_store_spec gh b i e e' :
  table_of gh -> 0 <= b < nbuckets gh -> bucket gh b !! i = Some e ->
  hash e' = hash e -> call_cmpfp cf (key e') (key e) = false ->
  table_of (entry_store gh b i e') /\
  nentries (entry_store gh b i e') = nentries gh /\
  flag (entry_store gh b i e') = flag gh /\
  exists rest, entries gh ≡ₚ e :: rest /\ entries (entry_store gh b i e') ≡ₚ e' :: rest.
Proof.
  intros Htab Hb He Hhash Hkey. pose proof Htab as [Hok Hh Hc Hhashed Hesz].
  destruct (entry_store_ok gh b i e e' Hok Hb He Hhash) as [Hok' _].
  destruct (set_bucket_entries gh b (ok_array _ Hok) Hb) as (pre & post & E1 & E2).
  assert (bucket gh b ≡ₚ e :: delete i (bucket gh b)) as Hdel
    by (by apply delete_Permutation).
  assert (<[i := e']> (bucket gh b) ≡ₚ e' :: delete i (bucket gh b)) as Hins.
  { assert (i < length (bucket gh b))%nat as Hlt by (by eapply lookup_lt_Some).
    rewrite insert_take_drop by done. rewrite delete_take_drop.
    symmetry. apply Permutation_middle. }
  assert (entries gh ≡ₚ e :: (pre ++ delete i (bucket gh b) ++ post)) as P1.
  { rewrite E1. etransitivity; [|symmetry; apply Permutation_middle].
    apply Permutation_app_head. exact (Permutation_app_tail post Hdel). }
  assert (entries (entry_store gh b i e') ≡ₚ e' :: (pre ++ delete i (bucket gh b) ++ post))
    as P2.
  { unfold entry_store. rewrite E2. etransitivity; [|symmetry; apply Permutation_middle].
    apply Permutation_app_head. exact (Permutation_app_tail post Hins). }
  split_and!; try done; [|by eexists].
  constructor; try done.
  intros x Hx. rewrite P2 in Hx. apply elem_of_cons in Hx as [->|Hx].
  - rewrite Hhash, (cmp_hash _ _ Hkey). apply Hhashed.
    apply (elem_of_bucket_entries gh b); [apply Hok|done|].
    by eapply list_elem_of_lookup_2.
  - apply Hhashed. rewrite P1. by apply list_elem_of_further.
Qed.

Lemma kcount_swap_head e e' rest k :
  call_cmpfp cf (key e') (key e) = false ->
  kcount (call_cmpfp cf) (e' :: rest) k = kcount (call_cmpfp cf) (e :: rest) k.
Proof.
  intros Hkey. simpl.
  destruct (call_cmpfp cf k (key e)) eqn:Hk.
  - destruct (call_cmpfp cf k (key e')) eqn:Hk'; [done|].
    by rewrite (cmp_trans _ _ _ Hk' Hkey) in Hk.
  - by rewrite (cmp_trans _ _ _ Hk (cmp_sym _ _ Hkey)).
Qed.

Lemma gset_haskey_eq gs k :
  BLI_gset_haskey call_hashfp call_cmpfp gs k = BLI_ghash_haskey call_hashfp call_cmpfp gs k.
Proof. reflexivity. Qed.

Lemma haskey_kcount gh k :
  table_of gh ->
  BLI_ghash_haskey call_hashfp call_cmpfp gh k
  = (0 <? Z.of_nat (kcount (call_cmpfp cf) (entries gh) k)).
Proof.
  intros Htab. pose proof (haskey_count gh k Htab) as H.
  destruct (BLI_ghash_haskey call_hashfp call_cmpfp gh k).
  - symmetry. apply Z.ltb_lt. destruct H as [H _]. specialize (H eq_refl). lia.
  - symmetry. apply Z.ltb_ge.
    destruct (kcount (call_cmpfp cf) (entries gh) k) eqn:Hc; [lia|].
    destruct H as [_ H]. discriminate H. lia.
Qed.

(** X3: [BLI_gset_add] and [BLI_gset_reinsert] on a well-formed set without
    duplicate keys.  Both return true exactly when the key was absent, and
    then the set holds one key more ([BLI_gset_size], an [int], is the count
    as long as the count is below [2^31]); afterwards the set holds the key
    and every key it held, and nothing else.  [BLI_gset_add] leaves a set
    that holds the key as it is; [BLI_gset_reinsert] of a key that is held
    calls the key free callback, when one is given, once, on the key it
    replaces, and calls nothing else; neither calls a free callback for a
    key that was absent. *)
Theorem gset_add_reinsert_spec gs k kfp :
  table_of gs -> uniq (call_cmpfp cf) (entries gs) -> nentries gs + 1 < 2 ^ 32 ->
  let haskey := BLI_gset_haskey call_hashfp call_cmpfp in
  let a := BLI_gset_add call_hashfp call_cmpfp gs k in
  let r := BLI_gset_reinsert call_hashfp call_cmpfp gs k kfp in
  let grown := nentries gs + (if haskey gs k then 0 else 1) in
  (a.1.1 = negb (haskey gs k) /\ r.1.1 = negb (haskey gs k)) /\
  (table_of a.1.2 /\ uniq (call_cmpfp cf) (entries a.1.2) /\
   nentries a.1.2 = grown /\ (grown < 2 ^ 31 -> BLI_gset_size a.1.2 = grown) /\
   forall k', haskey a.1.2 k' = haskey gs k' || negb (call_cmpfp cf k' k)) /\
  (table_of r.1.2 /\ uniq (call_cmpfp cf) (entries r.1.2) /\
   nentries r.1.2 = grown /\ (grown < 2 ^ 31 -> BLI_gset_size r.1.2 = grown) /\
   forall k', haskey r.1.2 k' = haskey gs k' || negb (call_cmpfp cf k' k)) /\
  (haskey gs k = true -> a = (false, gs, [])) /\
  (forall e, lookup_entry_deref call_hashfp call_cmpfp gs k = Some e ->
     r.2 = match kfp with Some fp => [CallFree fp (Some (key e))] | None => [] end /\
     lookup_entry_deref call_hashfp call_cmpfp r.1.2 k = Some (mkEntry (hash e) k (val e))) /\
  (haskey gs k = false -> forall fp x, (CallFree fp x ∉ a.2) /\ (CallFree fp x ∉ r.2)).
Proof.
  intros Htab Hu Hroom haskey a r grown. pose proof Htab as [Hok Hh Hc Hhashed Hesz].
  pose proof (ok_count _ Hok) as Hcnt.
  subst haskey grown. cbv beta. rewrite !gset_haskey_eq.
  pose proof (bucket_hash_range gs (call_hashfp hf k) (ok_array _ Hok)) as Hrange.
  set (b := ghash_bucket_hash gs (call_hashfp hf k)) in *.
  assert (forall k' g, BLI_gset_haskey call_hashfp call_cmpfp g k'
                       = BLI_ghash_haskey call_hashfp call_cmpfp g k') as Hgs by done.
  destruct (ghash_lookup_entry_ex call_cmpfp gs k (call_hashfp hf k) b) as [i|] eqn:Hi.
  - (* the key is held *)
    destruct (lookup_ex_Some call_cmpfp gs k _ i (ok_array _ Hok) Hi) as (e & He & Hin & Hm).
    fold b in He.
    rewrite entry_matches_hashed in Hm by done. apply negb_true_iff in Hm.
    assert (BLI_ghash_haskey call_hashfp call_cmpfp gs k = true) as Hhas.
    { unfold BLI_ghash_haskey, ghash_lookup_entry, ghash_keyhash. rewrite Hh.
      fold b. by rewrite Hi. }
    assert (lookup_entry_deref call_hashfp call_cmpfp gs k = Some e) as Hl.
    { unfold lookup_entry_deref, ghash_lookup_entry, ghash_keyhash. rewrite Hh.
      fold b. rewrite Hi. done. }
    assert (a = (false, gs, [])) as Ha.
    { subst a. unfold BLI_gset_add, ghash_insert_safe_keyonly, ghash_keyhash.
      rewrite Hh. fold b. by rewrite Hi. }
    assert (r = (false, entry_store gs b i (mkEntry (hash e) k (val e)),
                 call_free kfp (Some (key e)))) as Hr.
    { subst r. unfold BLI_gset_reinsert, ghash_insert_safe_keyonly, ghash_keyhash.
      rewrite Hh. fold b. by rewrite Hi, He. }
    destruct (entry_store_spec gs b i e (mkEntry (hash e) k (val e)) Htab Hrange He
                eq_refl Hm) as (T & N & F & rest & P1 & P2).
    assert (forall k', kcount (call_cmpfp cf)
                         (entries (entry_store gs b i (mkEntry (hash e) k (val e)))) k'
                       = kcount (call_cmpfp cf) (entries gs) k') as Hcount.
    { intros k'. rewrite (kcount_perm _ _ _ k' P1), (kcount_perm _ _ _ k' P2).
      by apply kcount_swap_head. }
    assert (forall k', BLI_ghash_haskey call_hashfp call_cmpfp gs k' = true
                       \/ call_cmpfp cf k' k = true) as Hor.
    { intros k'. destruct (call_cmpfp cf k' k) eqn:Hk'; [by right|left].
      apply haskey_count; [done|].
      rewrite (kcount_keq _ cmp_sym cmp_trans _ k' k Hk').
      apply haskey_count in Hhas; done. }
    rewrite Ha, Hr, Hhas. cbn [fst snd negb]. split_and!; try done.
    + lia.
    + intros Hsmall. unfold BLI_gset_size. rewrite to_int_small; lia.
    + intros k'. rewrite !Hgs. destruct (Hor k') as [->| ->]; [done|by rewrite orb_false_r].
    + intros k'. by rewrite Hcount.
    + lia.
    + intros Hsmall. unfold BLI_gset_size. rewrite N, to_int_small; lia.
    + intros k'. rewrite !Hgs, !haskey_kcount, Hcount by done.
      rewrite <- haskey_kcount by done.
      destruct (Hor k') as [->| ->]; [done|by rewrite orb_false_r].
    + intros e' Hl'. rewrite Hl in Hl'. injection Hl' as <-. split; [done|].
      apply lookup_deref_Some; try done.
      * intros k'. by rewrite Hcount.
      * split; [|simpl; apply cmp_refl]. rewrite P2. apply list_elem_of_here.
  - (* the key is absent *)
    assert (BLI_ghash_haskey call_hashfp call_cmpfp gs k = false) as Hhas.
    { unfold BLI_ghash_haskey, ghash_lookup_entry, ghash_keyhash. rewrite Hh.
      fold b. by rewrite Hi. }
    assert (lookup_entry_deref call_hashfp call_cmpfp gs k = None) as Hl.
    { unfold lookup_entry_deref, ghash_lookup_entry, ghash_keyhash. rewrite Hh.
      fold b. by rewrite Hi. }
    destruct (insert_keyonly_spec gs k Htab Hroom) as (T & P & N & _).
    set (gs' := (BLI_gset_insert call_hashfp call_cmpfp gs k).1) in *.
    assert (a = (true, gs', insert_assert call_hashfp call_cmpfp gs k)) as Ha.
    { subst a gs'. unfold BLI_gset_add, BLI_gset_insert, ghash_insert_safe_keyonly,
        ghash_keyhash. rewrite Hh. fold b. rewrite Hi. reflexivity. }
    assert (r = (true, gs', insert_assert call_hashfp call_cmpfp gs k)) as Hr.
    { subst r gs'. unfold BLI_gset_reinsert, BLI_gset_insert, ghash_insert_safe_keyonly,
        ghash_keyhash. rewrite Hh. fold b. rewrite Hi. reflexivity. }
    assert (forall fp x, CallFree fp x ∉ insert_assert call_hashfp call_cmpfp gs k)
      as Hnofree.
    { intros fp x. unfold insert_assert, BLI_assert.
      destruct (_ || _); intros Hin;
        repeat (apply elem_of_cons in Hin as [Hin|Hin]; [discriminate Hin|]);
        by apply elem_of_nil in Hin. }
    assert (kcount (call_cmpfp cf) (entries gs) k = O) as Hnew
      by (by apply lookup_deref_None).
    destruct (lookup_deref_cons gs gs' _ Htab T Hu P Hnew) as [Hu' Hl'].
    assert (forall k', BLI_ghash_haskey call_hashfp call_cmpfp gs' k'
                       = BLI_ghash_haskey call_hashfp call_cmpfp gs k'
                         || negb (call_cmpfp cf k' k)) as Hhk.
    { intros k'. rewrite !haskey_deref, Hl'. simpl.
      destruct (call_cmpfp cf k' k); simpl; [by rewrite orb_false_r|].
      by rewrite orb_true_r. }
    rewrite Ha, Hr, Hhas. cbn [fst snd negb]. split_and!; try done.
    + intros Hsmall. unfold BLI_gset_size. rewrite N, to_int_small; lia.
    + intros Hsmall. unfold BLI_gset_size. rewrite N, to_int_small; lia.
    + intros e He. congruence.
Qed.




Lemma ghash_copy_lookup gh kcp vcp :
  table_of gh -> uniq (call_cmpfp cf) (entries gh) -> key_copy_ok kcp ->
  uniq (call_cmpfp cf) (entries (ghash_copy gh kcp vcp)) /\
  forall k, lookup_entry_deref call_hashfp call_cmpfp (ghash_copy gh kcp vcp) k
            = copied (entry_size gh) kcp vcp
              <$> lookup_entry_deref call_hashfp call_cmpfp gh k.
Proof.
  intros Htab Hu Hcp.
  destruct (ghash_copy_spec gh kcp vcp Htab Hcp) as (T & P & N & E).
  set (gh' := ghash_copy gh kcp vcp) in *.
  assert (forall k, kcount (call_cmpfp cf) (entries gh') k
                    = kcount (call_cmpfp cf) (entries gh) k) as Hcount.
  { intros k. rewrite (kcount_perm _ _ _ k P), kcount_copied; [done| |done]. apply Htab. }
  assert (uniq (call_cmpfp cf) (entries gh')) as Hu'.
  { intros k. rewrite Hcount. apply Hu. }
  split; [done|]. intros k.
  destruct (lookup_entry_deref call_hashfp call_cmpfp gh k) as [e|] eqn:Hl; simpl.
  - apply lookup_deref_Some in Hl as [He Hk]; try done.
    apply lookup_deref_Some; try done. split.
    + rewrite P. apply list_elem_of_fmap. by exists e.
    + apply (cmp_trans _ (key e)); [done|].
      apply cmp_sym. apply copied_key_keq; [apply Htab|done].
  - apply lookup_deref_None in Hl; [|done].
    apply lookup_deref_None; [done|]. by rewrite Hcount.
Qed.


(** X5: [BLI_ghash_clear_ex] (and [BLI_ghash_clear], [BLI_gset_clear_ex]),
    from any state of the table.  The table that is left is well-formed and
    empty: its size is zero, it holds no key and a lookup returns NULL; the
    callbacks and the entry size are kept. *)
Theorem clear_empties gh kfp vfp r :
  let gh' := (BLI_ghash_clear_ex gh kfp vfp r).1 in
  ghash_ok gh' /\ entries gh' = [] /\ BLI_ghash_size gh' = 0 /\
  hashfp gh' = hashfp gh /\ cmpfp gh' = cmpfp gh /\ entry_size gh' = entry_size gh /\
  (forall k, BLI_ghash_haskey call_hashfp call_cmpfp gh' k = false /\
             (BLI_ghash_lookup call_hashfp call_cmpfp gh' k).1 = Some 0) /\
  (BLI_ghash_clear gh kfp vfp).1 = (BLI_ghash_clear_ex gh kfp vfp 0).1 /\
  (BLI_gset_clear_ex gh kfp r).1 = (BLI_ghash_clear_ex gh kfp None r).1.
Proof.
  intros gh'. subst gh'. unfold BLI_ghash_clear_ex. cbn [fst].
  change (ghash_buckets_reset gh r) with (ghash_new (hashfp gh) (cmpfp gh) r (entry_size gh)).
  destruct (ghash_new_ok (hashfp gh) (cmpfp gh) r (entry_size gh))
    as (N1 & N2 & N3 & N4 & N5).
  set (gh' := ghash_new (hashfp gh) (cmpfp gh) r (entry_size gh)) in *.
  assert (forall k, lookup_entry_deref call_hashfp call_cmpfp gh' k = None) as Hl.
  { intros k. unfold lookup_entry_deref, ghash_lookup_entry.
    rewrite (proj2 (lookup_ex_None call_cmpfp gh' k _ (ok_array _ N1) (ok_placed _ N1)));
      [done|].
    intros e He. rewrite N2 in He. by apply elem_of_nil in He. }
  split_and!; try done.
  - unfold BLI_ghash_size. rewrite (ok_count _ N1), N2. done.
  - intros k. split.
    + by rewrite haskey_deref, Hl.
    + unfold BLI_ghash_lookup. cbn [fst]. by rewrite Hl.
Qed.

Lemma ghash_free_cb_entries gh kfp vfp :
  array_ok gh ->
  ghash_foreach gh
    (fun log e => log ++ call_free kfp (Some (key e)) ++ call_free vfp (val e)) []
  = concat ((fun e => call_free kfp (Some (key e)) ++ call_free vfp (val e))
            <$> entries gh).
Proof.
  intros Harr. rewrite ghash_foreach_entries by done.
  assert (forall l init,
            foldl (fun log e => log ++ call_free kfp (Some (key e))
                                    ++ call_free vfp (val e)) init l
            = init ++ concat ((fun e => call_free kfp (Some (key e))
                                        ++ call_free vfp (val e)) <$> l)) as H.
  { induction l as [|e l IH]; intros init; simpl; [by rewrite app_nil_r|].
    by rewrite IH, <- app_assoc. }
  by rewrite H.
Qed.

(** X6: the free callbacks of [BLI_ghash_free] and [BLI_ghash_clear_ex].
    For a table whose bucket array is in place, the calls made are, for each
    entry in bucket order, the key callback on the key and then the value
    callback on the value, each only when the callback is given: every key
    and every value is handed to its callback exactly once, and with no
    callback nothing is called. *)
Theorem free_calls_once_per_entry gh kfp vfp r :
  array_ok gh ->
  BLI_ghash_free gh kfp vfp
    = concat ((fun e => call_free kfp (Some (key e)) ++ call_free vfp (val e))
              <$> entries gh) /\
  (BLI_ghash_clear_ex gh kfp vfp r).2 = BLI_ghash_free gh kfp vfp /\
  BLI_gset_free gh kfp = concat ((fun e => call_free kfp (Some (key e))) <$> entries gh).
Proof.
  intros Harr.
  assert (forall vfp',
            BLI_ghash_free gh kfp vfp'
            = concat ((fun e => call_free kfp (Some (key e)) ++ call_free vfp' (val e))
                      <$> entries gh)) as Hfree.
  { intros vfp'. unfold BLI_ghash_free, ghash_free_cb.
    destruct (bool_decide (is_Some kfp) || bool_decide (is_Some vfp')) eqn:Hany.
    - simpl. by apply ghash_free_cb_entries.
    - apply orb_false_iff in Hany as [Hk Hv].
      destruct kfp; [done|]. destruct vfp'; [done|]. simpl.
      induction (entries gh) as [|e l IH]; [done|]. simpl. exact IH. }
  split_and!.
  - apply Hfree.
  - reflexivity.
  - unfold BLI_gset_free. rewrite Hfree. f_equal. apply list_fmap_ext.
    intros i e _. simpl. apply app_nil_r.
Qed.


(* ===================================================================== *)
(** ** Intersection and difference *)

(** The calls of the free callbacks on the entries of [l], in order. *)
Definition free_calls (kfp vfp : option Z) (l : list Entry) : list event :=
  concat ((fun e => call_free kfp (Some (key e)) ++ call_free vfp (val e)) <$> l).

Lemma free_calls_app kfp vfp l1 l2 :
  free_calls kfp vfp (l1 ++ l2) = free_calls kfp vfp l1 ++ free_calls kfp vfp l2.
Proof. unfold free_calls. by rewrite fmap_app, concat_app. Qed.

Definition count_down (d : nat) (n : Z) : Z := Nat.iter d (fun n => uint (n - 1)) n.

Lemma count_down_add d1 d2 n : count_down d2 (count_down d1 n) = count_down (d1 + d2) n.
Proof. unfold count_down. by rewrite Nat.add_comm, Nat.iter_add. Qed.

Lemma count_down_exact d n :
  Z.of_nat d <= n < 2 ^ 32 -> count_down d n = n - Z.of_nat d.
Proof.
  unfold count_down. induction d as [|d IH]; intros Hn; simpl; [lia|].
  rewrite IH by lia. rewrite uint_small; lia.
Qed.

Lemma count_down_succ_r d n : count_down (S d) n = count_down d (uint (n - 1)).
Proof. unfold count_down. by rewrite Nat.iter_succ_r. Qed.

Lemma free_calls_cons kfp vfp e l :
  free_calls kfp vfp (e :: l)
  = (call_free kfp (Some (key e)) ++ call_free vfp (val e)) ++ free_calls kfp vfp l.
Proof. reflexivity. Qed.

Lemma sweep_chain_spec drop kfp vfp chain n log :
  sweep_chain drop kfp vfp chain n log
  = (filter (fun e => drop e = false) chain,
     count_down (length (filter (fun e => drop e = true) chain)) n,
     log ++ free_calls kfp vfp (filter (fun e => drop e = true) chain)).
Proof.
  revert n log. induction chain as [|e rest IH]; intros n log.
  - simpl. by rewrite app_nil_r.
  - cbn [sweep_chain]. destruct (drop e) eqn:Hd.
    + rewrite IH. rewrite (filter_cons_False (fun e => drop e = false)) by congruence.
      rewrite (filter_cons_True (fun e => drop e = true)) by done.
      rewrite length_cons, count_down_succ_r, free_calls_cons.
      by rewrite <- !app_assoc.
    + rewrite IH. rewrite (filter_cons_True (fun e => drop e = false)) by done.
      rewrite (filter_cons_False (fun e => drop e = true)) by congruence. done.
Qed.

Lemma set_buckets_id g : set_buckets g (buckets g) = g.
Proof. by destruct g. Qed.

Lemma sweep_buckets_spec drop kfp vfp :
  forall suf pre g n log,
    buckets g = Some (pre ++ suf) ->
    foldl (fun '(gh1, n, log) i =>
             let '(chain, n, log) := sweep_chain drop kfp vfp (bucket gh1 i) n log in
             (set_bucket gh1 i chain, n, log))
          (g, n, log) (seqZ (Z.of_nat (length pre)) (Z.of_nat (length suf)))
    = (set_buckets g (Some (pre ++ (filter (fun e => drop e = false) <$> suf))),
       count_down (length (filter (fun e => drop e = true) (concat suf))) n,
       log ++ free_calls kfp vfp (filter (fun e => drop e = true) (concat suf))).
Proof.
  induction suf as [|c suf IH]; intros pre g n log Hg.
  - simpl. rewrite app_nil_r in *. rewrite <- Hg, set_buckets_id. by rewrite app_nil_r.
  - rewrite length_cons, Nat2Z.inj_succ, seqZ_cons by lia. cbn [foldl].
    assert (bucket g (Z.of_nat (length pre)) = c) as Hc.
    { unfold bucket, bucket_array. rewrite Hg, Nat2Z.id. simpl.
      by rewrite list_lookup_middle. }
    rewrite Hc, sweep_chain_spec.
    assert (set_bucket g (Z.of_nat (length pre)) (filter (fun e => drop e = false) c)
            = set_buckets g (Some ((pre ++ [filter (fun e => drop e = false) c]) ++ suf)))
      as Hset.
    { unfold set_bucket. rewrite Hg, Nat2Z.id. simpl. f_equal. f_equal.
      rewrite <- app_assoc. simpl.
      rewrite insert_app_r_alt by lia. by rewrite Nat.sub_diag. }
    rewrite Hset.
    replace (Z.succ (Z.of_nat (length pre)))
      with (Z.of_nat (length (pre ++ [filter (fun e => drop e = false) c])))
      by (rewrite length_app; simpl; lia).
    replace (Z.pred (Z.succ (Z.of_nat (length suf)))) with (Z.of_nat (length suf)) by lia.
    rewrite IH by done.
    simpl. rewrite filter_app, length_app, free_calls_app, count_down_add.
    rewrite <- !app_assoc. simpl. by destruct g.
Qed.

Lemma filter_concat_fmap (P : Entry -> Prop) `{!forall e, Decision (P e)}
    (bs : list (list Entry)) :
  concat (filter P <$> bs) = filter P (concat bs).
Proof.
  induction bs as [|c bs IH]; [done|].
  change (filter P c ++ concat (filter P <$> bs) = filter P (c ++ concat bs)).
  by rewrite filter_app, IH.
Qed.

Lemma filter_ext_in (P Q : Entry -> Prop)
    `{!forall e, Decision (P e)} `{!forall e, Decision (Q e)} (l : list Entry) :
  (forall e, e ∈ l -> P e <-> Q e) -> filter P l = filter Q l.
Proof.
  induction l as [|e l IH]; intros Hpq; [done|].
  assert (filter P l = filter Q l) as IH'.
  { apply IH. intros x Hx. apply Hpq. by apply list_elem_of_further. }
  pose proof (Hpq e (list_elem_of_here _ _)) as He.
  destruct (decide (P e)) as [Hp|Hp].
  - rewrite !filter_cons_True by tauto. by rewrite IH'.
  - rewrite !filter_cons_False by tauto. done.
Qed.

(** Keeping the entries whose key passes a test that takes equal keys
    alike. *)
Lemma kcount_filter (g : Z -> bool) (P : Entry -> Prop) `{!forall e, Decision (P e)} l k :
  (forall a b, call_cmpfp cf a b = false -> g a = g b) ->
  (forall e, e ∈ l -> P e <-> g (key e) = true) ->
  kcount (call_cmpfp cf) (filter P l) k
  = if g k then kcount (call_cmpfp cf) l k else O.
Proof.
  intros Hg. induction l as [|e l IH]; intros HP; simpl; [by destruct (g k)|].
  assert (forall e, e ∈ l -> P e <-> g (key e) = true) as HP'.
  { intros x Hx. apply HP. by apply list_elem_of_further. }
  specialize (IH HP'). pose proof (HP e (list_elem_of_here _ _)) as He.
  destruct (decide (P e)) as [Hp|Hp].
  - rewrite filter_cons_True by done. simpl. rewrite IH.
    destruct (call_cmpfp cf k (key e)) eqn:Hk; [done|].
    rewrite (Hg k (key e) Hk), (proj1 He Hp). done.
  - rewrite filter_cons_False by done. rewrite IH.
    destruct (call_cmpfp cf k (key e)) eqn:Hk; [done|].
    rewrite (Hg k (key e) Hk).
    destruct (g (key e)) eqn:Hge; [|done]. destruct Hp. by apply He.
Qed.

Lemma entry_found_in_count ghn e :
  table_of ghn -> hash e = call_hashfp hf (key e) ->
  entry_found_in call_cmpfp ghn e
  = (0 <? Z.of_nat (kcount (call_cmpfp cf) (entries ghn) (key e))).
Proof.
  intros Htab He. unfold entry_found_in. rewrite He.
  pose proof (lookup_ex_count ghn (key e) Htab) as H.
  destruct (ghash_lookup_entry_ex call_cmpfp ghn (key e) _ _) as [i|].
  - symmetry. apply Z.ltb_lt.
    destruct (kcount (call_cmpfp cf) (entries ghn) (key e)); [|lia].
    destruct H as [_ H]. by specialize (H eq_refl).
  - destruct H as [H _]. by rewrite (H eq_refl).
Qed.

(** One operand of [ghash_intersection] ([dif] false) or of
    [ghash_difference] ([dif] true). *)
Lemma sweep_operand_spec dif kfp vfp gh1 log ghn :
  table_of gh1 -> table_of ghn ->
  let st' := sweep_operand call_cmpfp dif kfp vfp (gh1, log) ghn in
  let held k := 0 <? Z.of_nat (kcount (call_cmpfp cf) (entries ghn) k) in
  table_of st'.1 /\ flag st'.1 = flag gh1 /\ entry_size st'.1 = entry_size gh1 /\
  (forall e, e ∈ entries st'.1 -> e ∈ entries gh1) /\
  (forall k, kcount (call_cmpfp cf) (entries st'.1) k
             = if (if dif then negb (held k) else held k)
               then kcount (call_cmpfp cf) (entries gh1) k else O) /\
  st'.2 = log ++ free_calls kfp vfp
                   (filter (fun e => (if dif then held (key e) else negb (held (key e)))
                                     = true)
                           (entries gh1)).
Proof.
  intros Htab Htabn st' held. pose proof Htab as [Hok Hh Hc Hhashed Hesz].
  destruct (ok_array _ Hok) as [Hpos (bs & Hbs & Hlen)].
  set (drop := fun e : Entry =>
                 let found := bool_decide (is_Some
                                (ghash_lookup_entry_ex call_cmpfp ghn (key e) (hash e)
                                   (ghash_bucket_hash ghn (hash e)))) in
                 if dif then found else negb found).
  set (keep := fun k : Z => if dif then negb (held k) else held k).
  assert (forall e, e ∈ entries gh1 -> drop e = negb (keep (key e))) as Hdrop.
  { intros e He. unfold drop, keep, held.
    change (bool_decide _) with (entry_found_in call_cmpfp ghn e).
    rewrite entry_found_in_count by auto.
    destruct dif; [by rewrite negb_involutive|done]. }
  assert (forall a b, call_cmpfp cf a b = false -> keep a = keep b) as Hkeep.
  { intros a b Hab. unfold keep, held.
    by rewrite (kcount_keq _ cmp_sym cmp_trans _ a b Hab). }
  assert ((cmpfp gh1 =? cmpfp ghn) = true) as Hcmp.
  { apply Z.eqb_eq. rewrite Hc. symmetry. apply Htabn. }
  assert ((hashfp gh1 =? hashfp ghn) = true) as Hhash.
  { apply Z.eqb_eq. rewrite Hh. symmetry. apply Htabn. }
  pose proof (sweep_buckets_spec drop kfp vfp bs [] gh1 (nentries gh1)
                (log ++ BLI_assert "gh1->cmpfp == ghn->cmpfp" (cmpfp gh1 =? cmpfp ghn)
                     ++ BLI_assert "gh1->hashfp == ghn->hashfp" (hashfp gh1 =? hashfp ghn))
                Hbs) as Hsweep.
  cbn [length app] in Hsweep. change (Z.of_nat 0) with 0 in Hsweep.
  rewrite Hlen in Hsweep.
  set (g2 := set_nentries
               (set_buckets gh1 (Some (filter (fun e => drop e = false) <$> bs)))
               (count_down (length (filter (fun e => drop e = true) (concat bs)))
                           (nentries gh1))).
  assert (st' = (ghash_expand_buckets g2 (nentries g2) false true,
                 (log ++ BLI_assert "gh1->cmpfp == ghn->cmpfp" (cmpfp gh1 =? cmpfp ghn)
                      ++ BLI_assert "gh1->hashfp == ghn->hashfp" (hashfp gh1 =? hashfp ghn))
                 ++ free_calls kfp vfp (filter (fun e => drop e = true) (concat bs))))
    as Hst.
  { subst st'. unfold sweep_operand. fold drop. rewrite Hsweep. reflexivity. }
  assert (entries gh1 = concat bs) as Hent.
  { unfold entries, bucket_array. by rewrite Hbs. }
  assert (entries g2 = filter (fun e => drop e = false) (entries gh1)) as Hent2.
  { unfold entries at 1, bucket_array. simpl. rewrite filter_concat_fmap. by rewrite Hent. }
  assert (length (filter (fun e => drop e = false) (entries gh1))
          + length (filter (fun e => drop e = true) (entries gh1))
          = length (entries gh1))%nat as Hsplit.
  { clear. induction (entries gh1) as [|e l IH]; [done|].
    destruct (drop e) eqn:Hd.
    - rewrite filter_cons_False by congruence. rewrite filter_cons_True by done.
      simpl. lia.
    - rewrite filter_cons_True by done. rewrite filter_cons_False by congruence.
      simpl. lia. }
  assert (nentries g2 = Z.of_nat (length (entries g2))) as Hcount.
  { rewrite Hent2. unfold g2. simpl. rewrite <- Hent.
    rewrite count_down_exact.
    - rewrite (ok_count _ Hok). lia.
    - pose proof (ok_count _ Hok). pose proof (ok_count_max _ Hok). lia. }
  assert (ghash_ok g2) as Hok2.
  { constructor.
    - apply (policy_ok_fields gh1); try done. apply Hok.
    - split; [done|]. exists (filter (fun e => drop e = false) <$> bs).
      split; [done|]. by rewrite length_fmap.
    - intros i chain e Hi He. unfold g2, bucket_array in Hi. simpl in Hi.
      apply list_lookup_fmap_Some in Hi as (c & -> & Hc').
      apply list_elem_of_filter in He as [_ He].
      apply (ok_placed _ Hok i c e); [|done].
      unfold bucket_array. by rewrite Hbs.
    - done.
    - rewrite Hcount, Hent2. pose proof (ok_count _ Hok). pose proof (ok_count_max _ Hok).
      lia. }
  assert (table_of g2) as Htab2.
  { constructor; try done.
    intros e He. rewrite Hent2 in He. apply list_elem_of_filter in He as [_ He].
    by apply Hhashed. }
  destruct (table_of_expand g2 true Htab2) as [T P].
  rewrite Hst. cbn [fst snd].
  split_and!.
  - done.
  - by rewrite ghash_expand_buckets_flag.
  - destruct (ghash_expand_buckets_identity g2 (nentries g2) false true)
      as (_ & _ & _ & _ & I5). by rewrite I5.
  - intros e He. rewrite P, Hent2 in He. by apply list_elem_of_filter in He as [_ He].
  - intros k. rewrite (kcount_perm _ _ _ k P), Hent2.
    rewrite (kcount_filter keep); [done|done|].
    intros e He. rewrite (Hdrop e He). by destruct (keep (key e)).
  - rewrite Hcmp, Hhash. simpl. rewrite app_nil_r. f_equal. f_equal.
    rewrite <- Hent. apply filter_ext_in. intros e He.
    rewrite (Hdrop e He). unfold keep. destruct dif; by destruct (held (key e)).
Qed.


Lemma sweep_step_lookup (dif : bool) gh1 g' ghn :
  table_of gh1 -> uniq (call_cmpfp cf) (entries gh1) -> table_of ghn -> table_of g' ->
  (forall e, e ∈ entries g' -> e ∈ entries gh1) ->
  (forall k, kcount (call_cmpfp cf) (entries g') k
             = if (if dif
                   then negb (0 <? Z.of_nat (kcount (call_cmpfp cf) (entries ghn) k))
                   else 0 <? Z.of_nat (kcount (call_cmpfp cf) (entries ghn) k))
               then kcount (call_cmpfp cf) (entries gh1) k else O) ->
  uniq (call_cmpfp cf) (entries g') /\
  forall k, lookup_entry_deref call_hashfp call_cmpfp g' k
            = if (if dif then negb (BLI_ghash_haskey call_hashfp call_cmpfp ghn k)
                  else BLI_ghash_haskey call_hashfp call_cmpfp ghn k)
              then lookup_entry_deref call_hashfp call_cmpfp gh1 k else None.
Proof.
  intros Htab Hu Htabn Htab' Hsub Hcount.
  assert (uniq (call_cmpfp cf) (entries g')) as Hu'.
  { intros k. rewrite Hcount.
    match goal with |- context [if ?c then kcount _ _ _ else O] => destruct c end;
      [apply Hu|lia]. }
  split; [done|]. intros k. rewrite (haskey_kcount ghn k Htabn).
  specialize (Hcount k).
  destruct (if dif then negb (0 <? Z.of_nat (kcount (call_cmpfp cf) (entries ghn) k))
            else 0 <? Z.of_nat (kcount (call_cmpfp cf) (entries ghn) k)).
  - destruct (lookup_entry_deref call_hashfp call_cmpfp gh1 k) as [e|] eqn:Hl.
    + apply lookup_deref_Some in Hl as [He Hk]; try done.
      apply lookup_deref_Some; try done. split; [|done].
      assert (0 < kcount (call_cmpfp cf) (entries g') k)%nat as Hpos.
      { rewrite Hcount. apply kcount_pos. by exists e. }
      apply kcount_pos in Hpos as (e' & He' & Hk').
      assert (e' = e) as <-; [|done].
      apply (uniq_elem (call_cmpfp cf) cmp_refl cmp_sym _ e' e Hu); auto.
      apply (cmp_trans _ k); [by apply cmp_sym|done].
    + apply lookup_deref_None in Hl; [|done]. apply lookup_deref_None; [done|].
      by rewrite Hcount.
  - by apply lookup_deref_None.
Qed.

Lemma sweep_fold_spec dif kfp vfp operands :
  Forall table_of operands ->
  forall g log,
    table_of g -> uniq (call_cmpfp cf) (entries g) ->
    let st' := foldl (sweep_operand call_cmpfp dif kfp vfp) (g, log) operands in
    table_of st'.1 /\ uniq (call_cmpfp cf) (entries st'.1) /\
    flag st'.1 = flag g /\ entry_size st'.1 = entry_size g /\
    forall k, lookup_entry_deref call_hashfp call_cmpfp st'.1 k
              = if (if dif
                    then negb (existsb (fun o => BLI_ghash_haskey call_hashfp call_cmpfp o k)
                                       operands)
                    else forallb (fun o => BLI_ghash_haskey call_hashfp call_cmpfp o k)
                                 operands)
                then lookup_entry_deref call_hashfp call_cmpfp g k else None.
Proof.
  induction 1 as [|o ops Ho Hops IH]; intros g log Htab Hu.
  - simpl. split_and!; try done. intros k. by destruct dif.
  - cbn [foldl].
    destruct (sweep_operand_spec dif kfp vfp g log o Htab Ho) as (T & F & E & Hsub & Hc & _).
    destruct (sweep_step_lookup dif g _ o Htab Hu Ho T Hsub Hc) as [Hu' Hl'].
    destruct (sweep_operand call_cmpfp dif kfp vfp (g, log) o) as [g' log'] eqn:Hst.
    cbn [fst] in *.
    destruct (IH g' log' T Hu') as (T2 & U2 & F2 & E2 & L2).
    split_and!; try done; try congruence.
    intros k. rewrite L2, Hl'. cbn [existsb forallb].
    destruct dif; destruct (BLI_ghash_haskey call_hashfp call_cmpfp o k); simpl;
      try done;
      match goal with |- context [if ?c then _ else None] => by destruct c end.
Qed.

(** X7: [BLI_ghash_intersection] (and [BLI_gset_intersection]) over
    well-formed tables that share the callbacks, the destination free of
    duplicate keys.  In place, a lookup in the result finds the entry the
    destination had when every operand holds the key, and nothing otherwise;
    with a NULL destination the result is made of copies of the entries of
    the first operand whose keys every other operand holds.  The result is
    well-formed and free of duplicates, and keeps the destination's flags. *)
Theorem intersection_keeps_common kcp vcp kfp vfp gh1 gh2 arg :
  table_of gh2 -> Forall table_of arg ->
  let lookup := lookup_entry_deref call_hashfp call_cmpfp in
  let haskey := BLI_ghash_haskey call_hashfp call_cmpfp in
  (table_of gh1 -> uniq (call_cmpfp cf) (entries gh1) ->
   let R := (BLI_ghash_intersection call_cmpfp kcp vcp kfp vfp (Some gh1) gh2 arg).1 in
   table_of R /\ uniq (call_cmpfp cf) (entries R) /\ flag R = flag gh1 /\
   forall k, lookup R k
             = if forallb (fun o => haskey o k) (gh2 :: arg) then lookup gh1 k else None) /\
  (uniq (call_cmpfp cf) (entries gh2) -> key_copy_ok kcp ->
   let R := (BLI_ghash_intersection call_cmpfp kcp vcp kfp vfp None gh2 arg).1 in
   table_of R /\ uniq (call_cmpfp cf) (entries R) /\
   forall k, lookup R k
             = if forallb (fun o => haskey o k) arg
               then copied (entry_size gh2) kcp vcp <$> lookup gh2 k else None) /\
  BLI_gset_intersection call_cmpfp kcp kfp (Some gh1) gh2 arg
  = BLI_ghash_intersection call_cmpfp kcp None kfp None (Some gh1) gh2 arg.
Proof.
  intros Htab2 Harg lookup haskey. split_and!; [| |done].
  - intros Htab1 Hu1 R.
    destruct (sweep_fold_spec false kfp vfp (gh2 :: arg) (Forall_cons_2 _ _ _ Htab2 Harg)
                gh1 [] Htab1 Hu1) as (T & U & F & _ & L).
    by split_and!.
  - intros Hu2 Hcp R.
    destruct (ghash_copy_spec gh2 kcp vcp Htab2 Hcp) as (T0 & _).
    destruct (ghash_copy_lookup gh2 kcp vcp Htab2 Hu2 Hcp) as [U0 L0].
    destruct (sweep_fold_spec false kfp vfp arg Harg (ghash_copy gh2 kcp vcp) [] T0 U0)
      as (T & U & _ & _ & L).
    split_and!; try done. intros k. subst R lookup.
    unfold BLI_ghash_intersection, ghash_intersection, setop_prologue.
    rewrite L, L0. done.
Qed.

(** X8: [BLI_ghash_difference] (and [BLI_gset_difference]) over well-formed
    tables that share the callbacks, the destination free of duplicate keys.
    In place, a lookup in the result finds the entry the destination had when
    no operand holds the key, and nothing otherwise; with a NULL destination
    the result is made of copies of the entries of the first operand whose
    keys no other operand holds. *)
Theorem difference_drops_held kcp vcp kfp vfp gh1 gh2 arg :
  table_of gh2 -> Forall table_of arg ->
  let lookup := lookup_entry_deref call_hashfp call_cmpfp in
  let haskey := BLI_ghash_haskey call_hashfp call_cmpfp in
  (table_of gh1 -> uniq (call_cmpfp cf) (entries gh1) ->
   let R := (BLI_ghash_difference call_cmpfp kcp vcp kfp vfp (Some gh1) gh2 arg).1 in
   table_of R /\ uniq (call_cmpfp cf) (entries R) /\ flag R = flag gh1 /\
   forall k, lookup R k
             = if existsb (fun o => haskey o k) (gh2 :: arg) then None else lookup gh1 k) /\
  (uniq (call_cmpfp cf) (entries gh2) -> key_copy_ok kcp ->
   let R := (BLI_ghash_difference call_cmpfp kcp vcp kfp vfp None gh2 arg).1 in
   table_of R /\ uniq (call_cmpfp cf) (entries R) /\
   forall k, lookup R k
             = if existsb (fun o => haskey o k) arg
               then None else copied (entry_size gh2) kcp vcp <$> lookup gh2 k) /\
  BLI_gset_difference call_cmpfp kcp kfp (Some gh1) gh2 arg
  = BLI_ghash_difference call_cmpfp kcp None kfp None (Some gh1) gh2 arg.
Proof.
  intros Htab2 Harg lookup haskey. split_and!; [| |done].
  - intros Htab1 Hu1 R.
    destruct (sweep_fold_spec true kfp vfp (gh2 :: arg) (Forall_cons_2 _ _ _ Htab2 Harg)
                gh1 [] Htab1 Hu1) as (T & U & F & _ & L).
    split_and!; try done. intros k. subst R lookup haskey.
    unfold BLI_ghash_difference, ghash_difference, setop_prologue.
    rewrite L. by destruct (existsb _ _).
  - intros Hu2 Hcp R.
    destruct (ghash_copy_spec gh2 kcp vcp Htab2 Hcp) as (T0 & _).
    destruct (ghash_copy_lookup gh2 kcp vcp Htab2 Hu2 Hcp) as [U0 L0].
    destruct (sweep_fold_spec true kfp vfp arg Harg (ghash_copy gh2 kcp vcp) [] T0 U0)
      as (T & U & _ & _ & L).
    split_and!; try done. intros k. subst R lookup haskey.
    unfold BLI_ghash_difference, ghash_difference, setop_prologue.
    rewrite L, L0. by destruct (existsb _ _).
Qed.


(* ===================================================================== *)
(** ** Right-biased union *)













(* ===================================================================== *)
(** ** Key-set predicates *)

Lemma forallb_index (Q : list Entry -> bool) :
  forall (bs pre : list (list Entry)),
    forallb (fun i => Q (default [] ((pre ++ bs) !! Z.to_nat i)))
            (seqZ (Z.of_nat (length pre)) (Z.of_nat (length bs)))
    = forallb Q bs.
Proof.
  induction bs as [|c bs IH]; intros pre; [done|].
  rewrite length_cons, Nat2Z.inj_succ, seqZ_cons by lia. cbn [forallb].
  rewrite Nat2Z.id, list_lookup_middle by done. simpl. f_equal.
  replace (Z.succ (Z.of_nat (length pre))) with (Z.of_nat (length (pre ++ [c])))
    by (rewrite length_app; simpl; lia).
  replace (Z.pred (Z.succ (Z.of_nat (length bs)))) with (Z.of_nat (length bs)) by lia.
  replace (pre ++ c :: bs) with ((pre ++ [c]) ++ bs) by (by rewrite <- app_assoc).
  apply IH.
Qed.

Lemma forallb_concat (P : Entry -> bool) (bs : list (list Entry)) :
  forallb (forallb P) bs = forallb P (concat bs).
Proof.
  induction bs as [|c bs IH]; [done|]. simpl. by rewrite forallb_app, IH.
Qed.

Lemma ghash_forall_entries gh (P : Entry -> bool) :
  array_ok gh -> ghash_forall gh P = forallb P (entries gh).
Proof.
  intros [Hpos (bs & Hbs & Hlen)]. unfold ghash_forall, bucket, entries, bucket_array.
  rewrite Hbs. simpl. rewrite <- Hlen, <- forallb_concat.
  exact (forallb_index (forallb P) bs []).
Qed.

(** Every key of [gh] is held by [gh']. *)
Lemma forall_found_spec gh gh' :
  table_of gh -> table_of gh' ->
  ghash_forall gh (entry_found_in call_cmpfp gh') = true
  <-> forall k, (kcount (call_cmpfp cf) (entries gh) k
                 <= kcount (call_cmpfp cf) (entries gh) k
                    * kcount (call_cmpfp cf) (entries gh') k)%nat.
Proof.
  intros Htab Htab'. rewrite ghash_forall_entries by apply Htab.
  rewrite forallb_forall. split.
  - intros Hall k.
    destruct (kcount (call_cmpfp cf) (entries gh) k) eqn:Hc; [lia|].
    assert (0 < kcount (call_cmpfp cf) (entries gh) k)%nat as Hpos by lia.
    apply kcount_pos in Hpos as (e & He & Hk).
    pose proof (Hall e (proj1 (list_elem_of_In _ _) He)) as Hf.
    rewrite entry_found_in_count in Hf by (done || by apply (tab_hashed _ Htab)).
    apply Z.ltb_lt in Hf.
    rewrite <- (kcount_keq _ cmp_sym cmp_trans _ k (key e) Hk) in Hf. nia.
  - intros Hall e He. apply list_elem_of_In in He.
    rewrite entry_found_in_count by (done || by apply (tab_hashed _ Htab)).
    apply Z.ltb_lt.
    assert (0 < kcount (call_cmpfp cf) (entries gh) (key e))%nat as Hpos.
    { apply kcount_pos. exists e. split; [done|apply cmp_refl]. }
    specialize (Hall (key e)). nia.
Qed.

Lemma forall_found_haskey gh gh' :
  table_of gh -> table_of gh' ->
  ghash_forall gh (entry_found_in call_cmpfp gh') = true
  <-> forall k, BLI_ghash_haskey call_hashfp call_cmpfp gh k = true ->
                BLI_ghash_haskey call_hashfp call_cmpfp gh' k = true.
Proof.
  intros Htab Htab'. rewrite forall_found_spec by done.
  split; intros H k; specialize (H k).
  - rewrite !haskey_count by done. nia.
  - rewrite !haskey_count in H by done.
    destruct (kcount (call_cmpfp cf) (entries gh) k) eqn:Hc; [lia|].
    assert (0 < kcount (call_cmpfp cf) (entries gh') k)%nat by (apply H; lia). nia.
Qed.

Lemma forall_not_found_haskey gh gh' :
  table_of gh -> table_of gh' ->
  ghash_forall gh (fun e => negb (entry_found_in call_cmpfp gh' e)) = true
  <-> forall k, ~ (BLI_ghash_haskey call_hashfp call_cmpfp gh k = true /\
                   BLI_ghash_haskey call_hashfp call_cmpfp gh' k = true).
Proof.
  intros Htab Htab'. rewrite ghash_forall_entries by apply Htab.
  rewrite forallb_forall. split.
  - intros Hall k [H1 H2]. apply haskey_count in H1; [|done].
    apply kcount_pos in H1 as (e & He & Hk).
    pose proof (Hall e (proj1 (list_elem_of_In _ _) He)) as Hf.
    rewrite entry_found_in_count in Hf by (done || by apply (tab_hashed _ Htab)).
    apply negb_true_iff, Z.ltb_ge in Hf.
    apply haskey_count in H2; [|done].
    rewrite (kcount_keq _ cmp_sym cmp_trans _ k (key e) Hk) in H2. lia.
  - intros Hall e He. apply list_elem_of_In in He.
    rewrite entry_found_in_count by (done || by apply (tab_hashed _ Htab)).
    apply negb_true_iff, Z.ltb_ge.
    destruct (kcount (call_cmpfp cf) (entries gh') (key e)) eqn:Hc; [lia|].
    destruct (Hall (key e)). split; apply haskey_count; try done; [|lia].
    apply kcount_pos. exists e. split; [done|apply cmp_refl].
Qed.

(** Counting: a list without duplicate keys is no longer than a list that
    holds all of its keys. *)
Lemma uniq_keys_le_length l2 :
  uniq (call_cmpfp cf) l2 ->
  forall l1,
    (forall k, (kcount (call_cmpfp cf) l2 k <= kcount (call_cmpfp cf) l1 k)%nat) ->
    (length l2 <= length l1)%nat.
Proof.
  induction l2 as [|e l2 IH]; intros Hu l1 Hle; [simpl; lia|].
  destruct (uniq_cons_inv (call_cmpfp cf) cmp_refl e l2 Hu) as [Hu2 He0].
  assert (0 < kcount (call_cmpfp cf) l1 (key e))%nat as Hpos.
  { specialize (Hle (key e)). simpl in Hle. rewrite cmp_refl in Hle. lia. }
  apply kcount_pos in Hpos as (x & Hx & Hex).
  apply list_elem_of_split in Hx as (la & lb & ->).
  assert (length l2 <= length (la ++ lb))%nat as Hlen.
  { apply IH; [done|]. intros k. specialize (Hle k).
    rewrite kcount_app in *. simpl in Hle.
    destruct (call_cmpfp cf k (key x)) eqn:Hkx.
    - destruct (call_cmpfp cf k (key e)) eqn:Hke; [lia|].
      by rewrite (cmp_trans _ _ _ Hke Hex) in Hkx.
    - assert (call_cmpfp cf k (key e) = false) as Hke
        by (apply (cmp_trans _ (key x)); [done|by apply cmp_sym]).
      rewrite (kcount_keq _ cmp_sym cmp_trans l2 k (key e) Hke), He0. lia. }
  rewrite length_app in *. simpl. lia.
Qed.

(** Counting: of two lists without duplicate keys and of the same length,
    one holding all the keys of the other, each holds the keys of the
    other. *)
Lemma uniq_keys_same l1 :
  uniq (call_cmpfp cf) l1 ->
  forall l2,
    uniq (call_cmpfp cf) l2 -> length l1 = length l2 ->
    (forall k, (kcount (call_cmpfp cf) l1 k <= kcount (call_cmpfp cf) l2 k)%nat) ->
    forall k, (kcount (call_cmpfp cf) l2 k <= kcount (call_cmpfp cf) l1 k)%nat.
Proof.
  induction l1 as [|e l1 IH]; intros Hu1 l2 Hu2 Hlen Hle k.
  - destruct l2; [simpl; lia|done].
  - destruct (uniq_cons_inv (call_cmpfp cf) cmp_refl e l1 Hu1) as [Hu1' He0].
    assert (0 < kcount (call_cmpfp cf) l2 (key e))%nat as Hpos.
    { specialize (Hle (key e)). simpl in Hle. rewrite cmp_refl in Hle. lia. }
    apply kcount_pos in Hpos as (x & Hx & Hex).
    apply list_elem_of_split in Hx as (la & lb & ->).
    assert (uniq (call_cmpfp cf) (x :: la ++ lb)) as Hu2'.
    { apply (uniq_perm _ (la ++ x :: lb)); [|done]. symmetry. apply Permutation_middle. }
    destruct (uniq_cons_inv (call_cmpfp cf) cmp_refl x (la ++ lb) Hu2') as [Hu2'' Hx0].
    assert (forall k, call_cmpfp cf k (key x) = call_cmpfp cf k (key e)) as Hsame.
    { intros k'. destruct (call_cmpfp cf k' (key e)) eqn:Hke.
      - destruct (call_cmpfp cf k' (key x)) eqn:Hkx; [done|].
        by rewrite (cmp_trans _ _ _ Hkx (cmp_sym _ _ Hex)) in Hke.
      - by apply (cmp_trans _ (key e)). }
    assert (forall k, (kcount (call_cmpfp cf) (la ++ lb) k
                       <= kcount (call_cmpfp cf) l1 k)%nat) as Hrest.
    { apply IH; try done.
      - rewrite length_app in *. simpl in Hlen. lia.
      - intros k'. specialize (Hle k'). rewrite kcount_app in *. simpl in Hle.
        rewrite Hsame in Hle.
        destruct (call_cmpfp cf k' (key e)) eqn:Hke; [lia|].
        rewrite (kcount_keq _ cmp_sym cmp_trans l1 k' (key e) Hke), He0. lia. }
    specialize (Hrest k). rewrite kcount_app in *. simpl. rewrite Hsame.
    destruct (call_cmpfp cf k (key e)); lia.
Qed.

(** X10: [BLI_ghash_isdisjoint] (and [BLI_gset_isdisjoint]) on two
    well-formed tables that share the callbacks: the answer is true exactly
    when no key is held by both, whichever of the two tables is the larger
    one (the code walks the smaller). *)
Theorem isdisjoint_spec gh1 gh2 :
  table_of gh1 -> table_of gh2 ->
  (BLI_ghash_isdisjoint call_cmpfp gh1 gh2 = true
   <-> forall k, ~ (BLI_ghash_haskey call_hashfp call_cmpfp gh1 k = true /\
                    BLI_ghash_haskey call_hashfp call_cmpfp gh2 k = true)) /\
  BLI_ghash_isdisjoint call_cmpfp gh1 gh2 = BLI_ghash_isdisjoint call_cmpfp gh2 gh1 /\
  BLI_gset_isdisjoint call_cmpfp gh1 gh2 = BLI_ghash_isdisjoint call_cmpfp gh1 gh2.
Proof.
  intros Htab1 Htab2.
  assert (forall a b, table_of a -> table_of b ->
            (BLI_ghash_isdisjoint call_cmpfp a b = true
             <-> forall k, ~ (BLI_ghash_haskey call_hashfp call_cmpfp a k = true /\
                              BLI_ghash_haskey call_hashfp call_cmpfp b k = true)))
    as Hspec.
  { intros a b Ha Hb. unfold BLI_ghash_isdisjoint.
    destruct (nentries a >? nentries b).
    - rewrite forall_not_found_haskey by done.
      split; intros H k [H1 H2]; by apply (H k).
    - by rewrite forall_not_found_haskey. }
  split_and!; [by apply Hspec| |done].
  destruct (BLI_ghash_isdisjoint call_cmpfp gh1 gh2) eqn:H12;
    destruct (BLI_ghash_isdisjoint call_cmpfp gh2 gh1) eqn:H21; try done.
  - pose proof (proj1 (Hspec gh1 gh2 Htab1 Htab2) H12) as D.
    rewrite <- H21. symmetry. apply Hspec; [done..|].
    intros k [H1 H2]. by apply (D k).
  - pose proof (proj1 (Hspec gh2 gh1 Htab2 Htab1) H21) as D.
    rewrite <- H12. apply Hspec; [done..|].
    intros k [H1 H2]. by apply (D k).
Qed.

(** X11: [BLI_ghash_issubset] and [BLI_ghash_issuperset] (and the GSet
    wrappers) on well-formed tables that share the callbacks, the candidate
    subset free of duplicate keys.  [BLI_ghash_issubset(gh1, gh2)] is true
    exactly when [gh1] holds every key [gh2] holds: the early answer taken
    from the entry counts never disagrees with the keys. *)
Theorem issubset_spec gh1 gh2 :
  table_of gh1 -> table_of gh2 -> uniq (call_cmpfp cf) (entries gh2) ->
  (BLI_ghash_issubset call_cmpfp gh1 gh2 = true
   <-> forall k, BLI_ghash_haskey call_hashfp call_cmpfp gh2 k = true ->
                 BLI_ghash_haskey call_hashfp call_cmpfp gh1 k = true) /\
  BLI_ghash_issuperset call_cmpfp gh2 gh1 = BLI_ghash_issubset call_cmpfp gh1 gh2 /\
  BLI_gset_issubset call_cmpfp gh1 gh2 = BLI_ghash_issubset call_cmpfp gh1 gh2 /\
  BLI_gset_issuperset call_cmpfp gh2 gh1 = BLI_ghash_issubset call_cmpfp gh1 gh2.
Proof.
  intros Htab1 Htab2 Hu2. split_and!; try done.
  unfold BLI_ghash_issubset.
  destruct (nentries gh1 <? nentries gh2) eqn:Hn.
  - split; [done|]. intros Hsub. exfalso. apply Z.ltb_lt in Hn.
    rewrite (ok_count _ (tab_ok _ Htab1)), (ok_count _ (tab_ok _ Htab2)) in Hn.
    assert (length (entries gh2) <= length (entries gh1))%nat; [|lia].
    apply uniq_keys_le_length; [done|]. intros k.
    pose proof (Hu2 k) as Hk.
    destruct (kcount (call_cmpfp cf) (entries gh2) k) eqn:Hc; [lia|].
    assert (0 < kcount (call_cmpfp cf) (entries gh1) k)%nat; [|lia].
    apply haskey_count; [done|]. apply Hsub. apply haskey_count; [done|lia].
  - by apply forall_found_haskey.
Qed.

(** X12: [BLI_ghash_isequal] (and [BLI_gset_isequal]) on two well-formed
    tables without duplicate keys that share the callbacks: the answer is
    true exactly when the two tables hold the same keys.  Values are not
    compared. *)
Theorem isequal_spec gh1 gh2 :
  table_of gh1 -> table_of gh2 ->
  uniq (call_cmpfp cf) (entries gh1) -> uniq (call_cmpfp cf) (entries gh2) ->
  (BLI_ghash_isequal call_cmpfp gh1 gh2 = true
   <-> forall k, BLI_ghash_haskey call_hashfp call_cmpfp gh1 k
                 = BLI_ghash_haskey call_hashfp call_cmpfp gh2 k) /\
  BLI_gset_isequal call_cmpfp gh1 gh2 = BLI_ghash_isequal call_cmpfp gh1 gh2.
Proof.
  intros Htab1 Htab2 Hu1 Hu2. split; [|done].
  unfold BLI_ghash_isequal.
  assert (forall a b, table_of a -> table_of b ->
            (forall k, BLI_ghash_haskey call_hashfp call_cmpfp a k = true ->
                       BLI_ghash_haskey call_hashfp call_cmpfp b k = true) ->
            uniq (call_cmpfp cf) (entries a) ->
            forall k, (kcount (call_cmpfp cf) (entries a) k
                       <= kcount (call_cmpfp cf) (entries b) k)%nat) as Hle.
  { intros a b Ha Hb Hsub Hua k. pose proof (Hua k).
    destruct (kcount (call_cmpfp cf) (entries a) k) eqn:Hc; [lia|].
    assert (0 < kcount (call_cmpfp cf) (entries b) k)%nat; [|lia].
    apply haskey_count; [done|]. apply Hsub. apply haskey_count; [done|lia]. }
  destruct (nentries gh1 =? nentries gh2) eqn:Hn; simpl.
  - apply Z.eqb_eq in Hn.
    rewrite (ok_count _ (tab_ok _ Htab1)), (ok_count _ (tab_ok _ Htab2)) in Hn.
    rewrite forall_found_haskey by done. split.
    + intros Hsub k.
      pose proof (uniq_keys_same (entries gh1) Hu1 (entries gh2) Hu2 ltac:(lia)
                    (Hle gh1 gh2 Htab1 Htab2 Hsub Hu1) k) as Hback.
      pose proof (Hle gh1 gh2 Htab1 Htab2 Hsub Hu1 k) as Hforth.
      rewrite !haskey_kcount by done.
      by replace (kcount (call_cmpfp cf) (entries gh2) k)
        with (kcount (call_cmpfp cf) (entries gh1) k) by lia.
    + intros Heq k. by rewrite Heq.
  - split; [done|]. intros Heq. exfalso. apply Z.eqb_neq in Hn.
    rewrite (ok_count _ (tab_ok _ Htab1)), (ok_count _ (tab_ok _ Htab2)) in Hn.
    assert (length (entries gh1) <= length (entries gh2))%nat.
    { apply uniq_keys_le_length; [done|]. apply Hle; try done.
      intros k. by rewrite Heq. }
    assert (length (entries gh2) <= length (entries gh1))%nat.
    { apply uniq_keys_le_length; [done|]. apply Hle; try done.
      intros k. by rewrite Heq. }
    lia.
Qed.


(* ===================================================================== *)
(** ** Reserving, and inserting below the growth limit *)

Lemma expand_grow_noop fuel n gh nb :
  (n >? limit_grow gh) && (cursize gh <? GHASH_MAX_SIZE - 1) = false ->
  expand_grow fuel n gh nb = (gh, nb).
Proof. intros H. destruct fuel; simpl; [done|]. by rewrite H. Qed.

(** With shrinking off and the count within the growth limit (or the table
    at the last scheduled size) the policy leaves the table as it is. *)
Lemma ghash_expand_buckets_noop g n :
  is_Some (buckets g) ->
  n <= limit_grow g \/ GHASH_MAX_SIZE - 1 <= cursize g ->
  flag_test g GHASH_FLAG_ALLOW_SHRINK = false ->
  ghash_expand_buckets g n false false = g.
Proof.
  intros Hb Hn Hflag. unfold ghash_expand_buckets.
  destruct (bool_decide (is_Some (buckets g)) && (n <? limit_grow g)
            && (n >? limit_shrink g)); [done|].
  rewrite expand_grow_noop.
  - rewrite Hflag. cbn [orb]. rewrite Z.eqb_refl. by rewrite bool_decide_eq_true_2.
  - apply andb_false_iff. destruct Hn as [Hn|Hn]; [left|right]; lia.
Qed.

(** X14: [BLI_ghash_reserve] on a well-formed table without duplicate
    keys, whatever its flags.  The table stays well-formed, keeps its size
    and flags, and every lookup finds the entry it found before; afterwards
    the reserved count is within the growth limit unless the table is at the
    last scheduled size. *)
Theorem reserve_keeps_lookups gh r :
  table_of gh -> uniq (call_cmpfp cf) (entries gh) ->
  let gh' := BLI_ghash_reserve gh r in
  table_of gh' /\ uniq (call_cmpfp cf) (entries gh') /\
  BLI_ghash_size gh' = BLI_ghash_size gh /\ flag gh' = flag gh /\
  (forall k, lookup_entry_deref call_hashfp call_cmpfp gh' k
             = lookup_entry_deref call_hashfp call_cmpfp gh k) /\
  (r <= limit_grow gh' \/ cursize gh' = GHASH_MAX_SIZE - 1) /\
  BLI_ghash_buckets_size gh' = nbuckets gh'.
Proof.
  intros Htab Hu gh'. pose proof Htab as [Hok Hh Hc Hhashed Hesz].
  subst gh'. unfold BLI_ghash_reserve.
  destruct (ghash_expand_buckets_policy gh r true false (ok_policy _ Hok))
    as (P1 & P2 & P3 & P4 & _).
  destruct (ghash_expand_buckets_contents gh r true false (ok_policy _ Hok))
    as (C1 & C2 & C3).
  { right. split; apply Hok. }
  destruct (ghash_expand_buckets_identity gh r true false) as (I1 & I2 & I3 & I4 & I5).
  set (gh' := ghash_expand_buckets gh r true false) in *.
  assert (table_of gh') as T.
  { constructor; try congruence.
    - constructor; try done.
      + rewrite I3, (Permutation_length C3). apply Hok.
      + rewrite I3. apply Hok.
    - intros e He. apply Hhashed. by rewrite <- C3. }
  split_and!; try done.
  - by apply (uniq_perm _ _ _ (symmetry C3)).
  - unfold BLI_ghash_size. by rewrite I3.
  - intros k. by apply lookup_deref_perm.
  - apply P3.
  - unfold BLI_ghash_buckets_size. symmetry. apply P1.
Qed.

(** X15: inserting below the growth limit.  On a table that has its bucket
    array and does not allow shrinking, [BLI_ghash_insert] of an entry that
    keeps the count within [limit_grow] (or at the last scheduled size) links
    the entry at the head of its bucket and does nothing else: no bucket is
    rehashed, and the bucket count, the limits and the cursor stay.  After
    [BLI_ghash_reserve(gh, r)] this holds for every insert up to [r]
    entries. *)
Theorem insert_below_limit_links_only g k v :
  is_Some (buckets g) ->
  flag_test g GHASH_FLAG_ALLOW_SHRINK = false ->
  0 <= nentries g -> nentries g + 1 < 2 ^ 32 ->
  nentries g + 1 <= limit_grow g \/ cursize g = GHASH_MAX_SIZE - 1 ->
  let h := ghash_keyhash call_hashfp g k in
  let g' := (BLI_ghash_insert call_hashfp call_cmpfp g k v).1 in
  g' = set_nentries (bucket_link g (ghash_bucket_hash g h) (mkEntry h k (Some v)))
                    (nentries g + 1) /\
  nbuckets g' = nbuckets g /\ limit_grow g' = limit_grow g /\ cursize g' = cursize g /\
  (forall b, b <> ghash_bucket_hash g h -> 0 <= b -> 0 <= ghash_bucket_hash g h ->
             bucket g' b = bucket g b).
Proof.
  intros [bs Hbs] Hflag H0 Hroom Hlim h g'.
  assert (g' = set_nentries (bucket_link g (ghash_bucket_hash g h) (mkEntry h k (Some v)))
                            (nentries g + 1)) as Hg'.
  { subst g'. unfold BLI_ghash_insert, ghash_insert. fold h.
    rewrite ghash_insert_ex_eq. rewrite uint_small by lia.
    apply ghash_expand_buckets_noop.
    - unfold bucket_link, set_bucket. simpl. rewrite Hbs. by eexists.
    - simpl. destruct Hlim; [left|right]; lia.
    - exact Hflag. }
  split; [exact Hg'|]. rewrite Hg'. split_and!; try done.
  intros b Hne Hb Hb'. unfold bucket_link.
  change (bucket (set_nentries ?x _) b) with (bucket x b).
  by apply set_bucket_bucket_ne.
Qed.

(** X25: removing without the shrink flag.  On a table with a consistent
    resize state that has its bucket array and does not allow shrinking,
    [BLI_ghash_remove] never lowers the bucket count, however few entries
    are left.  When the count after the removal is within [limit_grow] (or
    the table is at the last scheduled size) it unlinks the entry from its
    chain and does nothing else: the bucket count, the limits and the cursor
    stay and the other buckets are untouched.  When the count after the
    removal of a key that is held is still above [limit_grow] (a table that
    [BLI_ghash_reserve] under [GHASH_FLAG_ALLOW_SHRINK] left with fewer
    buckets than its entries ask for) the removal grows the bucket array. *)
Theorem remove_without_shrink_never_shrinks g k kfp vfp :
  policy_ok g -> is_Some (buckets g) ->
  flag_test g GHASH_FLAG_ALLOW_SHRINK = false ->
  1 <= nentries g < 2 ^ 32 ->
  let h := ghash_keyhash call_hashfp g k in
  let g' := (BLI_ghash_remove call_hashfp call_cmpfp g k kfp vfp).1.2 in
  cursize g <= cursize g' /\ nbuckets g <= nbuckets g' /\
  (nentries g - 1 <= limit_grow g \/ cursize g = GHASH_MAX_SIZE - 1 ->
   nbuckets g' = nbuckets g /\ limit_grow g' = limit_grow g /\
   limit_shrink g' = limit_shrink g /\ cursize g' = cursize g /\
   (forall b, b <> ghash_bucket_hash g h -> 0 <= b -> 0 <= ghash_bucket_hash g h ->
              bucket g' b = bucket g b)) /\
  (BLI_ghash_haskey call_hashfp call_cmpfp g k = true ->
   limit_grow g < nentries g - 1 -> cursize g < GHASH_MAX_SIZE - 1 ->
   cursize g < cursize g' /\ nbuckets g < nbuckets g') /\
  (BLI_ghash_haskey call_hashfp call_cmpfp g k = false -> g' = g).
Proof.
  intros Hpol [bs Hbs] Hflag Hn h g'. subst g'.
  unfold BLI_ghash_remove, ghash_remove_ex. fold h.
  set (b := ghash_bucket_hash g h).
  assert (BLI_ghash_haskey call_hashfp call_cmpfp g k
          = bool_decide (is_Some (chain_lookup (call_cmpfp (cmpfp g)) k h (bucket g b))))
    as Hhas by reflexivity.
  destruct (chain_lookup (call_cmpfp (cmpfp g)) k h (bucket g b)) as [i|] eqn:Hi.
  2:{ cbn [fst snd]. split_and!; try done; try lia. intros Hh. by rewrite Hhas in Hh. }
  destruct (chain_find_Some _ _ _ Hi) as (e & He & _).
  unfold entry_at. rewrite He. cbn [fst snd].
  set (g2 := set_nentries (set_bucket g b (delete i (bucket g b))) (uint (nentries g - 1))).
  change (ghash_expand_buckets _ _ false false)
    with (ghash_expand_buckets g2 (nentries g2) false false).
  assert (policy_ok g2) as Hpol2 by (destruct Hpol; by constructor).
  assert (nentries g2 = nentries g - 1) as Hn2 by (unfold g2; simpl; apply uint_small; lia).
  destruct (expand_without_shrink_cursor g2 (nentries g2) false Hpol2 Hflag) as (C1 & _).
  destruct (ghash_expand_buckets_policy g2 (nentries g2) false false Hpol2)
    as (P1 & _ & [P3 _] & _).
  change (cursize g2) with (cursize g) in C1.
  pose proof (pol_cursor _ Hpol) as Hcur. pose proof (pol_cursor _ P1) as Hcur'.
  assert (cursize g < cursize (ghash_expand_buckets g2 (nentries g2) false false) ->
          nbuckets g < nbuckets (ghash_expand_buckets g2 (nentries g2) false false))
    as Hgrown.
  { intros Hlt. rewrite (pol_nbuckets _ Hpol), (pol_nbuckets _ P1).
    apply hashsizes_at_lt; lia. }
  split; [exact C1|]. split.
  { destruct (decide (cursize g
                      = cursize (ghash_expand_buckets g2 (nentries g2) false false)))
      as [Heq|Hne]; [|apply Z.lt_le_incl, Hgrown; lia].
    rewrite (pol_nbuckets _ Hpol), (pol_nbuckets _ P1), Heq. lia. }
  split; [|split].
  - intros Hlim. rewrite ghash_expand_buckets_noop.
    + split_and!; try done.
      intros b' Hne Hb' Hb. unfold g2.
      change (bucket (set_nentries ?x _) b') with (bucket x b').
      by apply set_bucket_bucket_ne.
    + unfold g2, set_bucket. simpl. rewrite Hbs. by eexists.
    + rewrite Hn2. change (limit_grow g2) with (limit_grow g).
      change (cursize g2) with (cursize g). destruct Hlim; [left|right]; lia.
    + exact Hflag.
  - intros _ Hover Hnotmax.
    assert (cursize g < cursize (ghash_expand_buckets g2 (nentries g2) false false))
      as Hlt; [|split; [exact Hlt | by apply Hgrown]].
    destruct (decide (cursize g
                      = cursize (ghash_expand_buckets g2 (nentries g2) false false)))
      as [Heq|Hne]; [exfalso|lia].
    rewrite (pol_limit_grow _ P1), (pol_nbuckets _ P1), <- Heq,
      <- (pol_nbuckets _ Hpol), <- (pol_limit_grow _ Hpol) in P3. lia.
  - rewrite Hhas. simpl. intros Hf. discriminate Hf.
Qed.

(* ===================================================================== *)
(** ** The structural invariant *)

Lemma ghash_ok_set_flag gh x : ghash_ok gh -> ghash_ok (set_flag gh x).
Proof.
  intros [[P1 P2 P3 P4] A L C M]. constructor.
  - constructor; [exact P1|exact P2|exact P3|exact P4].
  - exact A.
  - exact L.
  - exact C.
  - exact M.
Qed.

(** X16: the structural invariant of the table -- the cursor within the
    schedule, [nbuckets = hashsizes[cursize]] with the two limits derived
    from it, a bucket array of [nbuckets] chains, every entry in the chain
    its stored hash selects, and [nentries] the number of entries -- is
    established by the constructors and kept by the insertions, by
    [BLI_gset_reinsert], by [BLI_ghash_reserve] and by the flag setters.
    ([BLI_ghash_reinsert], remove and pop keep it by the theorems on those
    operations.)  In such a table [BLI_ghash_buckets_size] is the number of
    buckets. *)
Theorem structural_invariant_kept gh k v r f kfp :
  ghash_ok gh -> nentries gh + 1 < 2 ^ 32 ->
  ghash_ok (BLI_ghash_new_ex (hashfp gh) (cmpfp gh) r) /\
  ghash_ok (BLI_gset_new_ex (hashfp gh) (cmpfp gh) r) /\
  ghash_ok (BLI_ghash_insert call_hashfp call_cmpfp gh k v).1 /\
  ghash_ok (BLI_ghash_add call_hashfp call_cmpfp gh k v).1.2 /\
  ghash_ok (BLI_gset_insert call_hashfp call_cmpfp gh k).1 /\
  ghash_ok (BLI_gset_add call_hashfp call_cmpfp gh k).1.2 /\
  ghash_ok (BLI_gset_reinsert call_hashfp call_cmpfp gh k kfp).1.2 /\
  ghash_ok (BLI_ghash_reserve gh r) /\
  ghash_ok (BLI_ghash_flag_set gh f) /\ ghash_ok (BLI_ghash_flag_clear gh f) /\
  BLI_ghash_buckets_size gh = nbuckets gh /\
  BLI_ghash_buckets_size gh = Z.of_nat (length (bucket_array gh)).
Proof.
  intros Hok Hroom.
  set (h := ghash_keyhash call_hashfp gh k).
  set (b := ghash_bucket_hash gh h).
  pose proof (bucket_hash_range gh h (ok_array _ Hok)) as Hrange. fold b in Hrange.
  assert (ghash_ok (BLI_ghash_insert call_hashfp call_cmpfp gh k v).1) as Hins.
  { unfold BLI_ghash_insert, ghash_insert. rewrite ghash_insert_ex_eq.
    by apply (link_entry_spec gh _ (mkEntry h k (Some v)) Hok eq_refl Hroom). }
  assert (ghash_ok (BLI_gset_insert call_hashfp call_cmpfp gh k).1) as Hinsk.
  { unfold BLI_gset_insert. rewrite ghash_insert_ex_keyonly_eq.
    by apply (link_entry_spec gh _ (mkEntry h k None) Hok eq_refl Hroom). }
  split_and!.
  - unfold BLI_ghash_new_ex. exact (proj1 (ghash_new_ok _ _ _ _)).
  - unfold BLI_gset_new_ex. apply ghash_ok_set_flag.
    exact (proj1 (ghash_new_ok _ _ _ _)).
  - exact Hins.
  - unfold BLI_ghash_add, ghash_insert_safe. fold h b.
    destruct (ghash_lookup_entry_ex call_cmpfp gh k h b); [done|].
    revert Hins. unfold BLI_ghash_insert, ghash_insert. fold h b.
    by destruct (ghash_insert_ex call_hashfp call_cmpfp gh k v h b).
  - exact Hinsk.
  - unfold BLI_gset_add, ghash_insert_safe_keyonly. fold h b.
    destruct (ghash_lookup_entry_ex call_cmpfp gh k h b); [done|].
    revert Hinsk. unfold BLI_gset_insert. fold h b.
    by destruct (ghash_insert_ex_keyonly call_hashfp call_cmpfp gh k h b).
  - unfold BLI_gset_reinsert, ghash_insert_safe_keyonly. fold h b.
    destruct (ghash_lookup_entry_ex call_cmpfp gh k h b) as [i|] eqn:Hi.
    + unfold entry_at. destruct (bucket gh b !! i) as [e|] eqn:He; [|done].
      by apply (entry_store_ok gh b i e (mkEntry (hash e) k (val e)) Hok Hrange He).
    + revert Hinsk. unfold BLI_gset_insert. fold h b.
      by destruct (ghash_insert_ex_keyonly call_hashfp call_cmpfp gh k h b).
  - unfold BLI_ghash_reserve.
    destruct (ghash_expand_buckets_policy gh r true false (ok_policy _ Hok)) as (P1 & _).
    destruct (ghash_expand_buckets_contents gh r true false (ok_policy _ Hok))
      as (C1 & C2 & C3).
    { right. split; apply Hok. }
    constructor; try done.
    + rewrite ghash_expand_buckets_nentries, (Permutation_length C3). apply Hok.
    + rewrite ghash_expand_buckets_nentries. apply Hok.
  - by apply ghash_ok_set_flag.
  - by apply ghash_ok_set_flag.
  - unfold BLI_ghash_buckets_size. symmetry. apply Hok.
  - unfold BLI_ghash_buckets_size. rewrite <- (pol_nbuckets _ (ok_policy _ Hok)).
    destruct (ok_array _ Hok) as [_ (bs & Hbs & Hlen)].
    unfold bucket_array. by rewrite Hbs.
Qed.

(* ===================================================================== *)
(** ** Flags *)

Lemma land_uint_range a b : 0 <= a < 2 ^ 32 -> 0 <= b -> 0 <= Z.land a b < 2 ^ 32.
Proof.
  intros Ha Hb.
  assert (0 <= Z.land a b) as Hnn by (apply Z.land_nonneg; lia).
  split; [done|].
  destruct (Z.eq_dec (Z.land a b) 0) as [->|Hne]; [lia|].
  assert (0 < a) as Hpos.
  { destruct (Z.eq_dec a 0) as [->|]; [by rewrite Z.land_0_l in Hne|lia]. }
  apply Z.log2_lt_pow2; [lia|].
  pose proof (Z.log2_land a b ltac:(lia) Hb).
  assert (Z.log2 a < 32) by (apply Z.log2_lt_pow2; lia). lia.
Qed.

(** X17: [BLI_ghash_flag_set] and [BLI_ghash_flag_clear] (and the GSet
    wrappers) change the named bits of the flag word and nothing else: after
    setting, a bit is on when it was on or is named; after clearing, a bit is
    on when it was on and is not named, the complement being taken in
    [unsigned int]; the entries, the buckets and the policy fields are the
    same. *)
Theorem flag_set_clear_bits gh f (i : Z) :
  0 <= flag gh < 2 ^ 32 -> 0 <= i < 32 ->
  Z.testbit (flag (BLI_ghash_flag_set gh f)) i
    = Z.testbit (flag gh) i || Z.testbit f i /\
  Z.testbit (flag (BLI_ghash_flag_clear gh f)) i
    = Z.testbit (flag gh) i && negb (Z.testbit f i) /\
  0 <= flag (BLI_ghash_flag_clear gh f) < 2 ^ 32 /\
  BLI_ghash_flag_set gh f = set_flag gh (flag (BLI_ghash_flag_set gh f)) /\
  BLI_ghash_flag_clear gh f = set_flag gh (flag (BLI_ghash_flag_clear gh f)) /\
  BLI_gset_flag_set gh f = BLI_ghash_flag_set gh f /\
  BLI_gset_flag_clear gh f = BLI_ghash_flag_clear gh f.
Proof.
  intros Hflag Hi. unfold BLI_ghash_flag_set, BLI_ghash_flag_clear.
  cbn [flag set_flag].
  split; [apply Z.lor_spec|].
  split.
  { rewrite Z.land_spec. f_equal. unfold uint.
    rewrite Z.mod_pow2_bits_low by lia. apply Z.lnot_spec. lia. }
  split.
  { apply land_uint_range; [done|apply uint_range]. }
  repeat split; reflexivity.
Qed.


(* ===================================================================== *)
(** ** Left-biased union into a new table *)



(* ===================================================================== *)
(** ** The growth policy *)

(** X24: growth is minimal.  When shrinking is neither allowed nor forced,
    [ghash_expand_buckets] never moves the cursor down; it leaves the
    cursor where it is when the count is within the growth limit; and when
    it moves the cursor up it stops at the first scheduled size whose growth
    limit holds the count (or at the last size): the size before the one
    chosen would have been too small. *)
Theorem growth_is_minimal gh n ud :
  policy_ok gh -> flag_test gh GHASH_FLAG_ALLOW_SHRINK = false ->
  let gh' := ghash_expand_buckets gh n ud false in
  cursize gh <= cursize gh' /\
  (n <= limit_grow gh' \/ cursize gh' = GHASH_MAX_SIZE - 1) /\
  (n <= limit_grow gh -> cursize gh' = cursize gh) /\
  (cursize gh < cursize gh' ->
   GHASH_LIMIT_GROW (hashsizes_at (cursize gh' - 1)) < n) /\
  nbuckets gh' = hashsizes_at (cursize gh').
Proof.
  intros Hpol Hflag gh'.
  destruct (ghash_expand_buckets_policy gh n ud false Hpol) as (P1 & P2 & P3 & P4 & P5).
  fold gh' in P1, P2, P3, P4, P5.
  assert (cursize gh <= cursize gh' /\
          (n <= limit_grow gh -> cursize gh' = cursize gh) /\
          (cursize gh < cursize gh' ->
           GHASH_LIMIT_GROW (hashsizes_at (cursize gh' - 1)) < n)) as (C1 & C2 & C3).
  { subst gh'. unfold ghash_expand_buckets.
    destruct (bool_decide (is_Some (buckets gh)) && (n <? limit_grow gh)
              && (n >? limit_shrink gh)); [split_and!; [lia|done|lia]|].
    destruct Hpol as [[Hc0 Hc1] Hnb Hlg Hls].
    pose proof (expand_grow_spec expand_fuel n gh (nbuckets gh)) as G.
    destruct G as (G1 & G2 & G3 & G4 & G5 & G6).
    { lia. }
    { rewrite expand_fuel_eq. unfold GHASH_MAX_SIZE in *. lia. }
    { done. }
    { done. }
    destruct (expand_grow expand_fuel n gh (nbuckets gh)) as [g1 nb1] eqn:Hg1.
    cbn [fst snd] in *.
    pose proof (expand_grow_identity expand_fuel n gh (nbuckets gh)) as I.
    rewrite Hg1 in I. cbn [fst] in I. destruct I as ((_ & _ & _ & If & _) & _).
    assert (flag_test g1 GHASH_FLAG_ALLOW_SHRINK = false) as Hflag1.
    { unfold flag_test in *. by rewrite If. }
    rewrite Hflag1. cbn [orb].
    assert (forall g : GHash, cursize (if ud then set_size_min g (cursize g) else g)
                              = cursize g) as Hud by (intros; by destruct ud).
    assert (forall g nb,
              cursize (if (nb =? nbuckets g) && bool_decide (is_Some (buckets g)) then g
                       else ghash_resize_buckets
                              (set_limit_shrink (set_limit_grow g (GHASH_LIMIT_GROW nb))
                                                (GHASH_LIMIT_SHRINK nb)) nb)
              = cursize g) as Hfin.
    { intros g nb. by destruct ((nb =? nbuckets g) && bool_decide (is_Some (buckets g))). }
    rewrite Hfin, Hud. split_and!.
    - lia.
    - intros Hn. destruct (Z.eq_dec (cursize gh) (cursize g1)) as [He|Hne]; [done|].
      assert (cursize gh < cursize g1) as Hlt by lia.
      destruct (G5 Hlt) as [_ Hgt]. lia.
    - intros Hlt. by destruct (G5 Hlt). }
  split_and!; try done.
  - apply P3.
  - apply P1.
Qed.

End Algebra.

(* ===================================================================== *)
(** * The iterator *)

(** [n] steps of an iterator. *)
Fixpoint iter_steps (n : nat) (ghi : GHashIterator) : option GHashIterator :=
  match n with
  | O => Some ghi
  | S n => ghi' ← BLI_ghashIterator_step ghi; iter_steps n ghi'
  end.

(** The iterator [ghi] stands at position [n] of the entries of [gh], or
    after the last one. *)
Definition iter_pos (gh : GHash) (ghi : GHashIterator) (n : nat) : Prop :=
  ghi_gh ghi = gh /\
  match curEntry ghi with
  | Some i =>
      exists chain,
        0 <= curBucket ghi /\
        bucket_array gh !! Z.to_nat (curBucket ghi) = Some chain /\
        (i < length chain)%nat /\
        n = (length (concat (take (Z.to_nat (curBucket ghi)) (bucket_array gh))) + i)%nat
  | None => n = length (entries gh)
  end.

Lemma iter_seek_spec gh :
  nbuckets gh < 2 ^ 32 ->
  forall suf pre c fuel,
    bucket_array gh = pre ++ suf ->
    nbuckets gh = Z.of_nat (length (pre ++ suf)) ->
    uint (c + 1) = Z.of_nat (length pre) ->
    (length suf < fuel)%nat ->
    exists r, iter_seek fuel (mkGHashIterator gh None c) = Some r /\
              iter_pos gh r (length (concat pre)).
Proof.
  intros Hmax. induction suf as [|ch suf IH]; intros pre c fuel Hbs Hnb Hc Hfuel.
  - destruct fuel as [|fuel]; [simpl in Hfuel; lia|]. simpl.
    rewrite app_nil_r in *. rewrite Hc, Hnb, Z.eqb_refl.
    eexists. split; [reflexivity|]. split; [done|]. simpl.
    unfold entries. by rewrite Hbs.
  - destruct fuel as [|fuel]; [simpl in Hfuel; lia|]. simpl in Hfuel.
    cbn [iter_seek ghi_gh curEntry curBucket]. rewrite Hc.
    assert ((Z.of_nat (length pre) =? nbuckets gh) = false) as ->.
    { apply Z.eqb_neq. rewrite Hnb, length_app. simpl. lia. }
    assert (bucket gh (Z.of_nat (length pre)) = ch) as Hch.
    { unfold bucket. rewrite Hbs, Nat2Z.id, list_lookup_middle by done. done. }
    unfold chain_head. rewrite Hch. destruct ch as [|e ch].
    + destruct (IH (pre ++ [[]]) (Z.of_nat (length pre)) fuel) as (r & Hr & Hpos).
      * by rewrite <- app_assoc.
      * by rewrite <- app_assoc.
      * rewrite length_app. simpl. rewrite uint_small; [lia|].
        rewrite Hnb, length_app in Hmax. simpl in Hmax. lia.
      * lia.
      * exists r. split; [exact Hr|].
        rewrite concat_app in Hpos. simpl in Hpos. by rewrite app_nil_r in Hpos.
    + eexists. split; [reflexivity|]. split; [done|]. simpl.
      exists (e :: ch). rewrite Nat2Z.id, Hbs.
      split; [lia|]. split; [by rewrite list_lookup_middle|].
      split; [simpl; lia|]. rewrite take_app_length. lia.
Qed.

Lemma iter_pos_entry gh ghi n :
  array_ok gh -> iter_pos gh ghi n -> iter_entry ghi = entries gh !! n.
Proof.
  intros Harr [Hgh Hpos]. unfold iter_entry. destruct (curEntry ghi) as [i|]; simpl.
  - destruct Hpos as (chain & Hb & Hchain & Hi & ->).
    unfold entry_at, bucket. rewrite Hgh, Hchain. simpl.
    unfold entries.
    rewrite <- (take_drop_middle _ _ _ Hchain) at 2.
    rewrite concat_app. simpl.
    rewrite lookup_app_r by lia.
    replace (length (concat (take (Z.to_nat (curBucket ghi)) (bucket_array gh))) + i
             - length (concat (take (Z.to_nat (curBucket ghi)) (bucket_array gh))))%nat
      with i by lia.
    by rewrite lookup_app_l.
  - subst n. symmetry. by apply lookup_ge_None_2.
Qed.

Lemma iter_step_spec gh ghi n :
  array_ok gh -> nbuckets gh < 2 ^ 32 -> iter_pos gh ghi n ->
  exists ghi', BLI_ghashIterator_step ghi = Some ghi' /\
               iter_pos gh ghi' (Nat.min (S n) (length (entries gh))).
Proof.
  intros [Hpos (bs & Hbs & Hlen)] Hmax [Hgh Hp]. unfold BLI_ghashIterator_step.
  assert (bucket_array gh = bs) as Hba by (unfold bucket_array; by rewrite Hbs).
  remember (Nat.min (S n) (length (entries gh))) as m eqn:Hm.
  destruct (curEntry ghi) as [i|] eqn:Hce.
  - destruct Hp as (chain & Hb & Hchain & Hi & Hn).
    assert (Z.to_nat (curBucket ghi) < length bs)%nat as Hblt.
    { rewrite <- Hba. by eapply lookup_lt_Some. }
    assert (length (entries gh)
            = length (concat (take (Z.to_nat (curBucket ghi)) (bucket_array gh)))
              + length chain
              + length (concat (drop (S (Z.to_nat (curBucket ghi))) (bucket_array gh))))%nat
      as Htotal.
    { unfold entries. rewrite <- (take_drop_middle _ _ _ Hchain) at 1.
      rewrite concat_app. simpl. rewrite !length_app. lia. }
    cbn [ghi_gh curEntry curBucket]. rewrite Hgh.
    unfold chain_next, bucket. rewrite Hchain. simpl.
    destruct (chain !! S i) as [e|] eqn:Hnext.
    + eexists. split; [reflexivity|]. split; [done|]. simpl.
      exists chain. apply lookup_lt_Some in Hnext.
      split_and!; try done. lia.
    + apply lookup_ge_None in Hnext.
      destruct (iter_seek_spec gh Hmax (drop (S (Z.to_nat (curBucket ghi))) bs)
                  (take (S (Z.to_nat (curBucket ghi))) bs) (curBucket ghi)
                  (iter_fuel gh)) as (r & Hr & Hposr).
      * by rewrite take_drop.
      * by rewrite take_drop.
      * rewrite length_take. rewrite Nat.min_l by lia.
        rewrite uint_small; lia.
      * unfold iter_fuel. rewrite length_drop. lia.
      * exists r. split; [exact Hr|].
        rewrite Hba in *.
        rewrite (take_S_r _ _ _ Hchain), concat_app, length_app in Hposr.
        simpl in Hposr. rewrite app_nil_r in Hposr.
        replace m
          with (length (concat (take (Z.to_nat (curBucket ghi)) bs)) + length chain)%nat
          by lia.
        exact Hposr.
  - exists ghi. split; [done|]. split; [done|]. rewrite Hce. subst n. lia.
Qed.

Lemma iter_init_spec gh :
  array_ok gh -> nbuckets gh < 2 ^ 32 ->
  (nentries gh = 0 -> entries gh = []) ->
  exists ghi, BLI_ghashIterator_init gh = Some ghi /\ iter_pos gh ghi 0.
Proof.
  intros [Hpos (bs & Hbs & Hlen)] Hmax Hzero. unfold BLI_ghashIterator_init.
  assert (bucket_array gh = bs) as Hba by (unfold bucket_array; by rewrite Hbs).
  destruct (nentries gh =? 0) eqn:Hn; cbn [negb].
  - apply Z.eqb_eq in Hn. eexists. split; [reflexivity|]. split; [done|]. simpl.
    by rewrite (Hzero Hn).
  - destruct (iter_seek_spec gh Hmax bs [] UINT_MAX (iter_fuel gh)) as (r & Hr & Hposr).
    + exact Hba.
    + simpl. lia.
    + reflexivity.
    + unfold iter_fuel. lia.
    + by exists r.
Qed.

(** X13: the iterator, on a well-formed table that is not modified while it
    is iterated.  After [BLI_ghashIterator_init] and [n] calls of
    [BLI_ghashIterator_step] the iterator stands on the [n]-th entry in
    bucket order, whose key and value the accessors return, and it is done
    exactly when [n] has reached the number of entries: every entry is
    visited once, and the iterator steps exactly that many times before
    becoming done.  The number of entries is [BLI_ghash_size(gh)], as the
    comment of [BLI_ghashIterator_init] has it, for a table of fewer than
    [2^31] entries; from there on [BLI_ghash_size], an [int], is negative.
    Stepping a finished iterator leaves it finished. *)
Theorem iterator_visits_entries gh (n : nat) :
  ghash_ok gh ->
  exists ghi,
    (BLI_ghashIterator_init gh ≫= iter_steps n) = Some ghi /\
    ghi_gh ghi = gh /\
    BLI_ghashIterator_getKey ghi = key <$> entries gh !! n /\
    BLI_ghashIterator_getValue ghi = (entries gh !! n) ≫= val /\
    BLI_ghashIterator_done ghi = bool_decide (length (entries gh) <= n)%nat /\
    (nentries gh < 2 ^ 31 ->
     BLI_ghashIterator_done ghi = bool_decide (BLI_ghash_size gh <= Z.of_nat n)).
Proof.
  intros Hok.
  assert (nbuckets gh < 2 ^ 32) as Hmax.
  { rewrite (pol_nbuckets _ (ok_policy _ Hok)).
    pose proof (pol_cursor _ (ok_policy _ Hok)) as Hc.
    assert (forallb (fun c => hashsizes_at c <? 2 ^ 32) (seqZ 0 (GHASH_MAX_SIZE - 0)) = true)
      as Hall by (by vm_compute).
    pose proof (schedule_check _ 0 GHASH_MAX_SIZE Hall (cursize gh)) as H.
    apply Z.ltb_lt, H. lia. }
  assert (exists ghi, (BLI_ghashIterator_init gh ≫= iter_steps n) = Some ghi /\
                      iter_pos gh ghi (Nat.min n (length (entries gh))))
    as (ghi & Hrun & Hpos).
  { destruct (iter_init_spec gh (ok_array _ Hok) Hmax) as (g0 & Hinit & Hp0).
    { intros Hz. rewrite (ok_count _ Hok) in Hz. by destruct (entries gh). }
    rewrite Hinit. simpl. clear Hinit.
    replace 0%nat with (Nat.min 0 (length (entries gh))) in Hp0 by lia.
    assert (forall m g, iter_pos gh g (Nat.min m (length (entries gh))) ->
              exists ghi, iter_steps n g = Some ghi /\
                          iter_pos gh ghi (Nat.min (m + n) (length (entries gh))))
      as Hsteps.
    { induction n as [|n IH]; intros m g Hg.
      - exists g. split; [done|]. by rewrite Nat.add_0_r.
      - destruct (iter_step_spec gh g _ (ok_array _ Hok) Hmax Hg) as (g' & Hstep & Hg').
        simpl. rewrite Hstep. simpl.
        replace (Nat.min (S (Nat.min m (length (entries gh)))) (length (entries gh)))
          with (Nat.min (S m) (length (entries gh))) in Hg' by lia.
        destruct (IH (S m) g' Hg') as (ghi & Hr & Hp). exists ghi. split; [done|].
        by replace (m + S n)%nat with (S m + n)%nat by lia. }
    destruct (Hsteps 0%nat g0 Hp0) as (ghi & Hr & Hp). by exists ghi. }
  exists ghi. split; [exact Hrun|]. split; [apply Hpos|].
  pose proof (iter_pos_entry gh ghi _ (ok_array _ Hok) Hpos) as Hentry.
  assert (iter_entry ghi = entries gh !! n) as Hentry'.
  { rewrite Hentry. destruct (le_lt_dec (length (entries gh)) n) as [Hge|Hlt].
    - rewrite Nat.min_r by lia. rewrite !lookup_ge_None_2; [done|lia|lia].
    - by rewrite Nat.min_l by lia. }
  assert (BLI_ghashIterator_done ghi
          = bool_decide (Z.of_nat (length (entries gh)) <= Z.of_nat n)) as Hdone.
  { unfold BLI_ghashIterator_done.
    destruct Hpos as [_ Hp]. destruct (curEntry ghi) as [i|]; simpl.
    + destruct Hp as (chain & _ & Hchain & Hi & Hn).
      symmetry. apply bool_decide_eq_false.
      assert (Nat.min n (length (entries gh)) < length (entries gh))%nat; [|lia].
      rewrite Hn. unfold entries.
      rewrite <- (take_drop_middle _ _ _ Hchain) at 2.
      rewrite concat_app. simpl. rewrite !length_app. lia.
    + symmetry. apply bool_decide_eq_true. lia. }
  split_and!.
  - unfold BLI_ghashIterator_getKey. by rewrite Hentry'.
  - unfold BLI_ghashIterator_getValue. by rewrite Hentry'.
  - rewrite Hdone. apply bool_decide_ext. lia.
  - intros Hsmall. rewrite Hdone. unfold BLI_ghash_size.
    pose proof (ok_count _ Hok) as Hcnt.
    rewrite to_int_small by lia. by rewrite Hcnt.
Qed.

(* ===================================================================== *)
(** * The generic hash and comparison functions *)

Lemma testbit_high a i : 0 <= a < 2 ^ 32 -> 32 <= i -> Z.testbit a i = false.
Proof.
  intros Ha Hi. rewrite <- (Z.mod_small a (2 ^ 32)) by lia.
  apply Z.mod_pow2_bits_high. lia.
Qed.

Lemma lxor_uint_range a b : 0 <= a < 2 ^ 32 -> 0 <= b < 2 ^ 32 -> 0 <= Z.lxor a b < 2 ^ 32.
Proof.
  intros Ha Hb.
  assert (0 <= Z.lxor a b) as Hnn by (apply Z.lxor_nonneg; lia).
  split; [done|].
  rewrite <- (Z.mod_small (Z.lxor a b) (2 ^ 32)); [apply Z.mod_pos_bound; lia|].
  split; [done|].
  destruct (Z.eq_dec (Z.lxor a b) 0) as [->|Hne]; [lia|].
  apply Z.log2_lt_pow2; [lia|].
  pose proof (Z.log2_lxor a b ltac:(lia) ltac:(lia)).
  assert (Z.log2 a < 32).
  { destruct (Z.eq_dec a 0) as [->|]; [by vm_compute|apply Z.log2_lt_pow2; lia]. }
  assert (Z.log2 b < 32).
  { destruct (Z.eq_dec b 0) as [->|]; [by vm_compute|apply Z.log2_lt_pow2; lia]. }
  lia.
Qed.

Lemma shiftr_uint_range a s : 0 <= a < 2 ^ 32 -> 0 <= s -> 0 <= Z.shiftr a s < 2 ^ 32.
Proof.
  intros Ha Hs. rewrite Z.shiftr_div_pow2 by done.
  assert (0 < 2 ^ s) by (apply Z.pow_pos_nonneg; lia).
  split; [apply Z.div_pos; lia|].
  apply Z.div_lt_upper_bound; [lia|]. nia.
Qed.

(** [key ^= key >> s] loses nothing: the bits come back from the top
    down. *)
Lemma xorshift_inj s a b :
  0 < s -> 0 <= a < 2 ^ 32 -> 0 <= b < 2 ^ 32 ->
  Z.lxor a (Z.shiftr a s) = Z.lxor b (Z.shiftr b s) -> a = b.
Proof.
  intros Hs Ha Hb Heq.
  assert (forall n : nat, forall i, 32 - Z.of_nat n <= i -> Z.testbit a i = Z.testbit b i)
    as Hbits.
  { induction n as [|n IH]; intros i Hi.
    - rewrite !testbit_high by lia. done.
    - destruct (Z_lt_le_dec i 0) as [Hneg|Hnn].
      { by rewrite !Z.testbit_neg_r. }
      assert (Z.testbit (Z.lxor a (Z.shiftr a s)) i
              = Z.testbit (Z.lxor b (Z.shiftr b s)) i) as Hi' by (by rewrite Heq).
      rewrite !Z.lxor_spec, !Z.shiftr_spec in Hi' by lia.
      rewrite (IH (i + s)) in Hi' by lia.
      destruct (Z.testbit a i), (Z.testbit b i), (Z.testbit b (i + s)); done. }
  apply Z.bits_inj'. intros i Hi. apply (Hbits 32%nat). lia.
Qed.

(** [key += ~(key << s)] and [key += key << s] multiply by an odd number
    (and add a constant): with an inverse of the factor at hand, the key
    comes back. *)
Lemma mul_add_inj c t u v a b :
  u * 2 ^ 32 + v * c = 1 ->
  0 <= a < 2 ^ 32 -> 0 <= b < 2 ^ 32 ->
  uint (a * c + t) = uint (b * c + t) -> a = b.
Proof.
  intros Hinv Ha Hb Heq. unfold uint in Heq.
  pose proof (Z.div_mod (a * c + t) (2 ^ 32) ltac:(lia)) as Da.
  pose proof (Z.div_mod (b * c + t) (2 ^ 32) ltac:(lia)) as Db.
  set (qa := (a * c + t) / 2 ^ 32) in *. set (qb := (b * c + t) / 2 ^ 32) in *.
  assert ((a - b) * c = 2 ^ 32 * (qa - qb)) as Hdiff by lia.
  assert (a - b = 2 ^ 32 * ((a - b) * u + v * (qa - qb))) as Hmul.
  { transitivity ((a - b) * (u * 2 ^ 32 + v * c)); [rewrite Hinv; lia|].
    transitivity (2 ^ 32 * ((a - b) * u) + v * ((a - b) * c)); [ring|].
    rewrite Hdiff. ring. }
  lia.
Qed.

Lemma uint_add_not_shift k s :
  0 <= s ->
  uint (k + uint (Z.lnot (uint (Z.shiftl k s)))) = uint (k * (1 - 2 ^ s) + (- 1)).
Proof.
  intros Hs. unfold uint. rewrite Z.shiftl_mul_pow2 by done.
  rewrite Zplus_mod_idemp_r. unfold Z.lnot, Z.pred.
  replace (k + (- (k * 2 ^ s mod 2 ^ 32) + -1)) with ((k - 1) - (k * 2 ^ s) mod 2 ^ 32) by lia.
  rewrite Zminus_mod_idemp_r. f_equal. lia.
Qed.

Lemma uint_add_shift k s :
  0 <= s -> uint (k + uint (Z.shiftl k s)) = uint (k * (1 + 2 ^ s) + 0).
Proof.
  intros Hs. unfold uint. rewrite Z.shiftl_mul_pow2 by done.
  rewrite Zplus_mod_idemp_r. f_equal. lia.
Qed.

(** X18: [BLI_ghashutil_uinthash] permutes the 32-bit integers: its result
    is a 32-bit integer, and two different 32-bit keys never have the same
    hash. *)
Theorem uinthash_injective a b :
  0 <= a < 2 ^ 32 -> 0 <= b < 2 ^ 32 ->
  0 <= BLI_ghashutil_uinthash a < 2 ^ 32 /\
  (BLI_ghashutil_uinthash a = BLI_ghashutil_uinthash b -> a = b).
Proof.
  intros Ha Hb. unfold BLI_ghashutil_uinthash.
  set (f1 := fun k => uint (k + uint (Z.lnot (uint (Z.shiftl k 16))))).
  set (f2 := fun k => Z.lxor k (Z.shiftr k 5)).
  set (f3 := fun k => uint (k + uint (Z.shiftl k 3))).
  set (f4 := fun k => Z.lxor k (Z.shiftr k 13)).
  set (f5 := fun k => uint (k + uint (Z.lnot (uint (Z.shiftl k 9))))).
  set (f6 := fun k => Z.lxor k (Z.shiftr k 17)).
  change (0 <= f6 (f5 (f4 (f3 (f2 (f1 a))))) < 2 ^ 32 /\
          (f6 (f5 (f4 (f3 (f2 (f1 a))))) = f6 (f5 (f4 (f3 (f2 (f1 b))))) -> a = b)).
  assert (forall k, 0 <= f1 k < 2 ^ 32) as R1 by (intros; apply uint_range).
  assert (forall k, 0 <= f3 k < 2 ^ 32) as R3 by (intros; apply uint_range).
  assert (forall k, 0 <= f5 k < 2 ^ 32) as R5 by (intros; apply uint_range).
  assert (forall s k, 0 <= s -> 0 <= k < 2 ^ 32 -> 0 <= Z.lxor k (Z.shiftr k s) < 2 ^ 32)
    as Rx.
  { intros s k Hs Hk. apply lxor_uint_range; [done|by apply shiftr_uint_range]. }
  assert (forall k, 0 <= k < 2 ^ 32 -> 0 <= f2 k < 2 ^ 32) as R2
    by (intros; apply Rx; [lia|done]).
  assert (forall k, 0 <= k < 2 ^ 32 -> 0 <= f4 k < 2 ^ 32) as R4
    by (intros; apply Rx; [lia|done]).
  assert (forall k, 0 <= k < 2 ^ 32 -> 0 <= f6 k < 2 ^ 32) as R6
    by (intros; apply Rx; [lia|done]).
  split; [by apply R6|].
  intros H6.
  apply (xorshift_inj 17) in H6; [|lia|by apply R5..].
  unfold f5 in H6. rewrite !uint_add_not_shift in H6 by lia.
  apply (mul_add_inj _ _ 16 (1 + 2 ^ 9 + 2 ^ 18 + 2 ^ 27)) in H6;
    [|by vm_compute|by apply R4, R3|by apply R4, R3].
  apply (xorshift_inj 13) in H6; [|lia|by apply R3..].
  unfold f3 in H6. rewrite !uint_add_shift in H6 by lia.
  apply (mul_add_inj _ _ (-2) 954437177) in H6;
    [|by vm_compute|by apply R2, R1|by apply R2, R1].
  apply (xorshift_inj 5) in H6; [|lia|by apply R1..].
  unfold f1 in H6. rewrite !uint_add_not_shift in H6 by lia.
  by apply (mul_add_inj _ _ 1 (1 + 2 ^ 16)) in H6; [|by vm_compute|done..].
Qed.

(** X19: [BLI_ghashutil_ptrhash] on an LP64 target is the pointer without
    its four low bits, cut to 32 bits: the bits rotated in from below land
    above bit 32.  So two different 16-byte aligned addresses below [2^36]
    never have the same hash. *)
Theorem ptrhash_drops_low_bits k a b :
  BLI_ghashutil_ptrhash k = (k mod 2 ^ 64 / 16) mod 2 ^ 32 /\
  (0 <= a < 2 ^ 36 -> 0 <= b < 2 ^ 36 -> a mod 16 = 0 -> b mod 16 = 0 ->
   BLI_ghashutil_ptrhash a = BLI_ghashutil_ptrhash b -> a = b).
Proof.
  assert (forall k, BLI_ghashutil_ptrhash k = (k mod 2 ^ 64 / 16) mod 2 ^ 32) as Hspec.
  { clear. intros k. unfold BLI_ghashutil_ptrhash, uint, sizeof_ptr.
    set (y := k mod 2 ^ 64).
    change (8 * 8 - 4) with 60.
    rewrite <- !Z.land_ones by lia. rewrite Z.land_lor_distr_l.
    rewrite !Z.land_ones by lia.
    rewrite Z.shiftl_mul_pow2, Z.shiftr_div_pow2 by lia.
    assert ((y * 2 ^ 60) mod 2 ^ 64 mod 2 ^ 32 = 0) as ->.
    { rewrite Z.mod_mod_divide by (exists (2 ^ 32); lia).
      replace (y * 2 ^ 60) with ((y * 2 ^ 28) * 2 ^ 32) by lia.
      apply Z.mod_mul. lia. }
    rewrite Z.lor_0_r. done. }
  split; [apply Hspec|].
  intros Ha Hb Ha16 Hb16. rewrite !Hspec.
  rewrite !(Z.mod_small _ (2 ^ 64)) by lia.
  assert (0 <= a / 16 < 2 ^ 32) by (split; [apply Z.div_pos; lia|apply Z.div_lt_upper_bound; lia]).
  assert (0 <= b / 16 < 2 ^ 32) by (split; [apply Z.div_pos; lia|apply Z.div_lt_upper_bound; lia]).
  rewrite !Z.mod_small by lia. intros Heq.
  rewrite (Z.div_mod a 16), (Z.div_mod b 16) by lia. lia.
Qed.

(** *** The string hash *)

Lemma strhash_step_eq h c : strhash_step h c = uint (h * 33 + c).
Proof.
  unfold strhash_step, uint. rewrite Z.shiftl_mul_pow2 by lia.
  rewrite Zplus_mod_idemp_r, Zplus_mod_idemp_l, <- Z.add_assoc, Zplus_mod_idemp_l.
  f_equal. lia.
Qed.

(** The hash the comment of [BLI_ghashutil_strhash_n] describes: from 5381,
    [hash = hash * 33 + c] for each character. *)
Definition djb (s : list Z) : Z := foldl (fun h c => h * 33 + c) 5381 s.

Lemma foldl_djb_uint s :
  forall h h', uint h = uint h' ->
    uint (foldl strhash_step h s) = uint (foldl (fun h c => h * 33 + c) h' s).
Proof.
  induction s as [|c s IH]; intros h h' Hh; [done|]. simpl. apply IH.
  rewrite strhash_step_eq. unfold uint in *. rewrite Z.mod_mod by lia.
  rewrite <- Zplus_mod_idemp_l, <- Zmult_mod_idemp_l, Hh.
  by rewrite Zmult_mod_idemp_l, Zplus_mod_idemp_l.
Qed.

Lemma foldl_strhash_step_range s h :
  0 <= h < 2 ^ 32 -> 0 <= foldl strhash_step h s < 2 ^ 32.
Proof.
  revert h. induction s as [|c s IH]; intros h Hh; [done|]. simpl. apply IH.
  rewrite strhash_step_eq. apply uint_range.
Qed.

Lemma strhash_p_loop_spec s rest h :
  Forall (fun c => c <> 0) s ->
  strhash_p_loop h (s ++ 0 :: rest) = Some (foldl strhash_step h s) /\
  strhash_p_loop h s = None.
Proof.
  intros Hs. revert h. induction Hs as [|c s Hc Hs IH]; intros h; [done|].
  simpl. apply Z.eqb_neq in Hc. rewrite Hc. apply IH.
Qed.

Lemma strhash_n_loop_spec s rest h (n : nat) :
  Forall (fun c => c <> 0) s -> (n <= length s)%nat ->
  strhash_n_loop h (s ++ rest) (Z.of_nat n) = Some (foldl strhash_step h (take n s)).
Proof.
  intros Hs. revert h n. induction Hs as [|c s Hc Hs IH]; intros h n Hn.
  - simpl in Hn. assert (n = O) as -> by lia. by destruct rest.
  - destruct n as [|n]; [done|]. rewrite Nat2Z.inj_succ. simpl in Hn.
    cbn [app strhash_n_loop].
    assert ((Z.succ (Z.of_nat n) =? 0) = false) as -> by (apply Z.eqb_neq; lia).
    apply Z.eqb_neq in Hc. rewrite Hc.
    replace (Z.succ (Z.of_nat n) - 1) with (Z.of_nat n) by lia.
    rewrite IH by lia. done.
Qed.

Lemma strhash_n_loop_terminated s rest h n :
  Forall (fun c => c <> 0) s -> Z.of_nat (length s) <= n ->
  strhash_n_loop h (s ++ 0 :: rest) n = Some (foldl strhash_step h s).
Proof.
  intros Hs. revert h n. induction Hs as [|c s Hc Hs IH]; intros h n Hn.
  - simpl. by destruct (n =? 0).
  - simpl in Hn. cbn [app strhash_n_loop].
    assert ((n =? 0) = false) as -> by (apply Z.eqb_neq; lia).
    apply Z.eqb_neq in Hc. rewrite Hc. rewrite IH by lia. done.
Qed.

(** X20: the string hashes.  For a buffer that holds the characters [s]
    (none of them zero) and then a terminator, [BLI_ghashutil_strhash_p]
    is the hash its comment describes -- from 5381, [hash * 33 + c] for each
    character, in [unsigned int] -- and what follows the terminator does not
    matter; without a terminator the loop reads past the buffer.
    [BLI_ghashutil_strhash_n] is that hash of the first [n] characters, for
    which it needs no terminator, and the hash of [BLI_ghashutil_strhash_p]
    as soon as [n] is the length of the string or more. *)
Theorem strhash_is_djb s rest (n : nat) :
  Forall (fun c => c <> 0) s ->
  BLI_ghashutil_strhash_p (s ++ 0 :: rest) = Some (uint (djb s)) /\
  BLI_ghashutil_strhash_p s = None /\
  ((n <= length s)%nat ->
   BLI_ghashutil_strhash_n (s ++ rest) (Z.of_nat n) = Some (uint (djb (take n s)))) /\
  ((length s <= n)%nat ->
   BLI_ghashutil_strhash_n (s ++ 0 :: rest) (Z.of_nat n)
   = BLI_ghashutil_strhash_p (s ++ 0 :: rest)).
Proof.
  intros Hs. unfold BLI_ghashutil_strhash_p, BLI_ghashutil_strhash_n, djb.
  destruct (strhash_p_loop_spec s rest 5381 Hs) as [Hp Hnone].
  assert (forall l, foldl strhash_step 5381 l
                    = uint (foldl (fun h c => h * 33 + c) 5381 l)) as Hdjb.
  { intros l. rewrite <- (foldl_djb_uint l 5381 5381 eq_refl).
    symmetry. apply uint_small. apply foldl_strhash_step_range. lia. }
  split_and!.
  - by rewrite Hp, Hdjb.
  - exact Hnone.
  - intros Hn. by rewrite strhash_n_loop_spec, Hdjb.
  - intros Hn. rewrite Hp. apply strhash_n_loop_terminated; [done|lia].
Qed.

(** *** The shipped callback pairs *)

(** The contract the table relies on: the comparison (false for equal keys)
    is an equivalence, and keys it takes as equal have the same hash. *)
Definition callbacks_ok (call_hashfp : Z -> Z -> Z) (call_cmpfp : Z -> Z -> Z -> bool)
    (hf cf : Z) : Prop :=
  (forall a, call_cmpfp cf a a = false) /\
  (forall a b, call_cmpfp cf a b = false -> call_cmpfp cf b a = false) /\
  (forall a b c, call_cmpfp cf a b = false -> call_cmpfp cf b c = false ->
                 call_cmpfp cf a c = false) /\
  (forall a b, call_cmpfp cf a b = false -> call_hashfp hf a = call_hashfp hf b).

Lemma STREQ_sym a b : STREQ a b = STREQ b a.
Proof.
  revert b. induction a as [|ca ra IH]; intros [|cb rb]; try done. simpl.
  rewrite (Z.eqb_sym cb ca). destruct (ca =? cb) eqn:Hc; [|done].
  apply Z.eqb_eq in Hc. subst cb. by rewrite IH.
Qed.

Lemma STREQ_trans a b c :
  STREQ a b = Some true -> STREQ b c = Some true -> STREQ a c = Some true.
Proof.
  revert b c. induction a as [|ca ra IH]; intros [|cb rb] [|cc rc] H1 H2;
    simpl in *; try done.
  destruct (ca =? cb) eqn:Hab; [|done]. apply Z.eqb_eq in Hab. subst cb.
  destruct (ca =? cc) eqn:Hac; [|done].
  destruct (ca =? 0); [done|]. by apply (IH rb).
Qed.

Lemma STREQ_hash a b h :
  STREQ a b = Some true -> strhash_p_loop h a = strhash_p_loop h b.
Proof.
  revert b h. induction a as [|ca ra IH]; intros [|cb rb] h; try done. simpl.
  destruct (ca =? cb) eqn:Hab; [|done]. apply Z.eqb_eq in Hab. subst cb.
  destruct (ca =? 0); [done|]. apply IH.
Qed.

Lemma strcmp_false mem a b :
  default true (BLI_ghashutil_strcmp mem a b) = false
  <-> a = b \/ STREQ (mem a) (mem b) = Some true.
Proof.
  unfold BLI_ghashutil_strcmp. destruct (a =? b) eqn:Hab.
  - apply Z.eqb_eq in Hab. simpl. split; [by left|done].
  - apply Z.eqb_neq in Hab.
    destruct (STREQ (mem a) (mem b)) as [[|]|]; simpl.
    + split; [by right|done].
    + split; [done|]. intros [H|H]; done.
    + split; [done|]. intros [H|H]; done.
Qed.

Lemma str_callbacks_ok mem pair_at :
  callbacks_ok (util_call_hashfp mem pair_at) (util_call_cmpfp mem pair_at)
               str_hashfp str_cmpfp.
Proof.
  unfold callbacks_ok, util_call_hashfp, util_call_cmpfp. simpl.
  split_and!.
  - intros a. apply strcmp_false. by left.
  - intros a b [->|H]%strcmp_false; apply strcmp_false; [by left|right].
    by rewrite STREQ_sym.
  - intros a b c [->|H1]%strcmp_false [->|H2]%strcmp_false; apply strcmp_false;
      try (by left); try (by right).
    right. by apply (STREQ_trans _ (mem b)).
  - intros a b [->|H]%strcmp_false; [done|].
    unfold BLI_ghashutil_strhash_p. by rewrite (STREQ_hash _ _ _ H).
Qed.

(** X21: each pair of hash and comparison functions the file ships for the
    convenience constructors keeps the contract the table relies on: the
    comparison is an equivalence and keys it takes as equal have the same
    hash.  This holds for the pointer pair, the integer pair, the string pair
    (two pointers are equal keys when they are the same address or their
    strings are equal up to the terminator) and the pair pair (equal keys
    are pairs with the same two members), and likewise for
    [BLI_ghashutil_uinthash_v4] with [BLI_ghashutil_uinthash_v4_cmp]. *)
Theorem shipped_callbacks_keep_contract mem pair_at :
  let ch := util_call_hashfp mem pair_at in
  let cc := util_call_cmpfp mem pair_at in
  callbacks_ok ch cc ptr_hashfp ptr_cmpfp /\
  callbacks_ok ch cc int_hashfp int_cmpfp /\
  callbacks_ok ch cc str_hashfp str_cmpfp /\
  callbacks_ok ch cc pair_hashfp pair_cmpfp /\
  (forall a b, cc pair_cmpfp a b = false <-> pair_at a = pair_at b) /\
  (forall a b, cc str_cmpfp a b = false <-> a = b \/ STREQ (mem a) (mem b) = Some true) /\
  (forall a b, BLI_ghashutil_uinthash_v4_cmp a b = false <-> a = b).
Proof.
  intros ch cc.
  assert (forall a b : Z, negb (a =? b) = false <-> a = b) as Hneq.
  { intros a b. rewrite negb_false_iff. apply Z.eqb_eq. }
  assert (forall a b, cc pair_cmpfp a b = false <-> pair_at a = pair_at b) as Hpair.
  { intros a b. subst cc. unfold util_call_cmpfp. simpl.
    unfold BLI_ghashutil_paircmp, BLI_ghashutil_ptrcmp.
    destruct (pair_at a) as [a1 a2], (pair_at b) as [b1 b2]. simpl.
    rewrite orb_false_iff, !Hneq. split; [by intros [-> ->]|by intros [= -> ->]]. }
  split_and!.
  - subst ch cc. unfold callbacks_ok, util_call_hashfp, util_call_cmpfp. simpl.
    unfold BLI_ghashutil_ptrcmp. split_and!.
    + intros a. by apply Hneq.
    + intros a b ->%Hneq. by apply Hneq.
    + intros a b c ->%Hneq ->%Hneq. by apply Hneq.
    + by intros a b ->%Hneq.
  - subst ch cc. unfold callbacks_ok, util_call_hashfp, util_call_cmpfp. simpl.
    unfold BLI_ghashutil_intcmp. split_and!.
    + intros a. by apply Hneq.
    + intros a b ->%Hneq. by apply Hneq.
    + intros a b c ->%Hneq ->%Hneq. by apply Hneq.
    + by intros a b ->%Hneq.
  - apply str_callbacks_ok.
  - unfold callbacks_ok. split_and!.
    + intros a. by apply Hpair.
    + intros a b H%Hpair. by apply Hpair.
    + intros a b c H1%Hpair H2%Hpair. apply Hpair. congruence.
    + intros a b H%Hpair. subst ch. unfold util_call_hashfp. simpl.
      unfold BLI_ghashutil_pairhash. by rewrite H.
  - exact Hpair.
  - intros a b. subst cc. unfold util_call_cmpfp. simpl. apply strcmp_false.
  - intros [[[a0 a1] a2] a3] [[[b0 b1] b2] b3]. simpl.
    rewrite negb_false_iff, !andb_true_iff, !Z.eqb_eq.
    split; [by intros [[[-> ->] ->] ->]|by intros [= -> -> -> ->]].
Qed.

(** X22: a string-keyed map finds a value under any pointer to an equal
    string.  [BLI_ghash_str_new] makes a well-formed empty table on the
    string callbacks; after [BLI_ghash_insert] of a key the table did not
    hold, [BLI_ghash_lookup] returns the value for the inserted pointer and
    for every pointer whose string is equal up to the terminator. *)
Theorem str_table_finds_equal_strings mem pair_at gh k k' v :
  let ch := util_call_hashfp mem pair_at in
  let cc := util_call_cmpfp mem pair_at in
  table_of ch str_hashfp str_cmpfp gh -> uniq (cc str_cmpfp) (entries gh) ->
  BLI_ghash_haskey ch cc gh k = false -> nentries gh + 1 < 2 ^ 32 ->
  k' = k \/ STREQ (mem k') (mem k) = Some true ->
  (BLI_ghash_lookup ch cc (BLI_ghash_insert ch cc gh k v).1 k').1 = Some v /\
  table_of ch str_hashfp str_cmpfp BLI_ghash_str_new /\
  uniq (cc str_cmpfp) (entries BLI_ghash_str_new).
Proof.
  intros ch cc Htab Hu Habs Hroom Heq.
  destruct (str_callbacks_ok mem pair_at) as (Hrefl & Hsym & Htrans & Hhash).
  split_and!.
  - destruct (insert_lookup_spec ch cc str_hashfp str_cmpfp Hrefl Hsym Htrans Hhash
                gh k v Htab Hu Habs Hroom) as (_ & _ & _ & L).
    unfold BLI_ghash_lookup. cbn [fst]. rewrite L.
    assert (cc str_cmpfp k' k = false) as ->; [|done].
    subst cc. unfold util_call_cmpfp. simpl. by apply strcmp_false.
  - unfold BLI_ghash_str_new, BLI_ghash_str_new_ex, BLI_ghash_new_ex.
    destruct (ghash_new_ok str_hashfp str_cmpfp 0 GHASH_ENTRY_SIZE)
      as (N1 & N2 & N3 & N4 & N5).
    constructor.
    + exact N1.
    + exact N3.
    + exact N4.
    + intros e He. rewrite N2 in He. by apply elem_of_nil in He.
    + rewrite N5. by vm_compute.
  - unfold BLI_ghash_str_new, BLI_ghash_str_new_ex, BLI_ghash_new_ex.
    destruct (ghash_new_ok str_hashfp str_cmpfp 0 GHASH_ENTRY_SIZE) as (_ & N2 & _).
    rewrite N2. intros x. simpl. lia.
Qed.

(* ===================================================================== *)
(** * The pointer callbacks, and the scenarios of the specification *)

Lemma ptrcmp_refl a : std_call_cmpfp ptr_cmpfp a a = false.
Proof. unfold std_call_cmpfp, BLI_ghashutil_ptrcmp. simpl. by rewrite Z.eqb_refl. Qed.

Lemma ptrcmp_eq a b : std_call_cmpfp ptr_cmpfp a b = false -> a = b.
Proof.
  unfold std_call_cmpfp, BLI_ghashutil_ptrcmp. simpl.
  intros H. apply negb_false_iff, Z.eqb_eq in H. done.
Qed.

Lemma ptrcmp_sym a b :
  std_call_cmpfp ptr_cmpfp a b = false -> std_call_cmpfp ptr_cmpfp b a = false.
Proof. intros ->%ptrcmp_eq. apply ptrcmp_refl. Qed.

Lemma ptrcmp_trans a b c :
  std_call_cmpfp ptr_cmpfp a b = false -> std_call_cmpfp ptr_cmpfp b c = false ->
  std_call_cmpfp ptr_cmpfp a c = false.
Proof. by intros ->%ptrcmp_eq. Qed.

Lemma ptrcmp_hash a b :
  std_call_cmpfp ptr_cmpfp a b = false ->
  std_call_hashfp ptr_hashfp a = std_call_hashfp ptr_hashfp b.
Proof. by intros ->%ptrcmp_eq. Qed.

(** A checker for [table_of]. *)
Definition table_of_b (call_hashfp : Z -> Z -> Z) (hf cf : Z) (gh : GHash) : bool :=
  ghash_ok_b gh && (hashfp gh =? hf) && (cmpfp gh =? cf)
  && forallb (fun e => hash e =? call_hashfp hf (key e)) (entries gh)
  && (GSET_ENTRY_SIZE <=? entry_size gh).

Lemma table_of_b_sound call_hashfp hf cf gh :
  table_of_b call_hashfp hf cf gh = true -> table_of call_hashfp hf cf gh.
Proof.
  unfold table_of_b. intros H.
  apply andb_true_iff in H as [H Hes]. apply andb_true_iff in H as [H Hhashed].
  apply andb_true_iff in H as [H Hc]. apply andb_true_iff in H as [Hok Hh].
  constructor.
  - by apply ghash_ok_b_sound.
  - lia.
  - lia.
  - intros e He. rewrite forallb_forall in Hhashed.
    apply list_elem_of_In, Hhashed in He. lia.
  - lia.
Qed.

(** Scenario S4. *)
Definition map_s4_a : GHash := ghash_of_list [(1, 97); (2, 98)].
Definition map_s4_b : GHash := ghash_of_list [(2, 66); (3, 99)].

(** Scenario S5. *)
Definition set_s5_a : GHash := gset_of_list [1; 2; 3].
Definition set_s5_b : GHash := gset_of_list [2; 3; 4].
Definition set_s5_c : GHash := gset_of_list [3; 4; 5].

Lemma union_left_biased_witness :
  let R := (BLI_ghash_union std_call_cmpfp None None (Some map_s4_a) map_s4_b []).1 in
  let lookup k := (BLI_ghash_lookup std_call_hashfp std_call_cmpfp R k).1 in
  items_of R = [(3, Some 99); (2, Some 98); (1, Some 97)] /\
  lookup_entry_deref std_call_hashfp std_call_cmpfp R 2 = Some (mkEntry 0 2 (Some 98)) /\
  lookup_entry_deref std_call_hashfp std_call_cmpfp R 3 = Some (mkEntry 0 3 (Some 99)).
Proof.
  intros R lookup. split; [vm_compute; reflexivity|].
  assert (table_of std_call_hashfp ptr_hashfp ptr_cmpfp map_s4_a) as Ha
    by (apply table_of_b_sound; vm_compute; reflexivity).
  assert (table_of std_call_hashfp ptr_hashfp ptr_cmpfp map_s4_b) as Hb
    by (apply table_of_b_sound; vm_compute; reflexivity).
  assert (uniq (std_call_cmpfp ptr_cmpfp) (entries map_s4_a)) as Hua
    by (apply (uniq_b_sound _ ptrcmp_sym ptrcmp_trans); vm_compute; reflexivity).
  assert (uniq (std_call_cmpfp ptr_cmpfp) (entries map_s4_b)) as Hub
    by (apply (uniq_b_sound _ ptrcmp_sym ptrcmp_trans); vm_compute; reflexivity).
  destruct (union_left_biased std_call_hashfp std_call_cmpfp ptr_hashfp ptr_cmpfp
              ptrcmp_refl ptrcmp_sym ptrcmp_trans ptrcmp_hash
              None None map_s4_a map_s4_b [])
    as (_ & _ & Hkeep & Hadd & _).
  - exact Ha.
  - exact Hua.
  - constructor; [exact Hb | constructor].
  - constructor; [exact Hub | constructor].
  - intros f k Hf. discriminate Hf.
  - vm_compute. reflexivity.
  - split.
    + apply Hkeep. vm_compute. reflexivity.
    + apply (Hadd 3 [] map_s4_b [] (mkEntry 0 3 (Some 99))).
      * reflexivity.
      * vm_compute. reflexivity.
      * intros o Ho. apply elem_of_nil in Ho. destruct Ho.
      * vm_compute. reflexivity.
Defined.

Lemma symmetric_difference_exactly_one_witness :
  let R := (BLI_ghash_symmetric_difference std_call_cmpfp None None None None
              (Some set_s5_a) set_s5_b [set_s5_c]).1 in
  keys_of R = [5; 1] /\
  (forall k, BLI_ghash_haskey std_call_hashfp std_call_cmpfp R k = true
             <-> holders std_call_hashfp std_call_cmpfp [set_s5_a; set_s5_b; set_s5_c] k
                 = 1%nat).
Proof.
  intros R. split; [vm_compute; reflexivity|].
  unfold R. clear R.
  assert (Forall (table_of std_call_hashfp ptr_hashfp ptr_cmpfp)
                 [set_s5_a; set_s5_b; set_s5_c]) as Htabs.
  { constructor; [|constructor; [|constructor; [|constructor]]];
      apply table_of_b_sound; vm_compute; reflexivity. }
  assert (Forall (fun t => uniq (std_call_cmpfp ptr_cmpfp) (entries t))
                 [set_s5_a; set_s5_b; set_s5_c]) as Hus.
  { constructor; [|constructor; [|constructor; [|constructor]]];
      apply (uniq_b_sound _ ptrcmp_sym ptrcmp_trans); vm_compute; reflexivity. }
  destruct (symmetric_difference_exactly_one std_call_hashfp std_call_cmpfp
              ptr_hashfp ptr_cmpfp ptrcmp_refl ptrcmp_sym ptrcmp_trans ptrcmp_hash
              None None None None (Some set_s5_a) set_s5_b [set_s5_c])
    as (_ & _ & Hkeys).
  - exact Htabs.
  - exact Hus.
  - intros f k Hf. discriminate Hf.
  - vm_compute. reflexivity.
  - exact Hkeys.
Defined.

(** Scenario S5 through the set wrapper, in place and into a new table, and
    scenario S4 right-biased. *)
Example scenario_s5_in_place :
  keys_of (BLI_gset_symmetric_difference std_call_cmpfp None None
             (Some set_s5_a) set_s5_b [set_s5_c]).1 = [5; 1].
Proof. vm_compute. reflexivity. Qed.

Example scenario_s5_new_table :
  keys_of (BLI_gset_symmetric_difference std_call_cmpfp None None
             None set_s5_a [set_s5_b; set_s5_c]).1 = [5; 1].
Proof. vm_compute. reflexivity. Qed.

Example scenario_s4_right_biased :
  items_of (BLI_ghash_union_reversed std_call_cmpfp None None None None
              (Some map_s4_a) map_s4_b []).1
  = [(3, Some 99); (2, Some 66); (1, Some 97)].
Proof. vm_compute. reflexivity. Qed.

(* ===================================================================== *)
(** * The theorems at concrete tables *)

Ltac by_eval := vm_compute; reflexivity.

Lemma table_s1_table : table_of std_call_hashfp ptr_hashfp ptr_cmpfp table_s1.
Proof. apply table_of_b_sound. by_eval. Qed.
Lemma table_s1_uniq : uniq (std_call_cmpfp ptr_cmpfp) (entries table_s1).
Proof. apply (uniq_b_sound _ ptrcmp_sym ptrcmp_trans). by_eval. Qed.
Lemma set_s5_a_table : table_of std_call_hashfp ptr_hashfp ptr_cmpfp set_s5_a.
Proof. apply table_of_b_sound. by_eval. Qed.
Lemma set_s5_a_uniq : uniq (std_call_cmpfp ptr_cmpfp) (entries set_s5_a).
Proof. apply (uniq_b_sound _ ptrcmp_sym ptrcmp_trans). by_eval. Qed.
Lemma set_s5_b_table : table_of std_call_hashfp ptr_hashfp ptr_cmpfp set_s5_b.
Proof. apply table_of_b_sound. by_eval. Qed.
Lemma set_s5_b_uniq : uniq (std_call_cmpfp ptr_cmpfp) (entries set_s5_b).
Proof. apply (uniq_b_sound _ ptrcmp_sym ptrcmp_trans). by_eval. Qed.
Lemma set_s5_c_table : table_of std_call_hashfp ptr_hashfp ptr_cmpfp set_s5_c.
Proof. apply table_of_b_sound. by_eval. Qed.

Lemma insert_then_lookup_witness :
  (BLI_ghash_lookup std_call_hashfp std_call_cmpfp
     (BLI_ghash_insert std_call_hashfp std_call_cmpfp table_s1 16 7).1 16).1 = Some 7 /\
  nentries (BLI_ghash_insert std_call_hashfp std_call_cmpfp table_s1 16 7).1 = 3 /\
  BLI_ghash_size (BLI_ghash_insert std_call_hashfp std_call_cmpfp table_s1 16 7).1
  = BLI_ghash_size table_s1 + 1.
Proof.
  destruct (insert_then_lookup std_call_hashfp std_call_cmpfp ptr_hashfp ptr_cmpfp
              ptrcmp_refl ptrcmp_sym ptrcmp_trans ptrcmp_hash table_s1 16 7)
    as (_ & _ & Hn & _ & Hsize & Hl & _).
  - exact table_s1_table.
  - exact table_s1_uniq.
  - by_eval.
  - by_eval.
  - split; [apply Hl, ptrcmp_refl|]. split; [rewrite Hn; by_eval|].
    apply Hsize. by_eval.
Defined.

Lemma remove_then_absent_witness :
  BLI_ghash_haskey std_call_hashfp std_call_cmpfp
    (BLI_ghash_remove std_call_hashfp std_call_cmpfp table_s1 256 (Some 11) (Some 12)).1.2
    256 = false /\
  (BLI_ghash_remove std_call_hashfp std_call_cmpfp table_s1 256 (Some 11) (Some 12)).2
  = [CallFree 11 (Some 256); CallFree 12 (Some 512)].
Proof.
  destruct (remove_then_absent std_call_hashfp std_call_cmpfp ptr_hashfp ptr_cmpfp
              ptrcmp_refl ptrcmp_sym ptrcmp_trans ptrcmp_hash table_s1 256
              (Some 11) (Some 12))
    as ((_ & _ & Habs & _) & _ & Hfree & _).
  - exact table_s1_table.
  - exact table_s1_uniq.
  - split; [exact Habs|].
    destruct (Hfree (mkEntry 16 256 (Some 512))) as (Hlog & _); [by_eval|].
    exact Hlog.
Defined.

Lemma gset_add_reinsert_spec_witness :
  (BLI_gset_add std_call_hashfp std_call_cmpfp set_s5_a 9).1.1 = true /\
  nentries (BLI_gset_add std_call_hashfp std_call_cmpfp set_s5_a 9).1.2 = 4 /\
  BLI_gset_add std_call_hashfp std_call_cmpfp set_s5_a 2 = (false, set_s5_a, []) /\
  (BLI_gset_reinsert std_call_hashfp std_call_cmpfp set_s5_a 2 (Some 11)).1.1 = false /\
  (BLI_gset_reinsert std_call_hashfp std_call_cmpfp set_s5_a 2 (Some 11)).2
  = [CallFree 11 (Some 2)].
Proof.
  destruct (gset_add_reinsert_spec std_call_hashfp std_call_cmpfp ptr_hashfp ptr_cmpfp
              ptrcmp_refl ptrcmp_sym ptrcmp_trans ptrcmp_hash set_s5_a 9 None)
    as ((Ha & _) & (_ & _ & Hn & _) & _).
  { exact set_s5_a_table. }
  { exact set_s5_a_uniq. }
  { by_eval. }
  destruct (gset_add_reinsert_spec std_call_hashfp std_call_cmpfp ptr_hashfp ptr_cmpfp
              ptrcmp_refl ptrcmp_sym ptrcmp_trans ptrcmp_hash set_s5_a 2 (Some 11))
    as ((_ & Hr) & _ & _ & Hheld & Hfree & _).
  { exact set_s5_a_table. }
  { exact set_s5_a_uniq. }
  { by_eval. }
  split; [rewrite Ha; by_eval|]. split; [rewrite Hn; by_eval|].
  split; [apply Hheld; by_eval|]. split; [rewrite Hr; by_eval|].
  destruct (Hfree (mkEntry 0 2 None)) as (Hlog & _); [by_eval|]. exact Hlog.
Defined.


Lemma free_calls_once_per_entry_witness :
  BLI_ghash_free table_s1 (Some 11) (Some 12)
  = concat ((fun e => call_free (Some 11) (Some (key e)) ++ call_free (Some 12) (val e))
            <$> entries table_s1) /\
  BLI_ghash_free table_s1 (Some 11) (Some 12)
  = [CallFree 11 (Some 256); CallFree 12 (Some 512);
     CallFree 11 (Some 768); CallFree 12 (Some 1024)].
Proof.
  destruct (free_calls_once_per_entry table_s1 (Some 11) (Some 12) 0) as (Hfree & _).
  - apply ok_array, ghash_ok_b_sound. by_eval.
  - split; [exact Hfree|by_eval].
Defined.

Lemma intersection_keeps_common_witness :
  keys_of (BLI_ghash_intersection std_call_cmpfp None None None None
             (Some set_s5_a) set_s5_b [set_s5_c]).1 = [3] /\
  BLI_ghash_haskey std_call_hashfp std_call_cmpfp
    (BLI_ghash_intersection std_call_cmpfp None None None None
       (Some set_s5_a) set_s5_b [set_s5_c]).1 1 = false.
Proof.
  destruct (intersection_keeps_common std_call_hashfp std_call_cmpfp ptr_hashfp ptr_cmpfp
              ptrcmp_refl ptrcmp_sym ptrcmp_trans ptrcmp_hash None None None None
              set_s5_a set_s5_b [set_s5_c])
    as (Hin & _).
  - exact set_s5_b_table.
  - constructor; [exact set_s5_c_table|constructor].
  - destruct (Hin set_s5_a_table set_s5_a_uniq) as (_ & _ & _ & Hl).
    split; [by_eval|].
    rewrite haskey_deref, Hl. by_eval.
Defined.

Lemma difference_drops_held_witness :
  keys_of (BLI_ghash_difference std_call_cmpfp None None None None
             (Some set_s5_a) set_s5_b [set_s5_c]).1 = [1] /\
  BLI_ghash_haskey std_call_hashfp std_call_cmpfp
    (BLI_ghash_difference std_call_cmpfp None None None None
       (Some set_s5_a) set_s5_b [set_s5_c]).1 2 = false.
Proof.
  destruct (difference_drops_held std_call_hashfp std_call_cmpfp ptr_hashfp ptr_cmpfp
              ptrcmp_refl ptrcmp_sym ptrcmp_trans ptrcmp_hash None None None None
              set_s5_a set_s5_b [set_s5_c])
    as (Hin & _).
  - exact set_s5_b_table.
  - constructor; [exact set_s5_c_table|constructor].
  - destruct (Hin set_s5_a_table set_s5_a_uniq) as (_ & _ & _ & Hl).
    split; [by_eval|].
    rewrite haskey_deref, Hl. by_eval.
Defined.


Definition set_78 : GHash := gset_of_list [7; 8].
Definition set_12 : GHash := gset_of_list [1; 2].
Definition set_321 : GHash := gset_of_list [3; 2; 1].

Lemma set_78_table : table_of std_call_hashfp ptr_hashfp ptr_cmpfp set_78.
Proof. apply table_of_b_sound. by_eval. Qed.
Lemma set_12_table : table_of std_call_hashfp ptr_hashfp ptr_cmpfp set_12.
Proof. apply table_of_b_sound. by_eval. Qed.
Lemma set_12_uniq : uniq (std_call_cmpfp ptr_cmpfp) (entries set_12).
Proof. apply (uniq_b_sound _ ptrcmp_sym ptrcmp_trans). by_eval. Qed.
Lemma set_321_table : table_of std_call_hashfp ptr_hashfp ptr_cmpfp set_321.
Proof. apply table_of_b_sound. by_eval. Qed.
Lemma set_321_uniq : uniq (std_call_cmpfp ptr_cmpfp) (entries set_321).
Proof. apply (uniq_b_sound _ ptrcmp_sym ptrcmp_trans). by_eval. Qed.

Lemma isdisjoint_spec_witness :
  BLI_ghash_isdisjoint std_call_cmpfp set_s5_a set_78 = true /\
  BLI_ghash_isdisjoint std_call_cmpfp set_s5_a set_s5_b = false /\
  forall k, ~ (BLI_ghash_haskey std_call_hashfp std_call_cmpfp set_s5_a k = true /\
               BLI_ghash_haskey std_call_hashfp std_call_cmpfp set_78 k = true).
Proof.
  destruct (isdisjoint_spec std_call_hashfp std_call_cmpfp ptr_hashfp ptr_cmpfp
              ptrcmp_refl ptrcmp_sym ptrcmp_trans ptrcmp_hash set_s5_a set_78)
    as ([Hd _] & _).
  - exact set_s5_a_table.
  - exact set_78_table.
  - split; [by_eval|]. split; [by_eval|]. apply Hd. by_eval.
Defined.

Lemma issubset_spec_witness :
  BLI_ghash_issubset std_call_cmpfp set_s5_a set_12 = true /\
  forall k, BLI_ghash_haskey std_call_hashfp std_call_cmpfp set_12 k = true ->
            BLI_ghash_haskey std_call_hashfp std_call_cmpfp set_s5_a k = true.
Proof.
  destruct (issubset_spec std_call_hashfp std_call_cmpfp ptr_hashfp ptr_cmpfp
              ptrcmp_refl ptrcmp_sym ptrcmp_trans ptrcmp_hash set_s5_a set_12)
    as ([Hs _] & _).
  - exact set_s5_a_table.
  - exact set_12_table.
  - exact set_12_uniq.
  - split; [by_eval|]. apply Hs. by_eval.
Defined.

Lemma isequal_spec_witness :
  BLI_ghash_isequal std_call_cmpfp set_s5_a set_321 = true /\
  forall k, BLI_ghash_haskey std_call_hashfp std_call_cmpfp set_s5_a k
            = BLI_ghash_haskey std_call_hashfp std_call_cmpfp set_321 k.
Proof.
  destruct (isequal_spec std_call_hashfp std_call_cmpfp ptr_hashfp ptr_cmpfp
              ptrcmp_refl ptrcmp_sym ptrcmp_trans ptrcmp_hash set_s5_a set_321)
    as ([He _] & _).
  - exact set_s5_a_table.
  - exact set_321_table.
  - exact set_s5_a_uniq.
  - exact set_321_uniq.
  - split; [by_eval|]. apply He. by_eval.
Defined.

Lemma iterator_visits_entries_witness :
  exists ghi,
    (BLI_ghashIterator_init table_s1 ≫= iter_steps 1) = Some ghi /\
    ghi_gh ghi = table_s1 /\
    BLI_ghashIterator_getKey ghi = key <$> entries table_s1 !! 1%nat /\
    BLI_ghashIterator_getValue ghi = (entries table_s1 !! 1%nat) ≫= val /\
    BLI_ghashIterator_done ghi = bool_decide (length (entries table_s1) <= 1)%nat /\
    (nentries table_s1 < 2 ^ 31 ->
     BLI_ghashIterator_done ghi = bool_decide (BLI_ghash_size table_s1 <= Z.of_nat 1)).
Proof.
  apply (iterator_visits_entries table_s1 1). apply ghash_ok_b_sound. by_eval.
Defined.

Lemma reserve_keeps_lookups_witness :
  BLI_ghash_size (BLI_ghash_reserve table_s1 100) = BLI_ghash_size table_s1 /\
  lookup_entry_deref std_call_hashfp std_call_cmpfp (BLI_ghash_reserve table_s1 100) 256
  = lookup_entry_deref std_call_hashfp std_call_cmpfp table_s1 256.
Proof.
  destruct (reserve_keeps_lookups std_call_hashfp std_call_cmpfp ptr_hashfp ptr_cmpfp
              ptrcmp_refl ptrcmp_sym ptrcmp_trans ptrcmp_hash table_s1 100)
    as (_ & _ & Hsize & _ & Hl & _).
  - exact table_s1_table.
  - exact table_s1_uniq.
  - split; [exact Hsize|apply Hl].
Defined.

Lemma insert_below_limit_links_only_witness :
  nbuckets (BLI_ghash_insert std_call_hashfp std_call_cmpfp table_s1 16 7).1
  = nbuckets table_s1.
Proof.
  destruct (insert_below_limit_links_only std_call_hashfp std_call_cmpfp table_s1 16 7)
    as (_ & Hnb & _).
  - vm_compute. eexists. reflexivity.
  - by_eval.
  - by vm_compute.
  - by_eval.
  - left. by vm_compute.
  - exact Hnb.
Defined.

Lemma structural_invariant_kept_witness :
  ghash_ok (BLI_ghash_insert std_call_hashfp std_call_cmpfp table_s1 16 7).1 /\
  ghash_ok (BLI_ghash_reserve table_s1 100).
Proof.
  destruct (structural_invariant_kept std_call_hashfp std_call_cmpfp table_s1 16 7 100 0
              None)
    as (_ & _ & Hins & _ & _ & _ & _ & Hres & _).
  - apply ghash_ok_b_sound. by_eval.
  - by_eval.
  - split; [exact Hins|exact Hres].
Defined.

Lemma flag_set_clear_bits_witness :
  Z.testbit (flag (BLI_ghash_flag_set table_s1 GHASH_FLAG_ALLOW_SHRINK)) 1
  = Z.testbit (flag table_s1) 1 || Z.testbit GHASH_FLAG_ALLOW_SHRINK 1 /\
  Z.testbit (flag (BLI_ghash_flag_clear table_s1 GHASH_FLAG_ALLOW_SHRINK)) 1
  = Z.testbit (flag table_s1) 1 && negb (Z.testbit GHASH_FLAG_ALLOW_SHRINK 1).
Proof.
  destruct (flag_set_clear_bits table_s1 GHASH_FLAG_ALLOW_SHRINK 1) as (Hset & Hclear & _).
  - by vm_compute.
  - by vm_compute.
  - split; [exact Hset|exact Hclear].
Defined.

Lemma uinthash_injective_witness :
  0 <= BLI_ghashutil_uinthash 1 < 2 ^ 32 /\
  (BLI_ghashutil_uinthash 1 = BLI_ghashutil_uinthash 2 -> 1 = 2).
Proof. apply (uinthash_injective 1 2); by vm_compute. Defined.

Lemma ptrhash_drops_low_bits_witness :
  BLI_ghashutil_ptrhash 4096 = (4096 mod 2 ^ 64 / 16) mod 2 ^ 32 /\
  (BLI_ghashutil_ptrhash 4096 = BLI_ghashutil_ptrhash 4112 -> 4096 = 4112).
Proof.
  destruct (ptrhash_drops_low_bits 4096 4096 4112) as [Hspec Hinj].
  split; [exact Hspec|]. apply Hinj; by vm_compute.
Defined.

Lemma strhash_is_djb_witness :
  BLI_ghashutil_strhash_p ([104; 105] ++ 0 :: []) = Some (uint (djb [104; 105])) /\
  BLI_ghashutil_strhash_p [104; 105] = None.
Proof.
  destruct (strhash_is_djb [104; 105] [] 1) as (Hp & Hnone & _).
  - constructor; [discriminate|]. constructor; [discriminate|constructor].
  - split; [exact Hp|exact Hnone].
Defined.

(** A memory with the string "a" at the addresses 100 and 200. *)
Definition two_strings (p : Z) : list Z :=
  if (p =? 100) || (p =? 200) then [97; 0] else [0].
Definition no_pairs (p : Z) : Z * Z := (0, 0).

Lemma str_table_finds_equal_strings_witness :
  (BLI_ghash_lookup (util_call_hashfp two_strings no_pairs)
     (util_call_cmpfp two_strings no_pairs)
     (BLI_ghash_insert (util_call_hashfp two_strings no_pairs)
        (util_call_cmpfp two_strings no_pairs) BLI_ghash_str_new 100 5).1 200).1 = Some 5.
Proof.
  destruct (str_callbacks_ok two_strings no_pairs) as (Hrefl & Hsym & Htrans & Hhash).
  destruct (str_table_finds_equal_strings two_strings no_pairs BLI_ghash_str_new 100 200 5)
    as (Hl & _).
  - apply table_of_b_sound. by_eval.
  - apply (uniq_b_sound _ Hsym Htrans). by_eval.
  - by_eval.
  - by_eval.
  - right. by_eval.
  - exact Hl.
Defined.


Lemma growth_is_minimal_witness :
  cursize table_s1 <= cursize (ghash_expand_buckets table_s1 100 false false) /\
  (cursize table_s1 < cursize (ghash_expand_buckets table_s1 100 false false) ->
   GHASH_LIMIT_GROW
     (hashsizes_at (cursize (ghash_expand_buckets table_s1 100 false false) - 1)) < 100).
Proof.
  destruct (growth_is_minimal table_s1 100 false) as (Hle & _ & _ & Hmin & _).
  - apply policy_ok_b_sound. by_eval.
  - by_eval.
  - split; [exact Hle|exact Hmin].
Defined.

(** Ten entries that [BLI_ghash_reserve], called for no entries while
    shrinking was allowed, left in five buckets; shrinking is off again. *)
Definition crowded : GHash :=
  BLI_ghash_flag_clear
    (BLI_ghash_reserve
       (BLI_ghash_flag_set
          (ghash_of_list [(16, 1); (32, 2); (48, 3); (64, 4); (80, 5);
                          (96, 6); (112, 7); (128, 8); (144, 9); (160, 10)])
          GHASH_FLAG_ALLOW_SHRINK) 0)
    GHASH_FLAG_ALLOW_SHRINK.

Lemma remove_without_shrink_never_shrinks_witness :
  (nentries crowded, nbuckets crowded, flag crowded) = (10, 5, 0) /\
  nbuckets crowded
  < nbuckets (BLI_ghash_remove std_call_hashfp std_call_cmpfp crowded 16 None None).1.2 /\
  nbuckets (BLI_ghash_remove std_call_hashfp std_call_cmpfp crowded 16 None None).1.2 = 17 /\
  nbuckets (BLI_ghash_remove std_call_hashfp std_call_cmpfp table_s1 256 None None).1.2
  = nbuckets table_s1.
Proof.
  destruct (remove_without_shrink_never_shrinks std_call_hashfp std_call_cmpfp
              crowded 16 None None)
    as (_ & _ & _ & Hgrow & _).
  { apply policy_ok_b_sound. by_eval. }
  { vm_compute. eexists. reflexivity. }
  { by_eval. }
  { vm_compute. split; [discriminate | reflexivity]. }
  destruct Hgrow as [_ Hnb]; [by_eval | by_eval | by_eval |].
  destruct (remove_without_shrink_never_shrinks std_call_hashfp std_call_cmpfp
              table_s1 256 None None)
    as (_ & _ & Hkeep & _).
  { apply policy_ok_b_sound. by_eval. }
  { vm_compute. eexists. reflexivity. }
  { by_eval. }
  { vm_compute. split; [discriminate | reflexivity]. }
  destruct Hkeep as (Hsame & _); [left; vm_compute; discriminate|].
  split; [by_eval|]. split; [exact Hnb|]. split; [by_eval | exact Hsame].
Defined.
